(** * OpenHands Resolver MCP: request interpretation, configuration and
      orchestration, embedded from the JavaScript sources.

    The development follows the layout of the repository:
    - [Regex]: the backtracking matcher behind the three regular-expression
      literals of the trigger detection module;
    - [TriggerDetection]: [detectTrigger], [extractIssueList],
      [validateTrigger];
    - [JS]: the fragment of JavaScript values, numbers and object store that
      the configuration module manipulates;
    - [Configuration]: [initialize], [mergeConfig], [loadFromEnvironment],
      [validateConfig], [saveConfigToFile], ...;
    - [Resolver]: [resolveIssue], [resolveBatch], [handleMcpInvocation] of
      index.js, over abstract collaborators;
    - [BatchProcessing]: the batch scheduler, whose source is not part of the
      repository snapshot.

    The properties follow, one module of facts for each: [RegexFacts],
    [TriggerFacts], [ResolverFacts], [StoreFacts], [BatchFacts],
    [ConfigFacts], [MergeFacts]; then what the code shows besides:
    [DetectionFacts] (the answers of the detector), [EntryFacts]
    (initialisation and dispatch in index.js), [AccessFacts], [SaveFacts],
    [ValidationFacts] and [EdgeFacts] (the accessors, updates and copies
    of the configuration manager, saving, validation).

    Text is a sequence of code units; only code units below 256 are
    represented (type [ascii]). *)

From Stdlib Require Import List Bool Arith ZArith QArith Lia.
From Stdlib Require Import Ascii String DecimalString.
Import ListNotations.
Close Scope Q_scope.

Set Implicit Arguments.

Definition text := list ascii.

(** [str "abc"] is the text of a string literal. *)
Definition str (s : string) : text := list_ascii_of_string s.

Definition text_eqb (a b : text) : bool :=
  if list_eq_dec ascii_dec a b then true else false.

(** ** Regular expressions *)

Module Regex.

(** A single-character matcher: a literal code unit or a class. *)
Inductive atom :=
| Chr (c : ascii)
| Cls (p : ascii -> bool).

(** The pieces the module's literals are made of.  The boolean of a
    quantified piece tells whether it is wrapped in a capture group:
    every group of the three literals wraps one quantified class. *)
Inductive piece :=
| One (a : atom)
| Opt (a : atom)
| Plus (captured : bool) (a : atom)
| Star (captured : bool) (a : atom).

Definition pattern := list piece.

Definition lit (s : string) : pattern :=
  map (fun c => One (Chr c)) (list_ascii_of_string s).

(** Character classes, on code units below 256. *)
Definition code (c : ascii) : nat := nat_of_ascii c.

Definition is_digit (c : ascii) : bool :=
  (48 <=? code c) && (code c <=? 57).

(** [\s]: TAB, LF, VT, FF, CR, SPACE, NBSP. *)
Definition is_space (c : ascii) : bool :=
  ((9 <=? code c) && (code c <=? 13)) || (code c =? 32) || (code c =? 160).

Definition is_slash (c : ascii) : bool := code c =? 47.

(** [.] excludes the line terminators LF and CR. *)
Definition is_dot (c : ascii) : bool :=
  negb ((code c =? 10) || (code c =? 13)).

Definition not_slash (c : ascii) : bool := negb (is_slash c).
Definition not_slash_space (c : ascii) : bool :=
  negb (is_slash c || is_space c).

(** Canonicalisation under the [i] flag: the literals of this module are
    ASCII letters, which a code unit matches exactly when it is the same
    letter in either case. *)
Definition canonicalize (c : ascii) : ascii :=
  if (97 <=? code c) && (code c <=? 122) then ascii_of_nat (code c - 32)
  else c.

Definition atom_match (icase : bool) (a : atom) (c : ascii) : bool :=
  match a with
  | Chr x =>
      if icase then Ascii.eqb (canonicalize x) (canonicalize c)
      else Ascii.eqb x c
  | Cls p => p c
  end.

(** Greedy repetition with backtracking: consume as many code units as
    the class allows, and give them back one at a time while the
    continuation [k] fails. *)
Fixpoint greedy {R : Type} (p : ascii -> bool)
    (k : text -> text -> option R) (taken s : text) (enough : bool)
    : option R :=
  let stop := if enough then k taken s else None in
  match s with
  | c :: s' =>
      if p c then
        match greedy p k (taken ++ [c]) s' true with
        | Some r => Some r
        | None => stop
        end
      else stop
  | [] => stop
  end.

(** The result of a match attempt at the head of the subject: the matched
    text, the captures in group order, and the rest of the subject. *)
Definition hit := (text * list text * text)%type.

Definition extend (taken : text) (cap : bool) (r : option hit)
    : option hit :=
  match r with
  | Some (m, cs, rest) =>
      Some (taken ++ m, if cap then taken :: cs else cs, rest)
  | None => None
  end.

Fixpoint run (icase : bool) (ps : pattern) (s : text) : option hit :=
  match ps with
  | [] => Some ([], [], s)
  | One a :: ps' =>
      match s with
      | c :: s' =>
          if atom_match icase a c then extend [c] false (run icase ps' s')
          else None
      | [] => None
      end
  | Opt a :: ps' =>
      let skip := run icase ps' s in
      match s with
      | c :: s' =>
          if atom_match icase a c then
            match extend [c] false (run icase ps' s') with
            | Some r => Some r
            | None => skip
            end
          else skip
      | [] => skip
      end
  | Plus cap a :: ps' =>
      greedy (atom_match icase a)
        (fun taken rest => extend taken cap (run icase ps' rest))
        [] s false
  | Star cap a :: ps' =>
      greedy (atom_match icase a)
        (fun taken rest => extend taken cap (run icase ps' rest))
        [] s true
  end.

(** A match found by scanning: the text before it, the matched text, the
    captures, the text after it. *)
Record found := Found {
  before : text;
  matched : text;
  groups : list text;
  after : text
}.

(** [String.prototype.match] without the [g] flag: the leftmost position at
    which the pattern matches. *)
Fixpoint search (icase : bool) (ps : pattern) (pre s : text)
    : option found :=
  match run icase ps s with
  | Some (m, cs, rest) => Some (Found pre m cs rest)
  | None =>
      match s with
      | [] => None
      | c :: s' => search icase ps (pre ++ [c]) s'
      end
  end.

(** [String.prototype.matchAll] with the [g] flag: successive leftmost
    matches, each search resuming where the previous match ended (one code
    unit further after an empty match).  At most [length s + 1] matches
    exist, which is the fuel [matchAll] supplies. *)
Fixpoint matchAll_from (fuel : nat) (icase : bool) (ps : pattern)
    (s : text) : list (text * list text) :=
  match fuel with
  | O => []
  | S fuel' =>
      match search icase ps [] s with
      | None => []
      | Some f =>
          (matched f, groups f) ::
          match matched f, after f with
          | [], [] => []
          | [], _ :: rest => matchAll_from fuel' icase ps rest
          | _ :: _, rest => matchAll_from fuel' icase ps rest
          end
      end
  end.

Definition matchAll (icase : bool) (ps : pattern) (s : text)
    : list (text * list text) :=
  matchAll_from (S (List.length s)) icase ps s.

(** The declarative reading of a pattern: [matches icase ps m cs] when
    the text [m] is in the language of [ps], the groups capturing [cs].
    It says which matches exist; [run] says which one backtracking
    finds. *)
Inductive matches (icase : bool) : pattern -> text -> list text -> Prop :=
| matches_nil : matches icase [] [] []
| matches_one a c ps m cs :
    atom_match icase a c = true ->
    matches icase ps m cs ->
    matches icase (One a :: ps) (c :: m) cs
| matches_opt_take a c ps m cs :
    atom_match icase a c = true ->
    matches icase ps m cs ->
    matches icase (Opt a :: ps) (c :: m) cs
| matches_opt_skip a ps m cs :
    matches icase ps m cs ->
    matches icase (Opt a :: ps) m cs
| matches_plus cap a taken ps m cs :
    taken <> [] ->
    forallb (atom_match icase a) taken = true ->
    matches icase ps m cs ->
    matches icase (Plus cap a :: ps) (taken ++ m)
      (if cap then taken :: cs else cs)
| matches_star cap a taken ps m cs :
    forallb (atom_match icase a) taken = true ->
    matches icase ps m cs ->
    matches icase (Star cap a :: ps) (taken ++ m)
      (if cap then taken :: cs else cs).

(** Some match of the pattern starts at the head of [s]. *)
Definition matches_at (icase : bool) (ps : pattern) (s : text) : Prop :=
  exists m cs rest, s = m ++ rest /\ matches icase ps m cs.

(** Some match of the pattern occurs in [s]. *)
Definition occurs (icase : bool) (ps : pattern) (s : text) : Prop :=
  exists pre q, s = pre ++ q /\ matches_at icase ps q.

End Regex.

(** ** JavaScript numbers and the global parsing functions *)

Module JSNum.

(** A Number: NaN, an infinity, or a finite value.  Finite values are
    exact rationals in lowest terms; the rounding of decimal literals to
    binary64 is not modelled. *)
Inductive num :=
| NaN
| Infinity (negative : bool)
| Fin (q : Q).

Definition of_Z (z : Z) : num := Fin (inject_Z z).

Definition Qltb (x y : Q) : bool := negb (Qle_bool y x).

(** [a < b]; any comparison with NaN is false. *)
Definition ltb (a b : num) : bool :=
  match a, b with
  | NaN, _ | _, NaN => false
  | Infinity true, Infinity true => false
  | Infinity true, _ => true
  | _, Infinity true => false
  | Infinity false, _ => false
  | Fin _, Infinity false => true
  | Fin x, Fin y => Qltb x y
  end.

(** [a > b] is [b < a]. *)
Definition gtb (a b : num) : bool := ltb b a.

Definition isNaN (n : num) : bool :=
  match n with NaN => true | _ => false end.

(** ToBoolean on a Number: zero and NaN are falsy. *)
Definition truthy (n : num) : bool :=
  match n with
  | NaN => false
  | Infinity _ => true
  | Fin q => negb (Qeq_bool q 0%Q)
  end.

Definition digit_val (c : ascii) : Z := Z.of_nat (Regex.code c - 48).

(** The value of a run of decimal digits, most significant first. *)
Definition digits_val (ds : text) : Z :=
  fold_left (fun acc c => (10 * acc + digit_val c)%Z) ds 0%Z.

Fixpoint take_while (p : ascii -> bool) (s : text) : text :=
  match s with
  | c :: s' => if p c then c :: take_while p s' else []
  | [] => []
  end.

Fixpoint drop_while (p : ascii -> bool) (s : text) : text :=
  match s with
  | c :: s' => if p c then drop_while p s' else s
  | [] => []
  end.

(** An optional sign in front of a numeral. *)
Definition sign (s : text) : bool * text :=
  match s with
  | c :: s' =>
      if Ascii.eqb c "-" then (true, s')
      else if Ascii.eqb c "+" then (false, s')
      else (false, s)
  | [] => (false, s)
  end.

(** [parseInt(s, 10)]: leading white space, an optional sign, then the
    longest run of decimal digits; NaN when there is no digit. *)
Definition parseInt10 (s : text) : num :=
  let (neg, s1) := sign (drop_while Regex.is_space s) in
  match take_while Regex.is_digit s1 with
  | [] => NaN
  | ds => of_Z (if neg then - digits_val ds else digits_val ds)
  end.

Fixpoint starts_with (p s : text) : bool :=
  match p, s with
  | [], _ => true
  | a :: p', b :: s' => Ascii.eqb a b && starts_with p' s'
  | _ :: _, [] => false
  end.

(** The exponent part [e±ddd], when one follows; zero otherwise. *)
Definition exponent (s : text) : Z :=
  match s with
  | c :: s' =>
      if Ascii.eqb c "e" || Ascii.eqb c "E" then
        let (neg, s2) := sign s' in
        match take_while Regex.is_digit s2 with
        | [] => 0%Z
        | ds => if neg then (- digits_val ds)%Z else digits_val ds
        end
      else 0%Z
  | [] => 0%Z
  end.

(** [m * 10^e] as a rational in lowest terms. *)
Definition scale10 (m e : Z) : Q :=
  Qred (if (0 <=? e)%Z then inject_Z (m * 10 ^ e)
        else Qmake m (Z.to_pos (10 ^ (- e)))).

(** [parseFloat(s)]: leading white space, an optional sign, then the
    longest prefix that is a decimal literal ([Infinity], digits with an
    optional fraction and exponent, or a fraction starting with a dot);
    NaN when there is none. *)
Definition parseFloat (s : text) : num :=
  let (neg, s1) := sign (drop_while Regex.is_space s) in
  if starts_with (str "Infinity") s1 then Infinity neg
  else
    let ip := take_while Regex.is_digit s1 in
    let s2 := drop_while Regex.is_digit s1 in
    let '(fp, s3) :=
      match s2 with
      | c :: s2' =>
          if Ascii.eqb c "." then
            match ip, take_while Regex.is_digit s2' with
            | [], [] => ([], s2)
            | _, fp => (fp, drop_while Regex.is_digit s2')
            end
          else ([], s2)
      | [] => ([], s2)
      end in
    match ip ++ fp with
    | [] => NaN
    | ds =>
        let m := digits_val ds in
        let e := (exponent s3 - Z.of_nat (List.length fp))%Z in
        Fin (scale10 (if neg then - m else m) e)
    end.

End JSNum.

(** ** Trigger detection (modules/trigger_detection) *)

Module TriggerDetection.
Import Regex.

(** Values thrown while a function body runs. *)
Inductive exn :=
| TypeError (msg : string).

Inductive outcome (A : Type) :=
| Ret (a : A)
| Throw (e : exn).
Arguments Ret {A} a.
Arguments Throw {A} e.

(** [/https?:\/\/github\.com\/([^\/]+)\/([^\/]+)\/issues\/(\d+)/g] *)
Definition urlRegex : pattern :=
  lit "http" ++ [Opt (Chr "s")] ++ lit "://github.com/"
  ++ [Plus true (Cls not_slash)] ++ lit "/"
  ++ [Plus true (Cls not_slash)] ++ lit "/issues/"
  ++ [Plus true (Cls is_digit)].

(** [/resolve\s+issues?\s+from\s+(G)/i] where the group [G] is the
    greedy [.] repeated zero or more times. *)
Definition batchRegex : pattern :=
  lit "resolve" ++ [Plus false (Cls is_space)] ++ lit "issue"
  ++ [Opt (Chr "s"); Plus false (Cls is_space)] ++ lit "from"
  ++ [Plus false (Cls is_space); Star true (Cls is_dot)].

(** [/resolve\s+issues?\s+in\s+([^\/]+)\/([^\/\s]+)/i] *)
Definition repoRegex : pattern :=
  lit "resolve" ++ [Plus false (Cls is_space)] ++ lit "issue"
  ++ [Opt (Chr "s"); Plus false (Cls is_space)] ++ lit "in"
  ++ [Plus false (Cls is_space); Plus true (Cls not_slash)] ++ lit "/"
  ++ [Plus true (Cls not_slash_space)].

(** One entry of an issue list; also the payload of a single request. *)
Record issue := Issue {
  issueUrl : text;
  owner : text;
  repo : text;
  issueNumber : JSNum.num
}.

(** The three object shapes [detectTrigger] builds:
    [{issueUrl, owner, repo, issueNumber, isBatch: false}],
    [{isBatch: true, issueList}] and
    [{isRepoWide: true, owner, repo, isBatch: false}]. *)
Inductive trigger :=
| Single (i : issue)
| Batch (issueList : list issue)
| RepoWide (owner repo : text).

(** The [n]-th capture of a match ([match[n + 1]]). *)
Definition group (n : nat) (gs : list text) : text := nth n gs [].

Definition issue_of_match (m : text * list text) : issue :=
  {| issueUrl := fst m;
     owner := group 0 (snd m);
     repo := group 1 (snd m);
     issueNumber := JSNum.parseInt10 (group 2 (snd m)) |}.

Definition extractIssueList (t : text) : list issue :=
  map issue_of_match (matchAll false urlRegex t).

(** What the caller may pass: a string, [null]/[undefined], another
    primitive, or an object whose [text] property holds a [field]. *)
Inductive field :=
| FUndefined
| FNull
| FBool (b : bool)
| FNum (n : JSNum.num)
| FStr (s : text)
| FObject.   (* an array or a plain data object *)

Inductive input :=
| InString (s : text)
| InNullish          (* null or undefined *)
| InPrimitive        (* a number or a boolean: reading [.text] gives undefined *)
| InRecord (text_field : field).

Definition truthy (f : field) : bool :=
  match f with
  | FUndefined | FNull => false
  | FBool b => b
  | FNum n => JSNum.truthy n
  | FStr s => match s with [] => false | _ => true end
  | FObject => true
  end.

(** [typeof input === 'string' ? input : (input.text || '')] *)
Definition text_of (i : input) : outcome field :=
  match i with
  | InString s => Ret (FStr s)
  | InNullish => Throw (TypeError "Cannot read properties of undefined (reading 'text')")
  | InPrimitive => Ret (FStr [])
  | InRecord f => Ret (if truthy f then f else FStr [])
  end.

(** The repository-wide rule. *)
Definition repo_rule (t : text) : option trigger :=
  match search true repoRegex [] t with
  | Some f => Some (RepoWide (group 0 (groups f)) (group 1 (groups f)))
  | None => None
  end.

(** The batch rule, falling through to the repository-wide rule. *)
Definition batch_rule (t : text) : option trigger :=
  match search true batchRegex [] t with
  | Some f =>
      match extractIssueList (group 0 (groups f)) with
      | [] => repo_rule t
      | issueList => Some (Batch issueList)
      end
  | None => repo_rule t
  end.

(** The three rules in order, on a non-empty string. *)
Definition detect_text (t : text) : option trigger :=
  match matchAll false urlRegex t with
  | m :: _ => Some (Single (issue_of_match m))
  | [] => batch_rule t
  end.

(** The body of the [try] block. *)
Definition detect_body (i : input) : outcome (option trigger) :=
  match text_of i with
  | Throw e => Throw e
  | Ret f =>
      if negb (truthy f) then Ret None
      else
        match f with
        | FStr t => Ret (detect_text t)
        | _ => Throw (TypeError "text.matchAll is not a function")
        end
  end.

(** [detectTrigger]: the [catch] clause logs and returns [null]. *)
Definition detectTrigger (i : input) : option trigger :=
  match detect_body i with
  | Ret r => r
  | Throw _ => None
  end.

Definition nonempty (t : text) : bool :=
  match t with [] => false | _ => true end.

Definition issue_complete (i : issue) : bool :=
  nonempty (owner i) && nonempty (repo i) && JSNum.truthy (issueNumber i).

Definition validateTrigger (triggerData : option trigger) : bool :=
  match triggerData with
  | None => false
  | Some (Batch issueList) =>
      negb (List.length issueList =? 0) && forallb issue_complete issueList
  | Some (RepoWide o r) => nonempty o && nonempty r
  | Some (Single i) => issue_complete i
  end.

(** The shape [https?://github.com/<owner>/<repo>/issues/<number>]:
    owner and repository are non-empty and free of slashes, the number is
    a non-empty run of decimal digits. *)
Inductive issue_url : text -> text -> text -> text -> Prop :=
| issue_url_intro (secure : bool) (o r d : text) :
    o <> [] -> forallb not_slash o = true ->
    r <> [] -> forallb not_slash r = true ->
    d <> [] -> forallb is_digit d = true ->
    issue_url
      (str "http" ++ (if secure then str "s" else []) ++ str "://github.com/"
       ++ o ++ str "/" ++ r ++ str "/issues/" ++ d)
      o r d.

(** The input carries the text [t]: as a string, or as the [text]
    property of a record. *)
Definition carries (i : input) (t : text) : Prop :=
  i = InString t \/ i = InRecord (FStr t).

(** The input has an empty or missing text. *)
Definition without_text (i : input) : Prop :=
  match i with
  | InString s => s = []
  | InNullish => False
  | InPrimitive => True
  | InRecord f => truthy f = false
  end.

(** An issue URL starts at the head of [s]. *)
Definition issue_url_at (s : text) : Prop :=
  exists u o r d rest, issue_url u o r d /\ s = u ++ rest.

(** The text contains an issue URL. *)
Definition contains_issue_url (t : text) : Prop :=
  exists pre q, t = pre ++ q /\ issue_url_at q.

(** [u] is the first issue URL of [pre ++ u ++ post]: no issue URL starts
    before it, and its digits are not followed by a further digit. *)
Definition first_issue_url (pre u post : text) : Prop :=
  (forall p1 p2, pre = p1 ++ p2 -> p2 <> [] ->
     ~ issue_url_at (p2 ++ u ++ post))
  /\ match post with
     | c :: _ => is_digit c = false
     | [] => True
     end.

(** The pattern of a literal text, and the issue-URL pattern after its
    optional [s]. *)
Definition lits (l : text) : pattern := map (fun c => One (Chr c)) l.

Definition url_tail : pattern :=
  lits (str "://github.com/") ++ [Plus true (Cls not_slash)]
  ++ lits (str "/") ++ [Plus true (Cls not_slash)]
  ++ lits (str "/issues/") ++ [Plus true (Cls is_digit)].

End TriggerDetection.

(** ** JavaScript values and the object store *)

Module JS.
Import JSNum.
Local Open Scope string_scope.

Definition loc := nat.

(** A parsed JSON document: an immutable tree.  The objects of a document
    are only read by the code, never written. *)
Unset Elimination Schemes.
Inductive json :=
| JNull
| JBool (b : bool)
| JNum (q : Q)
| JStr (s : string)
| JArr (items : list json)
| JObj (fields : list (string * json)).
Set Elimination Schemes.

(** A run-time value.  Objects are references into the store, so that two
    variables can alias one object; arrays are never written by the
    configuration module and are kept as trees. *)
Inductive value :=
| VUndefined
| VNull
| VBool (b : bool)
| VNum (n : num)
| VStr (s : string)
| VArr (items : list json)
| VObj (l : loc).

(** Own enumerable properties, in insertion order.  (An engine lists
    integer-like keys first; nothing below depends on the order.) *)
Definition object := list (string * value).
Definition heap := list object.

Fixpoint lookup (o : object) (k : string) : option value :=
  match o with
  | [] => None
  | (k', v) :: o' => if String.eqb k' k then Some v else lookup o' k
  end.

Fixpoint set_prop (o : object) (k : string) (v : value) : object :=
  match o with
  | [] => [(k, v)]
  | (k', v') :: o' =>
      if String.eqb k' k then (k', v) :: o' else (k', v') :: set_prop o' k v
  end.

Fixpoint delete_prop (o : object) (k : string) : object :=
  match o with
  | [] => []
  | (k', v') :: o' =>
      if String.eqb k' k then o' else (k', v') :: delete_prop o' k
  end.

Fixpoint update_nth {A : Type} (n : nat) (x : A) (l : list A) : list A :=
  match l, n with
  | [], _ => []
  | _ :: l', O => x :: l'
  | y :: l', S n' => y :: update_nth n' x l'
  end.

(** ToBoolean. *)
Definition truthy (v : value) : bool :=
  match v with
  | VUndefined | VNull => false
  | VBool b => b
  | VNum n => JSNum.truthy n
  | VStr s => negb (String.eqb s "")
  | VArr _ | VObj _ => true
  end.

Definition json_truthy (j : json) : bool :=
  match j with
  | JNull => false
  | JBool b => b
  | JNum q => negb (Qeq_bool q 0%Q)
  | JStr s => negb (String.eqb s "")
  | JArr _ | JObj _ => true
  end.

(** The value a non-object document node denotes.  (An object node is
    never assigned as such: the merge recurses into it.) *)
Definition value_of_json (j : json) : value :=
  match j with
  | JNull => VNull
  | JBool b => VBool b
  | JNum q => VNum (Fin q)
  | JStr s => VStr s
  | JArr items => VArr items
  | JObj _ => VUndefined
  end.

(** Names that every object inherits from [Object.prototype]. *)
Definition inherited (k : string) : bool :=
  existsb (String.eqb k)
    ["__proto__"; "constructor"; "hasOwnProperty"; "isPrototypeOf";
     "propertyIsEnumerable"; "toLocaleString"; "toString"; "valueOf";
     "__defineGetter__"; "__defineSetter__"; "__lookupGetter__";
     "__lookupSetter__"].

Inductive exn :=
| TypeError (msg : string)
| Error (msg : string).

(** How a piece of code completes.  [Beyond] marks behaviour that this
    embedding does not describe: a property of a primitive or of an array,
    a name inherited from [Object.prototype], assignment to [__proto__],
    the conversion of a string, array or object to a number. *)
Inductive completion (A : Type) :=
| Normal (a : A)
| Abrupt (e : exn)
| Beyond.
Arguments Normal {A} a.
Arguments Abrupt {A} e.
Arguments Beyond {A}.

(** ToNumber, on the values the embedding covers. *)
Definition toNumber (v : value) : completion num :=
  match v with
  | VUndefined => Normal NaN
  | VNull => Normal (of_Z 0)
  | VBool b => Normal (of_Z (if b then 1 else 0))
  | VNum n => Normal n
  | VStr _ | VArr _ | VObj _ => Beyond
  end.

End JS.

(** ** Configuration (modules/configuration) *)

Module Configuration.
Import JSNum JS.
Local Open Scope string_scope.

(** The module's variables: the object store, the constant
    [defaultConfig] and the variable [currentConfig]. *)
Record state := State {
  store : heap;
  defaultConfig : loc;
  currentConfig : loc
}.

Definition set_store (st : state) (h : heap) : state :=
  State h (defaultConfig st) (currentConfig st).

(** Code that reads and writes the module state and may throw. *)
Definition M (A : Type) := state -> completion A * state.

Definition ret {A} (a : A) : M A := fun st => (Normal a, st).
Definition throw {A} (e : exn) : M A := fun st => (Abrupt e, st).
Definition beyond {A} : M A := fun st => (Beyond, st).

Definition bind {A B} (m : M A) (f : A -> M B) : M B :=
  fun st =>
    match m st with
    | (Normal a, st') => f a st'
    | (Abrupt e, st') => (Abrupt e, st')
    | (Beyond, st') => (Beyond, st')
    end.

Notation "x <- m ;; k" := (bind m (fun x => k))
  (at level 61, m at next level, right associativity).
Notation "m ;;; k" := (bind m (fun _ => k))
  (at level 61, right associativity).

Definition when (b : bool) (m : M unit) : M unit :=
  if b then m else ret tt.

(** *** Store access *)

Definition read_obj (l : loc) : M object :=
  fun st =>
    match nth_error (store st) l with
    | Some o => (Normal o, st)
    | None => (Beyond, st)
    end.

Definition write_obj (l : loc) (o : object) : M unit :=
  fun st => (Normal tt, set_store st (update_nth l o (store st))).

(** A fresh object with the given properties. *)
Definition alloc (o : object) : M value :=
  fun st =>
    (Normal (VObj (List.length (store st))), set_store st (store st ++ [o])%list).

(** [v[k]] *)
Definition get_member (v : value) (k : string) : M value :=
  match v with
  | VUndefined | VNull =>
      throw (TypeError ("Cannot read properties of undefined (reading '"
                        ++ k ++ "')"))
  | VObj l =>
      o <- read_obj l ;;
      match lookup o k with
      | Some x => ret x
      | None => if inherited k then beyond else ret VUndefined
      end
  | _ => beyond
  end.

(** [v[k] = x] *)
Definition set_member (v : value) (k : string) (x : value) : M unit :=
  match v with
  | VUndefined | VNull =>
      throw (TypeError ("Cannot set properties of undefined (setting '"
                        ++ k ++ "')"))
  | VObj l =>
      if String.eqb k "__proto__" then beyond
      else o <- read_obj l ;; write_obj l (set_prop o k x)
  | _ => beyond
  end.

(** [delete v[k]] *)
Definition delete_member (v : value) (k : string) : M unit :=
  match v with
  | VUndefined | VNull =>
      throw (TypeError ("Cannot convert undefined or null to object"))
  | VObj l => o <- read_obj l ;; write_obj l (delete_prop o k)
  | _ => beyond
  end.

(** [{ ...v }] for an object [v]: a fresh object with the same property
    list; a nested object is shared with the original. *)
Definition spread (v : value) : M value :=
  match v with
  | VUndefined | VNull => alloc []
  | VObj l => o <- read_obj l ;; alloc o
  | _ => beyond
  end.

Definition get_currentConfig : M value :=
  fun st => (Normal (VObj (currentConfig st)), st).

Definition set_currentConfig (v : value) : M unit :=
  fun st =>
    match v with
    | VObj l => (Normal tt, State (store st) (defaultConfig st) l)
    | _ => (Beyond, st)
    end.

Definition get_defaultConfig : M value :=
  fun st => (Normal (VObj (defaultConfig st)), st).

(** *** The object literal [defaultConfig] *)

Definition n (z : Z) : json := JNum (inject_Z z).

Definition defaultConfig_literal : json :=
  JObj
    [("github", JObj [("timeout", n 10000); ("maxRetries", n 3);
                      ("maxConcurrent", n 5)]);
     ("ai", JObj [("model", JStr "claude-3-opus-20240229");
                  ("temperature", JNum (1 # 5)%Q);
                  ("maxTokens", n 4000);
                  ("systemMessage", JStr "You are OpenHands, an AI agent designed to resolve GitHub issues by generating code fixes.")]);
     ("task", JObj [("maxContextSnippets", n 10); ("maxFileSize", n 100000);
                    ("prioritizeErrorContext", JBool true)]);
     ("pullRequest", JObj [("defaultAsDraft", JBool true);
                           ("defaultBaseBranch", JStr "");
                           ("titlePrefix", JStr "OpenHands: ");
                           ("addLabels", JArr [JStr "ai-assisted"]);
                           ("createCheckList", JBool true)]);
     ("security", JObj [("tokenEnvName", JStr "GITHUB_TOKEN");
                        ("validateCodeBeforeCommit", JBool true);
                        ("allowedFileTypes",
                         JArr (map JStr
                           [".js"; ".jsx"; ".ts"; ".tsx"; ".py"; ".rb";
                            ".java"; ".go"; ".php"; ".c"; ".cpp"; ".h";
                            ".cs"; ".md"; ".txt"; ".json"; ".yml";
                            ".yaml"]))]);
     ("batch", JObj [("maxConcurrent", n 3); ("maxIssuesPerBatch", n 10)]);
     ("debug", JObj [("enabled", JBool false); ("saveResponses", JBool false);
                     ("verboseLogging", JBool false)])].

(** Evaluating an object literal: the nested literals first, then the
    object that holds them. *)
Fixpoint literal (j : json) : M value :=
  match j with
  | JObj fields =>
      o <- (fix props (fs : list (string * json)) : M object :=
              match fs with
              | [] => ret []
              | (k, j') :: fs' =>
                  v <- literal j' ;;
                  o <- props fs' ;;
                  ret ((k, v) :: o)
              end) fields ;;
      alloc o
  | _ => ret (value_of_json j)
  end.

(** Module load: [const defaultConfig = {...}] and
    [let currentConfig = { ...defaultConfig }]. *)
Definition load_module : state :=
  match literal defaultConfig_literal (State [] 0 0) with
  | (Normal (VObj d), st) =>
      match spread (VObj d) (State (store st) d 0) with
      | (Normal (VObj c), st') => State (store st') d c
      | _ => st
      end
  | (_, st) => st
  end.

(** *** mergeConfig *)

Section ForIn.
Variable body : string -> json -> M unit.

(** [for (const key in source) body(key, source[key])] *)
Fixpoint for_in (source : list (string * json)) : M unit :=
  match source with
  | [] => ret tt
  | (key, sv) :: source' => body key sv ;;; for_in source'
  end.
End ForIn.

(** One iteration of the loop of [deepMerge]: an object-valued key is
    merged into [target[key]] (created empty when falsy), any other value
    is assigned. *)
Fixpoint merge_key (target : value) (key : string) (sv : json) {struct sv}
    : M unit :=
  match sv with
  | JObj sub =>
      tv <- get_member target key ;;
      when (negb (truthy tv))
        (fresh <- alloc [] ;; set_member target key fresh) ;;;
      tv' <- get_member target key ;;
      for_in (merge_key tv') sub
  | _ => set_member target key (value_of_json sv)
  end.

Definition deepMerge (target : value) (source : list (string * json))
    : M unit :=
  for_in (merge_key target) source.

Definition index_key (i : nat) : string :=
  NilEmpty.string_of_uint (Nat.to_uint i).

Fixpoint indexed {A : Type} (i : nat) (l : list A) : list (string * A) :=
  match l with
  | [] => []
  | x :: l' => (index_key i, x) :: indexed (S i) l'
  end.

Fixpoint chars (s : string) : list json :=
  match s with
  | EmptyString => []
  | String c s' => JStr (String c EmptyString) :: chars s'
  end.

(** What [for ... in] enumerates on a document node, with the value at
    each key: the fields of an object, the indices of an array or of a
    string, nothing on a number or a boolean. *)
Definition entries (j : json) : list (string * json) :=
  match j with
  | JObj fields => fields
  | JArr items => indexed 0 items
  | JStr s => indexed 0 (chars s)
  | _ => []
  end.

Definition mergeConfig (newConfig : json) : M unit :=
  if negb (json_truthy newConfig) then ret tt
  else
    cfg <- get_currentConfig ;;
    deepMerge cfg (entries newConfig).

(** *** loadFromEnvironment *)

(** [process.env]. *)
Definition environment := string -> option string.

Definition is_set (x : option string) : bool :=
  match x with
  | Some s => negb (String.eqb s "")
  | None => false
  end.

Definition is_exactly (x : option string) (lit : string) : bool :=
  match x with
  | Some s => String.eqb s lit
  | None => false
  end.

Definition get_or_empty (x : option string) : string :=
  match x with Some s => s | None => "" end.

(** [currentConfig.section.key = v] *)
Definition assign (section key : string) (v : value) : M unit :=
  cfg <- get_currentConfig ;;
  sec <- get_member cfg section ;;
  set_member sec key v.

(** [if (process.env.X) { const v = parse(process.env.X);
     if (!isNaN(v)) currentConfig.section.key = v; }] *)
Definition assign_parsed (parse : text -> num) (x : option string)
    (section key : string) : M unit :=
  when (is_set x)
    (let v := parse (str (get_or_empty x)) in
     when (negb (isNaN v)) (assign section key (VNum v))).

Definition loadFromEnvironment (env : environment) : M unit :=
  when (is_set (env "AI_MODEL"))
    (assign "ai" "model" (VStr (get_or_empty (env "AI_MODEL")))) ;;;
  assign_parsed parseFloat (env "AI_TEMPERATURE") "ai" "temperature" ;;;
  assign_parsed parseInt10 (env "AI_MAX_TOKENS") "ai" "maxTokens" ;;;
  when (is_exactly (env "DEBUG_MODE") "true")
    (assign "debug" "enabled" (VBool true) ;;;
     assign "debug" "verboseLogging" (VBool true)) ;;;
  when (is_exactly (env "PR_AS_DRAFT") "false")
    (assign "pullRequest" "defaultAsDraft" (VBool false)) ;;;
  assign_parsed parseInt10 (env "MAX_CONCURRENT_ISSUES")
    "batch" "maxConcurrent".

(** *** validateConfig *)

Definition lift {A} (c : completion A) : M A := fun st => (c, st).

(** [config.section.key] *)
Definition member2 (config : value) (section key : string) : M value :=
  sec <- get_member config section ;;
  get_member sec key.

Definition js_lt (v : M value) (bound : Z) : M bool :=
  x <- v ;; a <- lift (toNumber x) ;; ret (ltb a (of_Z bound)).

Definition js_gt (v : M value) (bound : Z) : M bool :=
  x <- v ;; a <- lift (toNumber x) ;; ret (gtb a (of_Z bound)).

Definition js_not (v : M value) : M bool :=
  x <- v ;; ret (negb (truthy x)).

(** [a || b] on conditions. *)
Definition or_else (a b : M bool) : M bool :=
  x <- a ;; if x then ret true else b.

(** [if (cond) errors.push(msg)] *)
Definition push_if (cond : M bool) (msg : string) (errors : list string)
    : M (list string) :=
  c <- cond ;; ret (if c then errors ++ [msg] else errors)%list.

(** The conditions of [validateConfig], each with the message pushed
    when it holds, in source order. *)
Definition checks (config : value) : list (M bool * string) :=
  [ (or_else (js_not (get_member config "ai"))
             (js_not (member2 config "ai" "model")),
     "AI model not defined");
    (or_else (js_lt (member2 config "ai" "temperature") 0)
             (js_gt (member2 config "ai" "temperature") 1),
     "AI temperature must be between 0 and 1");
    (or_else (js_lt (member2 config "ai" "maxTokens") 100)
             (js_gt (member2 config "ai" "maxTokens") 10000),
     "AI maxTokens must be between 100 and 10000");
    (js_lt (member2 config "batch" "maxConcurrent") 1,
     "Batch maxConcurrent must be at least 1");
    (js_lt (member2 config "batch" "maxIssuesPerBatch") 1,
     "Batch maxIssuesPerBatch must be at least 1");
    (js_not (member2 config "security" "tokenEnvName"),
     "Security tokenEnvName not defined") ].

Fixpoint run_checks (cs : list (M bool * string)) (errors : list string)
    : M (list string) :=
  match cs with
  | [] => ret errors
  | (cond, msg) :: cs' =>
      errors' <- push_if cond msg errors ;;
      run_checks cs' errors'
  end.

(** Returns the array [errors]; [valid] is [errors.length === 0]. *)
Definition validateConfig (config : value) : M (list string) :=
  run_checks (checks config) [].

(** *** initialize *)

(** [try { body } catch (error) { handler }] *)
Definition try_catch {A} (body : M A) (handler : exn -> M A) : M A :=
  fun st =>
    match body st with
    | (Abrupt e, st') => handler e st'
    | r => r
    end.

(** What [configPath] and the file system give: no path, a failing load,
    or a parsed document. *)
Inductive file_load :=
| NoPath
| LoadFails (msg : string)
| Loaded (doc : json).

(** [currentConfig = { ...defaultConfig }] *)
Definition start_from_defaults : M unit :=
  d <- get_defaultConfig ;;
  c <- spread d ;;
  set_currentConfig c.

(** Defaults, then the optional file. *)
Definition load_file (file : file_load) : M unit :=
  start_from_defaults ;;;
  match file with
  | NoPath => ret tt
  | LoadFails msg => throw (Error ("Failed to load configuration: " ++ msg))
  | Loaded doc => mergeConfig doc
  end.

(** The three steps that precede validation. *)
Definition load_all (file : file_load) (env : environment) : M unit :=
  load_file file ;;;
  loadFromEnvironment env.

Definition validate_or_throw : M bool :=
  cfg <- get_currentConfig ;;
  errors <- validateConfig cfg ;;
  match errors with
  | [] => ret true
  | _ => throw (Error ("Configuration validation failed: "
                       ++ String.concat ", " errors))
  end.

(** The promise [initialize] returns always resolves, to [true] or to
    [false]. *)
Definition initialize (file : file_load) (env : environment) : M bool :=
  try_catch (load_all file env ;;; validate_or_throw)
            (fun _ => ret false).

(** *** Accessors and updates *)

Definition getConfig : M value :=
  cfg <- get_currentConfig ;; spread cfg.

Definition getConfigSection (section : string) : M value :=
  cfg <- get_currentConfig ;;
  sec <- get_member cfg section ;;
  if truthy sec then spread sec else ret VNull.

(** [key.split('.')] *)
Fixpoint split_dots (cur : string) (key : string) : list string :=
  match key with
  | EmptyString => [cur]
  | String c key' =>
      if Ascii.eqb c "." then cur :: split_dots "" key'
      else split_dots (cur ++ String c "") key'
  end.

Fixpoint navigate (current : value) (parts : list string) (v : value)
    : M unit :=
  match parts with
  | [] => ret tt
  | [last] => set_member current last v
  | part :: rest =>
      c <- get_member current part ;;
      when (negb (truthy c))
        (fresh <- alloc [] ;; set_member current part fresh) ;;;
      c' <- get_member current part ;;
      navigate c' rest v
  end.

Definition resetToDefaults : M unit := start_from_defaults.

(** *** saveConfigToFile *)

(** [JSON.stringify]: the document that the produced text denotes.  A
    property whose value is [undefined] is left out, NaN and the
    infinities become [null], a cycle throws.  [path] holds the objects
    being serialised; the fuel bounds the depth, which cannot exceed the
    number of objects in the store. *)
Fixpoint serialize (fuel : nat) (h : heap) (path : list loc) (v : value)
    : completion (option json) :=
  match v with
  | VUndefined => Normal None
  | VNull => Normal (Some JNull)
  | VBool b => Normal (Some (JBool b))
  | VNum (Fin q) => Normal (Some (JNum q))
  | VNum _ => Normal (Some JNull)
  | VStr s => Normal (Some (JStr s))
  | VArr items => Normal (Some (JArr items))
  | VObj l =>
      if existsb (Nat.eqb l) path then
        Abrupt (TypeError "Converting circular structure to JSON")
      else
        match fuel, nth_error h l with
        | S fuel', Some o =>
            match
              (fix props (o : object)
                 : completion (list (string * json)) :=
                 match o with
                 | [] => Normal []
                 | (k, x) :: o' =>
                     match serialize fuel' h (l :: path) x with
                     | Normal None => props o'
                     | Normal (Some j) =>
                         match props o' with
                         | Normal fs => Normal ((k, j) :: fs)
                         | r => r
                         end
                     | Abrupt e => Abrupt e
                     | Beyond => Beyond
                     end
                 end) o
            with
            | Normal fs => Normal (Some (JObj fs))
            | Abrupt e => Abrupt e
            | Beyond => Beyond
            end
        | _, _ => Beyond
        end
  end.

Definition stringify (v : value) : M (option json) :=
  fun st => (serialize (S (List.length (store st))) (store st) [] v, st).

(** [updateConfig]: after the assignment, the log line serialises the
    value, which throws on a cyclic one. *)
Definition updateConfig (key : string) (v : value) : M bool :=
  try_catch (cfg <- get_currentConfig ;;
             navigate cfg (split_dots "" key) v ;;;
             _ <- stringify v ;;
             ret true)
            (fun _ => ret false).

(** The result of a save: the status returned and, when the write took
    place, the document written.  [write_error] is the error of
    [fs.writeFile], if any. *)
Definition saveConfigToFile (write_error : option string)
    : M (bool * option json) :=
  try_catch
    (cfg <- get_currentConfig ;;
     configToSave <- spread cfg ;;
     sec <- get_member configToSave "security" ;;
     when (truthy sec)
       (s1 <- get_member configToSave "security" ;;
        delete_member s1 "tokens" ;;;
        s2 <- get_member configToSave "security" ;;
        delete_member s2 "credentials") ;;;
     configJson <- stringify configToSave ;;
     match write_error, configJson with
     | Some msg, _ => throw (Error msg)
     | None, None => throw (TypeError "The data argument must be of type string")
     | None, Some doc => ret (true, Some doc)
     end)
    (fun _ => ret (false, None)).

(** *** getGitHubToken, getClaudeConfig *)

(** [process.env[tokenEnvName]] for the configured name, ['GITHUB_TOKEN']
    when that name is falsy; [null] (here [None]) when the variable is
    unset or empty.  A truthy name that is not a string, and a name that
    the environment object only inherits, are outside the embedding. *)
Definition getGitHubToken (env : environment) : M (option string) :=
  cfg <- get_currentConfig ;;
  configured <- member2 cfg "security" "tokenEnvName" ;;
  tokenEnvName <- (if truthy configured then
                     match configured with
                     | VStr s => ret s
                     | _ => beyond
                     end
                   else ret "GITHUB_TOKEN") ;;
  match env tokenEnvName with
  | Some token => ret (if String.eqb token "" then None else Some token)
  | None => if inherited tokenEnvName then beyond else ret None
  end.

(** The object literal of [getClaudeConfig]: its four properties are
    read from [currentConfig.ai] in source order. *)
Definition getClaudeConfig : M value :=
  cfg <- get_currentConfig ;;
  model <- member2 cfg "ai" "model" ;;
  temperature <- member2 cfg "ai" "temperature" ;;
  maxTokens <- member2 cfg "ai" "maxTokens" ;;
  systemMessage <- member2 cfg "ai" "systemMessage" ;;
  alloc [("model", model); ("temperature", temperature);
         ("maxTokens", maxTokens); ("systemMessage", systemMessage)].

(** *** loadConfigFromFile *)

(** [error.message] *)
Definition message (e : exn) : string :=
  match e with
  | TypeError msg | Error msg => msg
  end.

(** [s.endsWith(suffix)] *)
Definition endsWith (s suffix : string) : bool :=
  Nat.leb (String.length suffix) (String.length s)
  && String.eqb (substring (String.length s - String.length suffix)
                   (String.length suffix) s)
       suffix.

(** What [loadConfigFromFile] asks of the outside: [fs.stat] followed by
    [isFile()], [fs.readFile], [JSON.parse], and [require] of the
    resolved path.  Each call returns or throws; a module that exports
    something else than a document is outside the embedding. *)
Record filesystem := Filesystem {
  stat_isFile : string -> completion bool;
  readFile : string -> completion string;
  JSON_parse : string -> completion json;
  require : string -> completion json
}.

Definition loadConfigFromFile (fs : filesystem) (configPath : string)
    : completion json :=
  let body :=
    match stat_isFile fs configPath with
    | Normal isFile =>
        if negb isFile then
          Abrupt (Error ("Configuration path is not a file: " ++ configPath))
        else
          match readFile fs configPath with
          | Normal content =>
              if endsWith configPath ".json" then JSON_parse fs content
              else if endsWith configPath ".js" then require fs configPath
              else Abrupt (Error ("Unsupported configuration file type: "
                                  ++ configPath))
          | Abrupt e => Abrupt e
          | Beyond => Beyond
          end
    | Abrupt e => Abrupt e
    | Beyond => Beyond
    end in
  match body with
  | Abrupt e =>
      Abrupt (Error ("Failed to load configuration from " ++ configPath
                     ++ ": " ++ message e))
  | r => r
  end.

(** [initialize(configPath)] with the file system explicit: a missing or
    empty path loads no file. *)
Definition initialize_path (fs : filesystem) (env : environment)
    (configPath : option string) : M bool :=
  match configPath with
  | None => initialize NoPath env
  | Some path =>
      if String.eqb path "" then initialize NoPath env
      else
        match loadConfigFromFile fs path with
        | Normal doc => initialize (Loaded doc) env
        | Abrupt e => initialize (LoadFails (message e)) env
        | Beyond => beyond
        end
  end.

(** Reading [currentConfig.section.key] in a state, for statements. *)
Definition current (st : state) (section key : string)
    : completion value :=
  fst (member2 (VObj (currentConfig st)) section key st).

Definition default (st : state) (section key : string)
    : completion value :=
  fst (member2 (VObj (defaultConfig st)) section key st).

(** *** Merging documents, after the specification *)

(** Section 4.1: "keyed-object merge: object-valued keys merge
    recursively, all other value types, including lists, replace the
    target value wholesale"; section 8: the merge is right-biased. *)

Fixpoint jlookup (fs : list (string * json)) (k : string) : option json :=
  match fs with
  | [] => None
  | (k', j) :: fs' => if String.eqb k' k then Some j else jlookup fs' k
  end.

(** The key keeps its place when present, and is added last otherwise. *)
Fixpoint jset (fs : list (string * json)) (k : string) (j : json)
    : list (string * json) :=
  match fs with
  | [] => [(k, j)]
  | (k', j') :: fs' =>
      if String.eqb k' k then (k', j) :: fs' else (k', j') :: jset fs' k j
  end.

Section MergedFields.
Variable merged_value : option json -> json -> json.

Fixpoint merged_fields (target source : list (string * json))
    : list (string * json) :=
  match source with
  | [] => target
  | (k, sv) :: source' =>
      merged_fields (jset target k (merged_value (jlookup target k) sv))
        source'
  end.
End MergedFields.

(** The value at a key after the merge, from the target's value [tv] at
    that key, if any, and the source's value [sv].  An object in the
    source merges into the object of the target, or into an empty object
    where the target has nothing or a falsy value; anything else in the
    source replaces the target's value.  (An empty object merged into a
    truthy value that is not an object leaves it; a non-empty one there is
    outside the embedding.) *)
Fixpoint merged_value (tv : option json) (sv : json) {struct sv} : json :=
  match sv with
  | JObj sub =>
      match tv with
      | Some (JObj tsub) => JObj (merged_fields merged_value tsub sub)
      | Some t =>
          if json_truthy t then
            match sub with
            | [] => t
            | _ => JObj (merged_fields merged_value [] sub)
            end
          else JObj (merged_fields merged_value [] sub)
      | None => JObj (merged_fields merged_value [] sub)
      end
  | _ => sv
  end.

(** The fields of the target document after the fields of the source
    document are merged into it. *)
Definition merged (target source : list (string * json))
    : list (string * json) :=
  merged_fields merged_value target source.

(** *** Documents in the store *)

(** [repr h v j fp]: in the store [h], the value [v] is the root of a tree
    of objects, at the pairwise distinct locations [fp], that reads as the
    document [j]. *)
Inductive repr (h : heap) : value -> json -> list loc -> Prop :=
| repr_null : repr h VNull JNull []
| repr_bool b : repr h (VBool b) (JBool b) []
| repr_num q : repr h (VNum (Fin q)) (JNum q) []
| repr_str s : repr h (VStr s) (JStr s) []
| repr_arr items : repr h (VArr items) (JArr items) []
| repr_obj l o fs fp :
    nth_error h l = Some o ->
    repr_props h o fs fp ->
    ~ In l fp ->
    repr h (VObj l) (JObj fs) (l :: fp)
with repr_props (h : heap)
    : object -> list (string * json) -> list loc -> Prop :=
| repr_props_nil : repr_props h [] [] []
| repr_props_cons k v j o fs fp1 fp2 :
    repr h v j fp1 ->
    repr_props h o fs fp2 ->
    (forall l, In l fp1 -> ~ In l fp2) ->
    repr_props h ((k, v) :: o) ((k, j) :: fs) (fp1 ++ fp2).

Scheme repr_mut := Minimality for repr Sort Prop
  with repr_props_mut := Minimality for repr_props Sort Prop.

(** The current configuration reads as the document with fields [fs]. *)
Definition config_reads (st : state) (fs : list (string * json)) : Prop :=
  exists fp, repr (store st) (VObj (currentConfig st)) (JObj fs) fp.

(** *** The invariants of the configuration, on the stored state *)

(** [currentConfig.section.key] holds the number [x]. *)
Definition holds_number (st : state) (section key : string) (x : num)
    : Prop :=
  current st section key = Normal (VNum x).

(** One of the validated settings breaks its invariant: the temperature
    is outside [0, 1], the token limit outside [100, 10000], a batch limit
    below 1, or the name of the token variable is empty or missing. *)
Definition violates_invariant (st : state) : Prop :=
  (exists t, holds_number st "ai" "temperature" t
             /\ (ltb t (of_Z 0) = true \/ gtb t (of_Z 1) = true))
  \/ (exists m, holds_number st "ai" "maxTokens" m
                /\ (ltb m (of_Z 100) = true \/ gtb m (of_Z 10000) = true))
  \/ (exists c, holds_number st "batch" "maxConcurrent" c
                /\ ltb c (of_Z 1) = true)
  \/ (exists b, holds_number st "batch" "maxIssuesPerBatch" b
                /\ ltb b (of_Z 1) = true)
  \/ (exists v, current st "security" "tokenEnvName" = Normal v
                /\ truthy v = false).

(** The value an environment variable gives a numeric setting: the parsed
    number when the variable is set and parses, the prior value
    otherwise. *)
Definition overridden (parse : text -> num) (x : option string)
    (prior : completion value) : completion value :=
  if is_set x && negb (isNaN (parse (str (get_or_empty x))))
  then Normal (VNum (parse (str (get_or_empty x))))
  else prior.

(** What the environment does to the seven settings it can reach, from
    the state [st] before [loadFromEnvironment] to the state [st'] after
    it: a setting takes the variable's value when the variable applies,
    and keeps its prior value otherwise. *)
Definition environment_applied (env : environment) (st st' : state) : Prop :=
  current st' "ai" "model"
  = (if is_set (env "AI_MODEL")
     then Normal (VStr (get_or_empty (env "AI_MODEL")))
     else current st "ai" "model")
  /\ current st' "ai" "temperature"
     = overridden parseFloat (env "AI_TEMPERATURE")
         (current st "ai" "temperature")
  /\ current st' "ai" "maxTokens"
     = overridden parseInt10 (env "AI_MAX_TOKENS")
         (current st "ai" "maxTokens")
  /\ current st' "debug" "enabled"
     = (if is_exactly (env "DEBUG_MODE") "true"
        then Normal (VBool true) else current st "debug" "enabled")
  /\ current st' "debug" "verboseLogging"
     = (if is_exactly (env "DEBUG_MODE") "true"
        then Normal (VBool true) else current st "debug" "verboseLogging")
  /\ current st' "pullRequest" "defaultAsDraft"
     = (if is_exactly (env "PR_AS_DRAFT") "false"
        then Normal (VBool false)
        else current st "pullRequest" "defaultAsDraft")
  /\ current st' "batch" "maxConcurrent"
     = overridden parseInt10 (env "MAX_CONCURRENT_ISSUES")
         (current st "batch" "maxConcurrent").

(** An environment in which one variable is set. *)
Definition only (name v : string) : environment :=
  fun k => if String.eqb k name then Some v else None.

(** *** Vocabulary of the store proofs *)

(** A computation that leaves the state as it found it. *)
Definition reader {A} (m : M A) : Prop := forall st, snd (m st) = st.

(** The state after writing property [k] of the object at [l]. *)
Definition written (st : state) (l : loc) (o : object) (k : string)
    (v : value) : state :=
  set_store st (update_nth l (set_prop o k v) (store st)).

(** Whether a document is an object. *)
Definition is_object (j : json) : bool :=
  match j with JObj _ => true | _ => false end.

(** The object at [l] reads as [T] over the footprint [fp]. *)
Definition holds (st : state) (l : loc) (T : list (string * json))
    (fp : list loc) : Prop :=
  exists o, nth_error (store st) l = Some o
            /\ repr_props (store st) o T fp
            /\ ~ In l fp.

(** From [st], where the object at [l] had footprint [fp], to [st']
    where it reads as [T']: its new footprint is made of old footprint
    and fresh objects, and every other object of [st] is untouched. *)
Definition merge_post (st : state) (l : loc) (fp : list loc)
    (T' : list (string * json)) (st' : state) : Prop :=
  (exists fp',
     holds st' l T' fp'
     /\ forall l', In l' fp' ->
          In l' fp \/ List.length (store st) <= l')
  /\ (forall l', l' < List.length (store st) -> l' <> l -> ~ In l' fp ->
        nth_error (store st') l' = nth_error (store st) l')
  /\ List.length (store st) <= List.length (store st').

Definition merge_key_ok (sv : json) : Prop :=
  forall st l T fp k st',
    holds st l T fp ->
    merge_key (VObj l) k sv st = (Normal tt, st') ->
    merge_post st l fp (jset T k (merged_value (jlookup T k) sv)) st'.

Definition deepMerge_ok (S : list (string * json)) : Prop :=
  forall st l T fp st',
    holds st l T fp ->
    deepMerge (VObj l) S st = (Normal tt, st') ->
    merge_post st l fp (merged T S) st'.

(** *** Vocabulary of the accessors and of saving *)

(** The state after [section.key = v] when the section had to be
    created: a fresh object holds the key, and the configuration object
    [oc] at [lc] points to it. *)
Definition created (st : state) (lc : loc) (oc : object)
    (section key : string) (v : value) : state :=
  set_store st
    (update_nth (List.length (store st)) [(key, v)]
       (update_nth lc (set_prop oc section (VObj (List.length (store st))))
          (store st ++ [[]])%list)).

(** The keys of an object are pairwise distinct. *)
Definition distinct_keys (o : object) : Prop := NoDup (map fst o).

(** The object of the section after the two deletions. *)
Definition stripped (os : object) : object :=
  delete_prop (delete_prop os "tokens") "credentials".

(** The state in which [saveConfigToFile] serialises: the copy of the
    configuration object [oc] is allocated, and the object of the
    security section, [os] at [ls], has lost the two keys. *)
Definition saving (st : state) (oc : object) (ls : loc) (os : object)
    : state :=
  set_store st
    (update_nth ls (stripped os)
       (update_nth ls (delete_prop os "tokens") (store st ++ [oc])%list)).

(** The properties of an object, serialised in order: the inner loop of
    [serialize]. *)
Definition serialize_props (fuel : nat) (h : heap) (path : list loc)
    : object -> completion (list (string * json)) :=
  fix props (o : object) : completion (list (string * json)) :=
    match o with
    | [] => Normal []
    | (k, x) :: o' =>
        match serialize fuel h path x with
        | Normal None => props o'
        | Normal (Some j) =>
            match props o' with
            | Normal fs => Normal ((k, j) :: fs)
            | r => r
            end
        | Abrupt e => Abrupt e
        | Beyond => Beyond
        end
    end.

(** Every validated setting passes its test: the model and the name of
    the token variable are truthy, and no numeric setting compares below
    or above its bound (which holds of NaN as well). *)
Definition settings_valid (st : state) : Prop :=
  (exists v, current st "ai" "model" = Normal v /\ truthy v = true)
  /\ (exists t, holds_number st "ai" "temperature" t
                /\ ltb t (of_Z 0) = false /\ gtb t (of_Z 1) = false)
  /\ (exists m, holds_number st "ai" "maxTokens" m
                /\ ltb m (of_Z 100) = false /\ gtb m (of_Z 10000) = false)
  /\ (exists c, holds_number st "batch" "maxConcurrent" c
                /\ ltb c (of_Z 1) = false)
  /\ (exists b, holds_number st "batch" "maxIssuesPerBatch" b
                /\ ltb b (of_Z 1) = false)
  /\ (exists v, current st "security" "tokenEnvName" = Normal v
                /\ truthy v = true).

End Configuration.

(** ** The entry point (index.js) *)

Module Resolver.
Import TriggerDetection.

(** What [getMcpInfo] returns. *)
Record McpInfo := {
  name : string;
  version : string;
  description : string;
  initialized : bool;
  capabilities : list string
}.

(** The stages of the single-issue pipeline. *)
Inductive stage :=
| Fetch
| TaskSetup
| CodeGeneration
| CommitAndPR
| Feedback.

Section Collaborators.
(** The outside world the collaborator modules act on, the values they
    throw, and the records they return (section 6 of the
    specification gives their shapes). *)
Variables (World Thrown Message : Type).
Variables (IssueData TaskConfig FileChange CodeChanges PrResult
           Ack Visualization Url Branch : Type).

Variable message : Thrown -> Message.             (* [error.message] *)
Variable number : IssueData -> JSNum.num.
Variable codeChanges : CodeChanges -> list FileChange.
Variable pullRequestUrl : PrResult -> Url.
Variable pullRequestNumber : PrResult -> JSNum.num.
Variable branch : PrResult -> Branch.

(** A collaborator call either returns or throws, and changes the
    world. *)
Definition effect (A : Type) := World -> (A + Thrown) * World.

Variable fetchIssueData : option text -> effect IssueData.
Variable setupTask : IssueData -> effect TaskConfig.
Variable generateAndValidateCode : TaskConfig -> effect CodeChanges.
Variable createPullRequest : CodeChanges -> IssueData -> effect PrResult.
Variable provideFeedback : PrResult -> IssueData -> effect Ack.
Variable createVisualization :
  PrResult -> IssueData -> CodeChanges -> effect Visualization.
Variable configInitialize : effect bool.
Variable githubInitialize : effect unit.

(** A collaborator call, as recorded in the trace. *)
Inductive call :=
| CallFetchIssueData (issueUrl : option text)
| CallSetupTask (i : IssueData)
| CallGenerateAndValidateCode (t : TaskConfig)
| CallCreatePullRequest (c : CodeChanges) (i : IssueData)
| CallProvideFeedback (p : PrResult) (i : IssueData)
| CallCreateVisualization (p : PrResult) (i : IssueData) (c : CodeChanges).

Definition stage_of (c : call) : stage :=
  match c with
  | CallFetchIssueData _ => Fetch
  | CallSetupTask _ => TaskSetup
  | CallGenerateAndValidateCode _ => CodeGeneration
  | CallCreatePullRequest _ _ => CommitAndPR
  | CallProvideFeedback _ _ | CallCreateVisualization _ _ _ => Feedback
  end.

(** The process: the world, the flag [isInitialized], and the calls
    made so far, oldest first. *)
Record process := Process {
  world : World;
  isInitialized : bool;
  trace : list call
}.

Definition R (A : Type) := process -> (A + Thrown) * process.

Definition ret {A} (a : A) : R A := fun p => (inl a, p).

Definition bind {A B} (m : R A) (f : A -> R B) : R B :=
  fun p =>
    match m p with
    | (inl a, p') => f a p'
    | (inr e, p') => (inr e, p')
    end.

Notation "x <- m ;; k" := (bind m (fun x => k))
  (at level 61, m at next level, right associativity).

(** Invoking a collaborator: the call is recorded, then it acts on the
    world. *)
Definition invoke {A} (c : call) (f : effect A) : R A :=
  fun p =>
    let (r, w) := f (world p) in
    (r, Process w (isInitialized p) (trace p ++ [c])).

(** A collaborator call outside the pipeline (initialisation). *)
Definition perform {A} (f : effect A) : R A :=
  fun p =>
    let (r, w) := f (world p) in
    (r, Process w (isInitialized p) (trace p)).

Definition set_initialized : R unit :=
  fun p => (inl tt, Process (world p) true (trace p)).

Record ResolutionResult := Result {
  success : bool;
  res_issueUrl : option text;
  res_issueNumber : option JSNum.num;
  res_pullRequestUrl : option Url;
  res_pullRequestNumber : option JSNum.num;
  res_branch : option Branch;
  changedFiles : option nat;
  visualization : option Visualization;
  error : option Message
}.

(** The [try] block of [resolveIssue]. *)
Definition pipeline (issueUrl : option text) : R ResolutionResult :=
  issueData <- invoke (CallFetchIssueData issueUrl)
                 (fetchIssueData issueUrl) ;;
  taskConfig <- invoke (CallSetupTask issueData) (setupTask issueData) ;;
  changes <- invoke (CallGenerateAndValidateCode taskConfig)
               (generateAndValidateCode taskConfig) ;;
  prResult <- invoke (CallCreatePullRequest changes issueData)
                (createPullRequest changes issueData) ;;
  _ <- invoke (CallProvideFeedback prResult issueData)
         (provideFeedback prResult issueData) ;;
  viz <- invoke (CallCreateVisualization prResult issueData changes)
           (createVisualization prResult issueData changes) ;;
  ret {| success := true;
         res_issueUrl := issueUrl;
         res_issueNumber := Some (number issueData);
         res_pullRequestUrl := Some (pullRequestUrl prResult);
         res_pullRequestNumber := Some (pullRequestNumber prResult);
         res_branch := Some (branch prResult);
         changedFiles := Some (List.length (codeChanges changes));
         visualization := Some viz;
         error := None |}.

Definition failure (issueUrl : option text) (e : Thrown)
    : ResolutionResult :=
  {| success := false;
     res_issueUrl := issueUrl;
     res_issueNumber := None;
     res_pullRequestUrl := None;
     res_pullRequestNumber := None;
     res_branch := None;
     changedFiles := None;
     visualization := None;
     error := Some (message e) |}.

(** [resolveIssue], on the [issueUrl] property of its argument: the
    [catch] clause turns any throw into a failure result. *)
Definition resolve (issueUrl : option text) : R ResolutionResult :=
  fun p =>
    match pipeline issueUrl p with
    | (inl r, p') => (inl r, p')
    | (inr e, p') => (inl (failure issueUrl e), p')
    end.

(** The stages of the six collaborator calls of a complete run. *)
Definition stage_order : list stage :=
  [Fetch; TaskSetup; CodeGeneration; CommitAndPR; Feedback; Feedback].

Definition thrown {A} (r : A + Thrown) : option Thrown :=
  match r with
  | inl _ => None
  | inr e => Some e
  end.

(** What a recorded call does: the value it throws, if any, and the
    world it leaves. *)
Definition replay (c : call) (w : World) : option Thrown * World :=
  match c with
  | CallFetchIssueData u =>
      let (r, w') := fetchIssueData u w in (thrown r, w')
  | CallSetupTask i =>
      let (r, w') := setupTask i w in (thrown r, w')
  | CallGenerateAndValidateCode t =>
      let (r, w') := generateAndValidateCode t w in (thrown r, w')
  | CallCreatePullRequest c i =>
      let (r, w') := createPullRequest c i w in (thrown r, w')
  | CallProvideFeedback pr i =>
      let (r, w') := provideFeedback pr i w in (thrown r, w')
  | CallCreateVisualization pr i c =>
      let (r, w') := createVisualization pr i c w in (thrown r, w')
  end.

(** Every call of [cs] returns normally, taking the world from [w] to
    [w']. *)
Fixpoint all_return (cs : list call) (w w' : World) : Prop :=
  match cs with
  | [] => w' = w
  | c :: cs' =>
      exists w1, replay c w = (None, w1) /\ all_return cs' w1 w'
  end.

(** [triggerData.issueUrl] *)
Definition trigger_issueUrl (t : trigger) : option text :=
  match t with
  | Single i => Some (issueUrl i)
  | Batch _ | RepoWide _ _ => None
  end.

Definition resolveIssue (triggerData : trigger) : R ResolutionResult :=
  resolve (trigger_issueUrl triggerData).

(** [batchModule.processBatch], which is given the issue list and
    [resolveIssue]. *)
Variable processBatch :
  list issue -> (issue -> R ResolutionResult) -> R (list ResolutionResult).

Definition resolveBatch (issueList : list issue)
    : R (list ResolutionResult) :=
  processBatch issueList (fun i => resolve (Some (issueUrl i))).

(** [initialize] of index.js. *)
Definition initialize : R bool :=
  fun p =>
    if isInitialized p then (inl true, p)
    else
      match (_ <- perform configInitialize ;;
             _ <- perform githubInitialize ;;
             _ <- set_initialized ;;
             ret true) p with
      | (inl b, p') => (inl b, p')
      | (inr _, p') => (inl false, p')
      end.

(** The envelope [handleMcpInvocation] returns. *)
Inductive response :=
| InitFailed               (* 'Failed to initialize OpenHands Resolver MCP' *)
| NothingDetected          (* 'No valid GitHub issue detected in the input' *)
| InvalidTrigger           (* 'Invalid trigger data, missing required information' *)
| BatchResults (results : list ResolutionResult)
| IssueResult (r : ResolutionResult)
| Failed (m : Message).    (* 'Error: ' followed by the message *)

Definition handle_body (i : input) : R response :=
  fun p =>
    let continue : R response :=
      match detectTrigger i with
      | None => ret NothingDetected
      | Some triggerData =>
          if negb (validateTrigger (Some triggerData)) then
            ret InvalidTrigger
          else
            match triggerData with
            | Batch (_ :: _ as issueList) =>
                results <- resolveBatch issueList ;;
                ret (BatchResults results)
            | _ =>
                r <- resolveIssue triggerData ;;
                ret (IssueResult r)
            end
      end in
    if isInitialized p then continue p
    else
      (initSuccess <- initialize ;;
       if initSuccess : bool then continue else ret InitFailed) p.

Definition handleMcpInvocation (i : input) : process -> response * process :=
  fun p =>
    match handle_body i p with
    | (inl r, p') => (r, p')
    | (inr e, p') => (Failed (message e), p')
    end.

Definition getMcpInfo (p : process) : McpInfo :=
  {| name := "OpenHands Resolver MCP";
     version := "0.1.0";
     description := "AI-driven GitHub issue resolution system";
     initialized := isInitialized p;
     capabilities := ["GitHub issue resolution";
                      "Code generation and validation";
                      "Pull request creation";
                      "Batch processing"]%string |}.

End Collaborators.

Arguments CallFetchIssueData {IssueData TaskConfig CodeChanges PrResult}
  issueUrl.
Arguments CallSetupTask {IssueData TaskConfig CodeChanges PrResult} i.
Arguments CallGenerateAndValidateCode
  {IssueData TaskConfig CodeChanges PrResult} t.
Arguments CallCreatePullRequest {IssueData TaskConfig CodeChanges PrResult}
  c i.
Arguments CallProvideFeedback {IssueData TaskConfig CodeChanges PrResult}
  p i.
Arguments CallCreateVisualization
  {IssueData TaskConfig CodeChanges PrResult} p i c.
Arguments stage_of {IssueData TaskConfig CodeChanges PrResult} c.
Arguments failure {Thrown Message Visualization Url Branch} message
  issueUrl e.
Arguments InitFailed {Message Visualization Url Branch}.
Arguments NothingDetected {Message Visualization Url Branch}.
Arguments InvalidTrigger {Message Visualization Url Branch}.

End Resolver.

(** ** The batch scheduler (modules/batch_processing) *)

Module BatchProcessing.

Section Scheduler.
Variables (Issue Result : Type).

(** The per-issue execution function.  [resolveIssue] never rejects: a
    failed pipeline is a result whose [success] is false. *)
Variable exec : Issue -> Result.

(** Issues waiting, issues whose pipeline is in flight (each with its
    index in the input), and the output sequence, pre-sized, a slot
    being filled when its issue completes. *)
Record pool := Pool {
  queue : list (nat * Issue);
  active : list (nat * Issue);
  results : list (option Result)
}.

(** The pool pulls queued issues while a slot is free. *)
Fixpoint fill (maxConcurrent : nat) (q a : list (nat * Issue))
    : list (nat * Issue) * list (nat * Issue) :=
  match q with
  | [] => (q, a)
  | x :: q' =>
      if List.length a <? maxConcurrent
      then fill maxConcurrent q' (a ++ [x])
      else (q, a)
  end.

(** Removes the [j]-th in-flight issue. *)
Fixpoint take {A : Type} (j : nat) (l : list A) : option (A * list A) :=
  match l, j with
  | [], _ => None
  | x :: l', O => Some (x, l')
  | x :: l', S j' =>
      match take j' l' with
      | Some (y, r) => Some (y, x :: r)
      | None => None
      end
  end.

(** One scheduling round: fill, then the in-flight pipeline chosen by
    [pick] completes and its result goes to its own slot. *)
Definition round (maxConcurrent pick : nat) (p : pool) : pool :=
  let (q, a) := fill maxConcurrent (queue p) (active p) in
  match take (pick mod (List.length a)) a with
  | Some ((i, x), a') =>
      Pool q a' (JS.update_nth i (Some (exec x)) (results p))
  | None => Pool q a (results p)
  end.

Fixpoint rounds (n maxConcurrent : nat) (order : nat -> nat) (p : pool)
    : pool :=
  match n with
  | O => p
  | S n' =>
      rounds n' maxConcurrent (fun t => order (S t))
        (round maxConcurrent (order 0) p)
  end.

Fixpoint number_from {A : Type} (i : nat) (l : list A) : list (nat * A) :=
  match l with
  | [] => []
  | x :: l' => (i, x) :: number_from (S i) l'
  end.

(** Modelled from the spec: [processBatch] of modules/batch_processing,
    which the sources do not include.  Section 4.4: at most
    [maxConcurrent] pipelines in flight, the pool pulling the next
    queued issue as a slot frees; section 9: results are indexed into a
    pre-sized output sequence.  [order] is the completion order, the
    choice at each round of which in-flight pipeline finishes first. *)
Definition processBatch (maxConcurrent : nat) (order : nat -> nat)
    (issueList : list Issue) : list (option Result) :=
  results
    (rounds (List.length issueList) maxConcurrent order
       (Pool (number_from 0 issueList) []
             (repeat None (List.length issueList)))).

(** The state of a run over [issueList]: every entry that waits or is
    in flight is an issue at its own index, and every issue either
    still waits, is in flight, or has its result in its slot. *)
Definition consistent (issueList : list Issue) (p : pool)
    : Prop :=
  List.length (results p) = List.length issueList
  /\ (forall i x, In (i, x) (queue p ++ active p) ->
        nth_error issueList i = Some x)
  /\ (forall i x, nth_error issueList i = Some x ->
        In (i, x) (queue p ++ active p)
        \/ nth_error (results p) i = Some (Some (exec x))).

Definition pending (p : pool) : nat :=
  List.length (queue p ++ active p).

End Scheduler.
End BatchProcessing.

(** * Properties *)

(** ** The matcher finds a match exactly when one exists *)

Module RegexFacts.
Import Regex.

Lemma extend_some taken cap r h :
  extend taken cap r = Some h ->
  exists m cs rest,
    r = Some (m, cs, rest)
    /\ h = (taken ++ m, (if cap then taken :: cs else cs), rest).
Proof.
  destruct r as [[[m cs] rest]|]; simpl; intros H; inversion H.
  exists m, cs, rest; auto.
Qed.

Lemma extend_none taken cap r :
  extend taken cap r = None <-> r = None.
Proof.
  destruct r as [[[m cs] rest]|]; simpl; split; congruence.
Qed.

(** What a successful greedy repetition consumed. *)
Lemma greedy_sound {R} p (k : text -> text -> option R) s :
  forall taken enough r,
    greedy p k taken s enough = Some r ->
    exists more rest,
      s = more ++ rest
      /\ forallb p more = true
      /\ (enough = false -> more <> [])
      /\ k (taken ++ more) rest = Some r.
Proof.
  induction s as [|c s IH]; intros taken enough r; simpl.
  - destruct enough; [|discriminate]. intros H.
    exists [], []. rewrite (app_nil_r taken).
    split; [reflexivity|]. split; [reflexivity|].
    split; [discriminate | exact H].
  - assert (Hstop :
      (if enough then k taken (c :: s) else None) = Some r ->
      exists more rest, c :: s = more ++ rest /\ forallb p more = true
        /\ (enough = false -> more <> []) /\ k (taken ++ more) rest = Some r).
    { destruct enough; [|discriminate]. intros H.
      exists [], (c :: s). rewrite (app_nil_r taken).
      split; [reflexivity|]. split; [reflexivity|].
      split; [discriminate | exact H]. }
    destruct (p c) eqn:Hp; [|exact Hstop].
    destruct (greedy p k (taken ++ [c]) s true) as [r'|] eqn:Hg;
      [|exact Hstop].
    intros H; inversion H; subst r'.
    apply IH in Hg. destruct Hg as (more & rest & -> & Hall & _ & Hk).
    exists (c :: more), rest. simpl. rewrite Hp, Hall.
    rewrite <- app_assoc in Hk.
    split; [reflexivity|]. split; [reflexivity|].
    split; [discriminate | exact Hk].
Qed.

(** Backtracking is exhaustive: if any admissible split lets the
    continuation succeed, the repetition succeeds. *)
Lemma greedy_finds {R} p (k : text -> text -> option R) more :
  forall taken rest enough,
    forallb p more = true ->
    (enough = true \/ more <> []) ->
    k (taken ++ more) rest <> None ->
    greedy p k taken (more ++ rest) enough <> None.
Proof.
  induction more as [|c more IH]; intros taken rest enough Hall Hen Hk.
  - destruct Hen as [->|Hne]; [|congruence].
    rewrite app_nil_r in Hk. simpl.
    destruct rest as [|c s]; simpl; auto.
    destruct (p c); auto.
    destruct (greedy p k (taken ++ [c]) s true); auto. discriminate.
  - simpl in Hall. apply andb_true_iff in Hall. destruct Hall as [Hc Hall].
    simpl. rewrite Hc.
    specialize (IH (taken ++ [c]) rest true Hall (or_introl eq_refl)).
    rewrite <- app_assoc in IH. specialize (IH Hk).
    destruct (greedy p k (taken ++ [c]) (more ++ rest) true);
      [discriminate | congruence].
Qed.

(** Greedy means longest first: when the class stops after [more] and
    the continuation accepts that split, it is the one returned. *)
Lemma greedy_longest {R} p (k : text -> text -> option R) more :
  forall taken rest enough r,
    forallb p more = true ->
    match rest with c :: _ => p c = false | [] => True end ->
    (enough = true \/ more <> []) ->
    k (taken ++ more) rest = Some r ->
    greedy p k taken (more ++ rest) enough = Some r.
Proof.
  induction more as [|c more IH]; intros taken rest enough r Hall Hstop Hen Hk.
  - destruct Hen as [->|Hne]; [|congruence].
    rewrite app_nil_r in Hk. simpl.
    destruct rest as [|c s]; simpl; auto.
    rewrite Hstop. exact Hk.
  - simpl in Hall. apply andb_true_iff in Hall. destruct Hall as [Hc Hall].
    simpl. rewrite Hc.
    rewrite (IH (taken ++ [c]) rest true r); auto.
    rewrite <- app_assoc. exact Hk.
Qed.

Theorem run_sound icase ps :
  forall s m cs rest,
    run icase ps s = Some (m, cs, rest) ->
    s = m ++ rest /\ matches icase ps m cs.
Proof.
  induction ps as [|pc ps IH]; intros s m cs rest H.
  - simpl in H. inversion H; subst. split; [reflexivity | constructor].
  - destruct pc as [a | a | cap a | cap a]; simpl in H.
    + destruct s as [|c s]; [discriminate|].
      destruct (atom_match icase a c) eqn:Ha; [|discriminate].
      apply extend_some in H.
      destruct H as (m' & cs' & rest' & Hr & Heq). inversion Heq; subst.
      apply IH in Hr. destruct Hr as [-> Hm].
      split; [reflexivity | now constructor].
    + assert (Hskip : run icase ps s = Some (m, cs, rest) ->
                      s = m ++ rest /\ matches icase (Opt a :: ps) m cs).
      { intros Hr. apply IH in Hr. destruct Hr as [-> Hm].
        split; [reflexivity | now apply matches_opt_skip]. }
      destruct s as [|c s]; [auto|].
      destruct (atom_match icase a c) eqn:Ha; [|auto].
      destruct (extend [c] false (run icase ps s)) as [h|] eqn:He; [|auto].
      inversion H; subst h. apply extend_some in He.
      destruct He as (m' & cs' & rest' & Hr & Heq). inversion Heq; subst.
      apply IH in Hr. destruct Hr as [-> Hm].
      split; [reflexivity | now apply matches_opt_take].
    + apply greedy_sound in H.
      destruct H as (more & rest' & -> & Hall & Hne & Hk).
      apply extend_some in Hk.
      destruct Hk as (m' & cs' & rest'' & Hr & Heq). inversion Heq; subst.
      apply IH in Hr. destruct Hr as [-> Hm]. simpl.
      split; [now rewrite app_assoc | constructor; auto].
    + apply greedy_sound in H.
      destruct H as (more & rest' & -> & Hall & _ & Hk).
      apply extend_some in Hk.
      destruct Hk as (m' & cs' & rest'' & Hr & Heq). inversion Heq; subst.
      apply IH in Hr. destruct Hr as [-> Hm]. simpl.
      split; [now rewrite app_assoc | constructor; auto].
Qed.

Theorem run_complete icase ps m cs :
  matches icase ps m cs ->
  forall rest, run icase ps (m ++ rest) <> None.
Proof.
  induction 1 as [ | a c ps m cs Ha _ IH | a c ps m cs Ha _ IH
                   | a ps m cs _ IH | cap a taken ps m cs Hne Hall _ IH
                   | cap a taken ps m cs Hall _ IH ]; intros rest; simpl.
  - discriminate.
  - rewrite Ha. rewrite extend_none. apply IH.
  - rewrite Ha.
    destruct (extend [c] false (run icase ps (m ++ rest))) eqn:He;
      [discriminate|].
    apply extend_none in He. now apply IH in He.
  - assert (Hs := IH rest).
    destruct (m ++ rest) as [|c s]; auto.
    destruct (atom_match icase a c); auto.
    destruct (extend [c] false (run icase ps s)); [discriminate | auto].
  - rewrite <- app_assoc. apply greedy_finds; auto.
    simpl. rewrite extend_none. apply IH.
  - rewrite <- app_assoc. apply greedy_finds; auto.
    simpl. rewrite extend_none. apply IH.
Qed.

Corollary run_some_iff icase ps s :
  run icase ps s <> None <-> matches_at icase ps s.
Proof.
  split.
  - destruct (run icase ps s) as [[[m cs] rest]|] eqn:H; [|congruence].
    intros _. apply run_sound in H. destruct H as [-> Hm].
    now exists m, cs, rest.
  - intros (m & cs & rest & -> & Hm). now apply run_complete with (cs := cs).
Qed.

(** [search] returns the leftmost position at which a match exists. *)
Lemma search_sound icase ps s :
  forall pre f,
    search icase ps pre s = Some f ->
    exists skipped,
      before f = pre ++ skipped
      /\ s = skipped ++ matched f ++ after f
      /\ run icase ps (matched f ++ after f)
         = Some (matched f, groups f, after f)
      /\ forall p1 p2, skipped = p1 ++ p2 -> p2 <> [] ->
           run icase ps (p2 ++ matched f ++ after f) = None.
Proof.
  induction s as [|c s IH]; intros pre f; simpl.
  - destruct (run icase ps []) as [[[m cs] rest]|] eqn:Hr; [|discriminate].
    intros H; inversion H; subst f; simpl.
    exists []. rewrite app_nil_r.
    destruct (run_sound _ _ _ Hr) as [Heq _].
    repeat split; auto.
    + now rewrite <- Heq.
    + intros p1 p2 Hp Hne. destruct p1; destruct p2; simpl in Hp; congruence.
  - destruct (run icase ps (c :: s)) as [[[m cs] rest]|] eqn:Hr.
    + intros H; inversion H; subst f; simpl.
      exists []. rewrite app_nil_r.
      destruct (run_sound _ _ _ Hr) as [Heq _].
      repeat split; auto.
      * now rewrite <- Heq.
      * intros p1 p2 Hp Hne.
        destruct p1; destruct p2; simpl in Hp; congruence.
    + intros H. apply IH in H.
      destruct H as (skipped & Hb & Hs & Hrun & Hleft).
      exists (c :: skipped). rewrite Hb, <- app_assoc. simpl.
      repeat split; auto.
      * now rewrite Hs at 1.
      * intros p1 p2 Hp Hne.
        destruct p1 as [|c' p1]; simpl in Hp.
        -- subst p2. simpl. now rewrite <- Hs.
        -- inversion Hp; subst. now apply Hleft with (p1 := p1).
Qed.

Lemma search_none icase ps s :
  forall pre,
    search icase ps pre s = None <->
    (forall p q, s = p ++ q -> run icase ps q = None).
Proof.
  induction s as [|c s IH]; intros pre; simpl.
  - destruct (run icase ps []) as [[[m cs] rest]|] eqn:Hr.
    + split; [discriminate|]. intros H.
      now rewrite (H [] [] eq_refl) in Hr.
    + split; auto. intros _ p q Hp.
      destruct p; destruct q; simpl in Hp; congruence.
  - destruct (run icase ps (c :: s)) as [[[m cs] rest]|] eqn:Hr.
    + split; [discriminate|]. intros H.
      now rewrite (H [] (c :: s) eq_refl) in Hr.
    + rewrite IH. split.
      * intros H p q Hp. destruct p as [|c' p]; simpl in Hp.
        -- now subst q.
        -- inversion Hp; subst. now apply H with (p := p).
      * intros H p q Hp. apply H with (p := c :: p). now subst s.
Qed.

Corollary search_none_iff icase ps s pre :
  search icase ps pre s = None <-> ~ occurs icase ps s.
Proof.
  rewrite search_none. split.
  - intros H (p & q & Hs & Hat). apply run_some_iff in Hat.
    apply Hat. now apply H with (p := p).
  - intros H p q Hs.
    destruct (run icase ps q) eqn:Hr; [|reflexivity].
    exfalso. apply H. exists p, q. split; [exact Hs|].
    apply run_some_iff. congruence.
Qed.

Lemma matchAll_nil_iff icase ps s :
  matchAll icase ps s = [] <-> search icase ps [] s = None.
Proof.
  unfold matchAll. simpl.
  destruct (search icase ps [] s); split; congruence.
Qed.

Lemma matchAll_head icase ps s f :
  search icase ps [] s = Some f ->
  exists tl, matchAll icase ps s = (matched f, groups f) :: tl.
Proof.
  unfold matchAll. simpl. intros ->. eexists; reflexivity.
Qed.

End RegexFacts.

(** ** Trigger detection *)

Module TriggerFacts.
Import Regex RegexFacts TriggerDetection.

Lemma matches_nil_inv icase m cs :
  matches icase [] m cs -> m = [] /\ cs = [].
Proof. intros H; inversion H; auto. Qed.

Lemma matches_one_inv icase a ps m cs :
  matches icase (One a :: ps) m cs ->
  exists c m', m = c :: m' /\ atom_match icase a c = true
               /\ matches icase ps m' cs.
Proof. intros H; inversion H; subst. do 2 eexists; eauto. Qed.

Lemma matches_opt_inv icase a ps m cs :
  matches icase (Opt a :: ps) m cs ->
  (exists c m', m = c :: m' /\ atom_match icase a c = true
                /\ matches icase ps m' cs)
  \/ matches icase ps m cs.
Proof.
  intros H; inversion H; subst;
    [left; do 2 eexists; eauto | right; assumption].
Qed.

Lemma matches_plus_inv icase cap a ps m cs :
  matches icase (Plus cap a :: ps) m cs ->
  exists taken m' cs',
    m = taken ++ m' /\ cs = (if cap then taken :: cs' else cs')
    /\ taken <> [] /\ forallb (atom_match icase a) taken = true
    /\ matches icase ps m' cs'.
Proof. intros H; inversion H; subst. do 3 eexists; eauto. Qed.

Lemma matches_star_inv icase cap a ps m cs :
  matches icase (Star cap a :: ps) m cs ->
  exists taken m' cs',
    m = taken ++ m' /\ cs = (if cap then taken :: cs' else cs')
    /\ forallb (atom_match icase a) taken = true
    /\ matches icase ps m' cs'.
Proof. intros H; inversion H; subst. do 3 eexists; eauto. Qed.

Lemma lit_lits s : lit s = lits (str s).
Proof. reflexivity. Qed.

Lemma ascii_eqb_true a b : Ascii.eqb a b = true <-> a = b.
Proof. apply Ascii.eqb_eq. Qed.

(** Literal code units, case-sensitively, match themselves only. *)
Lemma matches_lits_inv l : forall ps m cs,
  matches false (lits l ++ ps) m cs ->
  exists m', m = l ++ m' /\ matches false ps m' cs.
Proof.
  induction l as [|c l IH]; intros ps m cs H; simpl in H.
  - now exists m.
  - apply matches_one_inv in H. destruct H as (c' & m1 & -> & Ha & Hm).
    simpl in Ha. apply ascii_eqb_true in Ha. subst c'.
    apply IH in Hm. destruct Hm as (m' & -> & Hm).
    now exists m'.
Qed.

Lemma matches_lits l : forall ps m cs,
  matches false ps m cs -> matches false (lits l ++ ps) (l ++ m) cs.
Proof.
  induction l as [|c l IH]; intros ps m cs H; simpl; auto.
  constructor; auto. simpl. apply Ascii.eqb_refl.
Qed.

(** Under either case flag, literals consume a prefix. *)
Lemma matches_lits_skip icase l : forall ps m cs,
  matches icase (lits l ++ ps) m cs ->
  exists m1 m', m = m1 ++ m' /\ matches icase ps m' cs.
Proof.
  induction l as [|c l IH]; intros ps m cs H; simpl in H.
  - now exists [], m.
  - apply matches_one_inv in H. destruct H as (c' & m0 & -> & _ & Hm).
    apply IH in Hm. destruct Hm as (m1 & m' & -> & Hm).
    now exists (c' :: m1), m'.
Qed.

Lemma run_lits l : forall ps s,
  run false (lits l ++ ps) (l ++ s) = extend l false (run false ps s).
Proof.
  induction l as [|c l IH]; intros ps s; simpl.
  - destruct (run false ps s) as [[[m cs] r]|]; reflexivity.
  - rewrite Ascii.eqb_refl, IH.
    destruct (run false ps s) as [[[m cs] r]|]; reflexivity.
Qed.

Lemma run_plus_longest icase cap a ps more rest m cs rest' :
  more <> [] ->
  forallb (atom_match icase a) more = true ->
  match rest with c :: _ => atom_match icase a c = false | [] => True end ->
  run icase ps rest = Some (m, cs, rest') ->
  run icase (Plus cap a :: ps) (more ++ rest)
  = Some (more ++ m, (if cap then more :: cs else cs), rest').
Proof.
  intros Hne Hall Hstop Hr. simpl.
  apply greedy_longest; auto. simpl. now rewrite Hr.
Qed.

Lemma run_group_longest icase a ps more rest m cs rest' :
  more <> [] ->
  forallb (atom_match icase a) more = true ->
  match rest with c :: _ => atom_match icase a c = false | [] => True end ->
  run icase ps rest = Some (m, cs, rest') ->
  run icase (Plus true a :: ps) (more ++ rest)
  = Some (more ++ m, more :: cs, rest').
Proof. apply run_plus_longest. Qed.

Lemma run_opt_take icase a ps c s m cs rest :
  atom_match icase a c = true ->
  run icase ps s = Some (m, cs, rest) ->
  run icase (Opt a :: ps) (c :: s) = Some (c :: m, cs, rest).
Proof. intros Ha Hr. simpl. now rewrite Ha, Hr. Qed.

Lemma run_opt_skip icase a ps s :
  match s with c :: _ => atom_match icase a c = false | [] => True end ->
  run icase (Opt a :: ps) s = run icase ps s.
Proof. intros H. destruct s as [|c s]; simpl; auto. now rewrite H. Qed.

(** *** The issue-URL pattern *)

Lemma urlRegex_eq :
  urlRegex = lits (str "http") ++ Opt (Chr "s") :: url_tail.
Proof. reflexivity. Qed.

Lemma url_tail_inv m cs :
  matches false url_tail m cs ->
  exists o r d,
    m = str "://github.com/" ++ o ++ str "/" ++ r ++ str "/issues/" ++ d
    /\ cs = [o; r; d]
    /\ o <> [] /\ forallb not_slash o = true
    /\ r <> [] /\ forallb not_slash r = true
    /\ d <> [] /\ forallb is_digit d = true.
Proof.
  intros H.
  apply (matches_lits_inv (str "://github.com/")) in H.
  destruct H as (m3 & -> & H).
  apply matches_plus_inv in H.
  destruct H as (o & m4 & cs4 & -> & -> & Ho & Hao & H).
  apply (matches_lits_inv (str "/")) in H. destruct H as (m5 & -> & H).
  apply matches_plus_inv in H.
  destruct H as (r & m6 & cs6 & -> & -> & Hr & Har & H).
  apply (matches_lits_inv (str "/issues/")) in H.
  destruct H as (m7 & -> & H).
  apply matches_plus_inv in H.
  destruct H as (d & m8 & cs8 & -> & -> & Hd & Had & H).
  apply matches_nil_inv in H. destruct H as [-> ->].
  exists o, r, d. rewrite app_nil_r. repeat split; auto.
Qed.

Lemma url_matches_inv m cs :
  matches false urlRegex m cs ->
  exists o r d, issue_url m o r d /\ cs = [o; r; d].
Proof.
  rewrite urlRegex_eq. intros H.
  apply matches_lits_inv in H. destruct H as (m1 & -> & H).
  apply matches_opt_inv in H. destruct H as [(c & m2 & -> & Hc & H) | H].
  - cbn [atom_match] in Hc. apply ascii_eqb_true in Hc. subst c.
    apply url_tail_inv in H.
    destruct H as (o & r & d & -> & -> & Ho & Hao & Hr & Har & Hd & Had).
    exists o, r, d. split; [|reflexivity].
    now apply (issue_url_intro true).
  - apply url_tail_inv in H.
    destruct H as (o & r & d & -> & -> & Ho & Hao & Hr & Har & Hd & Had).
    exists o, r, d. split; [|reflexivity].
    now apply (issue_url_intro false).
Qed.

Lemma url_tail_matches o r d :
  o <> [] -> forallb not_slash o = true ->
  r <> [] -> forallb not_slash r = true ->
  d <> [] -> forallb is_digit d = true ->
  matches false url_tail
    (str "://github.com/" ++ o ++ str "/" ++ r ++ str "/issues/" ++ d)
    [o; r; d].
Proof.
  intros Ho Hao Hr Har Hd Had.
  apply (matches_lits (str "://github.com/")).
  apply (@matches_plus false true (Cls not_slash)); auto.
  apply (matches_lits (str "/")).
  apply (@matches_plus false true (Cls not_slash)); auto.
  apply (matches_lits (str "/issues/")).
  rewrite <- (app_nil_r d) at 1.
  apply (@matches_plus false true (Cls is_digit)); auto. constructor.
Qed.

Lemma url_matches u o r d :
  issue_url u o r d -> matches false urlRegex u [o; r; d].
Proof.
  intros H. destruct H as [secure o r d Ho Hao Hr Har Hd Had].
  rewrite urlRegex_eq. apply matches_lits.
  destruct secure.
  - apply (@matches_opt_take false (Chr "s") "s"%char); auto.
    now apply url_tail_matches.
  - apply matches_opt_skip. now apply url_tail_matches.
Qed.

Lemma url_tail_run o r d post :
  o <> [] -> forallb not_slash o = true ->
  r <> [] -> forallb not_slash r = true ->
  d <> [] -> forallb is_digit d = true ->
  match post with c :: _ => is_digit c = false | [] => True end ->
  run false url_tail
    (str "://github.com/" ++ o ++ str "/" ++ r ++ str "/issues/" ++ d ++ post)
  = Some (str "://github.com/" ++ o ++ str "/" ++ r ++ str "/issues/" ++ d,
          [o; r; d], post).
Proof.
  intros Ho Hao Hr Har Hd Had Hpost.
  assert (E3 : run false [Plus true (Cls is_digit)] (d ++ post)
               = Some (d ++ [], [d], post)).
  { apply run_group_longest; auto. }
  assert (E2 : run false (lits (str "/issues/") ++ [Plus true (Cls is_digit)])
                 (str "/issues/" ++ d ++ post)
               = Some (str "/issues/" ++ d ++ [], [d], post)).
  { rewrite run_lits, E3. reflexivity. }
  assert (E1 : run false
                 (Plus true (Cls not_slash)
                  :: lits (str "/issues/") ++ [Plus true (Cls is_digit)])
                 (r ++ str "/issues/" ++ d ++ post)
               = Some (r ++ str "/issues/" ++ d ++ [], [r; d], post)).
  { apply run_group_longest; auto. reflexivity. }
  assert (E0 : run false
                 (Plus true (Cls not_slash) :: lits (str "/")
                  ++ Plus true (Cls not_slash)
                  :: lits (str "/issues/") ++ [Plus true (Cls is_digit)])
                 (o ++ str "/" ++ r ++ str "/issues/" ++ d ++ post)
               = Some (o ++ str "/" ++ r ++ str "/issues/" ++ d ++ [],
                       [o; r; d], post)).
  { apply run_group_longest; auto; [reflexivity|].
    rewrite run_lits, E1. reflexivity. }
  unfold url_tail.
  change ([Plus true (Cls not_slash)] ++ ?x)
    with (Plus true (Cls not_slash) :: x).
  rewrite run_lits.
  change ([Plus true (Cls not_slash)] ++ ?x)
    with (Plus true (Cls not_slash) :: x).
  rewrite E0. simpl extend. now rewrite app_nil_r.
Qed.

(** At the head of [u ++ post], the matcher returns the issue URL [u]
    itself when no further digit follows. *)
Lemma url_run_exact u o r d post :
  issue_url u o r d ->
  match post with c :: _ => is_digit c = false | [] => True end ->
  run false urlRegex (u ++ post) = Some (u, [o; r; d], post).
Proof.
  intros H Hpost. destruct H as [secure o r d Ho Hao Hr Har Hd Had].
  rewrite urlRegex_eq.
  assert (Ht := @url_tail_run o r d post Ho Hao Hr Har Hd Had Hpost).
  repeat rewrite <- app_assoc. rewrite run_lits.
  destruct secure.
  - change (str "s" ++ ?x) with ("s"%char :: x).
    erewrite run_opt_take; [reflexivity | reflexivity |].
    repeat rewrite <- app_assoc in Ht. exact Ht.
  - change ([] ++ ?x) with x.
    rewrite run_opt_skip; [|reflexivity].
    repeat rewrite <- app_assoc in Ht. rewrite Ht. reflexivity.
Qed.

Lemma issue_url_at_iff s :
  issue_url_at s <-> matches_at false urlRegex s.
Proof.
  split.
  - intros (u & o & r & d & rest & Hu & ->).
    exists u, [o; r; d], rest. split; [reflexivity | now apply url_matches].
  - intros (m & cs & rest & -> & Hm).
    apply url_matches_inv in Hm. destruct Hm as (o & r & d & Hu & _).
    now exists m, o, r, d, rest.
Qed.

Lemma contains_issue_url_iff t :
  contains_issue_url t <-> occurs false urlRegex t.
Proof.
  unfold contains_issue_url, occurs.
  split; intros (pre & q & Ht & Hq); exists pre, q;
    (split; [exact Ht | now apply issue_url_at_iff]).
Qed.

(** *** Character classes and [parseInt] *)

Lemma digit_range c :
  is_digit c = true -> 48 <= code c <= 57.
Proof.
  unfold is_digit. intros H. apply andb_true_iff in H.
  destruct H as [H1 H2]. apply Nat.leb_le in H1. apply Nat.leb_le in H2.
  lia.
Qed.

Lemma digit_not_space c : is_digit c = true -> is_space c = false.
Proof.
  intros H. apply digit_range in H. unfold is_space.
  destruct (Nat.leb_spec 9 (code c)); destruct (Nat.leb_spec (code c) 13);
    destruct (Nat.eqb_spec (code c) 32);
    destruct (Nat.eqb_spec (code c) 160); simpl; auto; exfalso; lia.
Qed.

Lemma digit_not_sign c :
  is_digit c = true -> JSNum.sign (c :: nil) = (false, c :: nil)
  /\ forall s, JSNum.sign (c :: s) = (false, c :: s).
Proof.
  intros H. apply digit_range in H.
  assert (Hm : Ascii.eqb c "-" = false).
  { destruct (Ascii.eqb_spec c "-"); auto. subst c. vm_compute in H. lia. }
  assert (Hp : Ascii.eqb c "+" = false).
  { destruct (Ascii.eqb_spec c "+"); auto. subst c. vm_compute in H. lia. }
  unfold JSNum.sign. rewrite Hm, Hp. auto.
Qed.

Lemma take_while_all p s :
  forallb p s = true -> JSNum.take_while p s = s.
Proof.
  induction s as [|c s IH]; simpl; auto.
  intros H. apply andb_true_iff in H. destruct H as [-> H].
  now rewrite IH.
Qed.

(** On a non-empty run of digits, [parseInt] is its decimal value. *)
Lemma parseInt10_digits d :
  d <> [] -> forallb is_digit d = true ->
  JSNum.parseInt10 d = JSNum.of_Z (JSNum.digits_val d).
Proof.
  intros Hd Hall. destruct d as [|c d]; [congruence|].
  assert (Hc : is_digit c = true).
  { simpl in Hall. now apply andb_true_iff in Hall. }
  unfold JSNum.parseInt10.
  cbn [JSNum.drop_while]. rewrite (digit_not_space _ Hc).
  destruct (digit_not_sign _ Hc) as [_ Hs]. rewrite Hs.
  now rewrite (take_while_all _ _ Hall).
Qed.

(** *** Searching *)

Lemma search_leftmost icase ps pre : forall acc s m cs rest,
  (forall p1 p2, pre = p1 ++ p2 -> p2 <> [] ->
     run icase ps (p2 ++ s) = None) ->
  run icase ps s = Some (m, cs, rest) ->
  search icase ps acc (pre ++ s) = Some (Found (acc ++ pre) m cs rest).
Proof.
  induction pre as [|c pre IH]; intros acc s m cs rest Hleft Hrun.
  - rewrite app_nil_r. simpl app.
    destruct s; simpl; now rewrite Hrun.
  - assert (Hn : run icase ps (c :: pre ++ s) = None).
    { apply (Hleft [] (c :: pre)); [reflexivity | discriminate]. }
    simpl. rewrite Hn.
    rewrite (IH (acc ++ [c]) s m cs rest); auto.
    + now rewrite <- app_assoc.
    + intros p1 p2 Hp Hne. apply (Hleft (c :: p1) p2); auto.
      now rewrite Hp.
Qed.

Lemma no_issue_url_search t :
  ~ contains_issue_url t <-> search false urlRegex [] t = None.
Proof.
  rewrite contains_issue_url_iff. symmetry. apply search_none_iff.
Qed.

Lemma carries_detect i t :
  carries i t -> t <> [] -> detectTrigger i = detect_text t.
Proof.
  intros [-> | ->] Ht; destruct t; try congruence; reflexivity.
Qed.

Lemma leading_digits s :
  exists ds rest,
    s = ds ++ rest /\ forallb is_digit ds = true
    /\ match rest with c :: _ => is_digit c = false | [] => True end.
Proof.
  induction s as [|c s IH].
  - exists [], []. auto.
  - destruct (is_digit c) eqn:Hc.
    + destruct IH as (ds & rest & -> & Hall & Hrest).
      exists (c :: ds), rest. simpl. rewrite Hc. auto.
    + exists [], (c :: s). auto.
Qed.

Lemma issue_url_more_digits u o r d ds :
  issue_url u o r d -> forallb is_digit ds = true ->
  issue_url (u ++ ds) o r (d ++ ds).
Proof.
  intros H Hds. destruct H as [secure o r d Ho Hao Hr Har Hd Had].
  repeat rewrite <- app_assoc.
  apply (@issue_url_intro secure o r (d ++ ds)); auto.
  - destruct d; [congruence | discriminate].
  - rewrite forallb_app, Had, Hds. reflexivity.
Qed.

(** Greedy digits: a match of the issue-URL pattern is never followed by
    a further digit. *)
Lemma run_url_maximal s m cs rest :
  run false urlRegex s = Some (m, cs, rest) ->
  match rest with c :: _ => is_digit c = false | [] => True end.
Proof.
  intros Hrun. destruct (run_sound _ _ _ Hrun) as [Hs Hm].
  apply url_matches_inv in Hm. destruct Hm as (o & r & d & Hu & _).
  destruct (leading_digits rest) as (ds & rest' & Hrest & Hds & Hno).
  assert (Hu' := @issue_url_more_digits _ _ _ _ ds Hu Hds).
  assert (Hrun' := @url_run_exact _ _ _ _ rest' Hu' Hno).
  rewrite <- app_assoc, <- Hrest, <- Hs, Hrun in Hrun'.
  inversion Hrun' as [[Hm1 Hcs Hr1]].
  assert (ds = []).
  { apply (f_equal (@List.length ascii)) in Hm1.
    rewrite length_app in Hm1. destruct ds; [reflexivity | simpl in Hm1; lia]. }
  subst ds. simpl in Hrest. now subst rest'.
Qed.

Lemma first_issue_url_exists t :
  contains_issue_url t ->
  exists pre u o r d post,
    t = pre ++ u ++ post /\ issue_url u o r d /\ first_issue_url pre u post.
Proof.
  intros Hc.
  destruct (search false urlRegex [] t) as [f|] eqn:Hs.
  2:{ exfalso. apply no_issue_url_search in Hs. now apply Hs. }
  apply search_sound in Hs.
  destruct Hs as (skipped & _ & Ht & Hrun & Hleft).
  assert (Hmax := @run_url_maximal _ _ _ _ Hrun).
  destruct (run_sound _ _ _ Hrun) as [_ Hm].
  apply url_matches_inv in Hm. destruct Hm as (o & r & d & Hu & _).
  exists skipped, (matched f), o, r, d, (after f).
  split; [exact Ht|]. split; [exact Hu|]. split; [|exact Hmax].
  intros p1 p2 Hp Hne Hat.
  apply issue_url_at_iff, run_some_iff in Hat.
  apply Hat. now apply (Hleft p1 p2).
Qed.

Lemma detect_at_first_issue_url i pre u o r d post :
  carries i (pre ++ u ++ post) ->
  issue_url u o r d ->
  first_issue_url pre u post ->
  detectTrigger i
  = Some (Single {| issueUrl := u; owner := o; repo := r;
                    issueNumber := JSNum.of_Z (JSNum.digits_val d) |}).
Proof.
  intros Hi Hu [Hleft Hpost].
  assert (Hne : pre ++ u ++ post <> []).
  { destruct Hu. destruct pre; discriminate. }
  rewrite (carries_detect Hi Hne). unfold detect_text.
  assert (Hs : search false urlRegex [] (pre ++ u ++ post)
               = Some (Found pre u [o; r; d] post)).
  { apply (@search_leftmost false urlRegex pre [] (u ++ post) u
             [o; r; d] post).
    - intros p1 p2 Hp Hp2.
      destruct (run false urlRegex (p2 ++ u ++ post)) eqn:Hr; auto.
      exfalso. apply (Hleft p1 p2 Hp Hp2).
      apply issue_url_at_iff, run_some_iff. congruence.
    - now apply url_run_exact. }
  destruct (matchAll_head _ _ _ Hs) as [tl ->].
  unfold issue_of_match. simpl.
  destruct Hu. now rewrite parseInt10_digits.
Qed.



(** C4.  An input whose text is empty or missing, or on which the body
    of the detector throws, yields "no trigger": nothing propagates out
    of [detectTrigger], and an empty or missing text is not even an
    internal error. *)
Theorem detect_fail_safe i :
  without_text i \/ (exists e, detect_body i = Throw e) ->
  detectTrigger i = None
  /\ (without_text i -> detect_body i = Ret None).
Proof.
  intros H. split.
  - destruct H as [H | [e H]].
    + destruct i as [s | | | f]; simpl in H.
      * now subst s.
      * contradiction.
      * reflexivity.
      * unfold detectTrigger, detect_body. simpl. now rewrite H.
    + unfold detectTrigger. now rewrite H.
  - clear H. intros H. destruct i as [s | | | f]; simpl in H.
    + now subst s.
    + contradiction.
    + reflexivity.
    + unfold detect_body. simpl. now rewrite H.
Qed.

(** [null] as input: reading its [text] property throws, and the
    detector answers "no trigger". *)
Lemma detect_fail_safe_witness :
  detectTrigger InNullish = None
  /\ (without_text InNullish -> detect_body InNullish = Ret None).
Proof.
  apply detect_fail_safe. right. eexists. reflexivity.
Defined.

(** *** The batch and repository phrases *)

Lemma matches_groups_infix icase ps m cs :
  matches icase ps m cs ->
  forall c, In c cs -> exists a b, m = a ++ c ++ b.
Proof.
  induction 1 as [ | a c ps m cs Ha _ IH | a c ps m cs Ha _ IH
                   | a ps m cs _ IH | cap a taken ps m cs Hne Hall _ IH
                   | cap a taken ps m cs Hall _ IH ]; intros g Hg.
  - contradiction.
  - destruct (IH g Hg) as (x & y & ->). now exists (c :: x), y.
  - destruct (IH g Hg) as (x & y & ->). now exists (c :: x), y.
  - exact (IH g Hg).
  - assert (Hin : g = taken \/ In g cs).
    { destruct cap; [destruct Hg; auto | auto]. }
    destruct Hin as [-> | Hin].
    + now exists [], m.
    + destruct (IH g Hin) as (x & y & ->).
      exists (taken ++ x), y. now rewrite <- app_assoc.
  - assert (Hin : g = taken \/ In g cs).
    { destruct cap; [destruct Hg; auto | auto]. }
    destruct Hin as [-> | Hin].
    + now exists [], m.
    + destruct (IH g Hin) as (x & y & ->).
      exists (taken ++ x), y. now rewrite <- app_assoc.
Qed.

Lemma occurs_infix icase ps a c b :
  occurs icase ps c -> occurs icase ps (a ++ c ++ b).
Proof.
  intros (pre & q & -> & m & cs & rest & -> & Hm).
  exists (a ++ pre), (m ++ rest ++ b). split.
  - now rewrite <- !app_assoc.
  - now exists m, cs, (rest ++ b).
Qed.

(** Whatever a search captures is part of the subject. *)
Lemma search_group_infix icase ps t f g :
  search icase ps [] t = Some f -> In g (groups f) ->
  exists a b, t = a ++ g ++ b.
Proof.
  intros Hs Hg. apply search_sound in Hs.
  destruct Hs as (skipped & _ & Ht & Hrun & _).
  apply run_sound in Hrun. destruct Hrun as [_ Hm].
  destruct (matches_groups_infix Hm g Hg) as (x & y & Hxy).
  exists (skipped ++ x), (y ++ after f).
  rewrite Ht, Hxy. now rewrite <- !app_assoc.
Qed.

Lemma search_some_occurs icase ps t :
  search icase ps [] t <> None -> occurs icase ps t.
Proof.
  destruct (search icase ps [] t) as [f|] eqn:Hs; [|congruence].
  intros _. apply search_sound in Hs.
  destruct Hs as (skipped & _ & Ht & Hrun & _).
  apply run_sound in Hrun. destruct Hrun as [_ Hm].
  exists skipped, (matched f ++ after f). split; [exact Ht|].
  now exists (matched f), (groups f), (after f).
Qed.

Lemma extractIssueList_nil t :
  ~ contains_issue_url t -> extractIssueList t = [].
Proof.
  intros H. apply no_issue_url_search in H.
  unfold extractIssueList.
  now rewrite (proj2 (matchAll_nil_iff false urlRegex t) H).
Qed.

(** In a text without issue URL, what the batch phrase captures holds
    no issue URL either: the issue list is always empty there. *)
Lemma batch_remainder_empty t f :
  ~ contains_issue_url t ->
  search true batchRegex [] t = Some f ->
  extractIssueList (group 0 (groups f)) = [].
Proof.
  intros Hno Hs. apply extractIssueList_nil. intros Hc.
  destruct (groups f) as [|g gs] eqn:Hg.
  - apply contains_issue_url_iff in Hc.
    destruct Hc as (pre & q & Hpq & m & cs & rest & -> & Hm).
    apply url_matches_inv in Hm. destruct Hm as (o & r & d & Hu & _).
    destruct Hu. destruct pre; discriminate.
  - apply Hno. simpl in Hc.
    destruct (@search_group_infix true batchRegex t f g Hs) as (a & b & ->).
    { rewrite Hg. now left. }
    apply contains_issue_url_iff. apply occurs_infix.
    now apply contains_issue_url_iff.
Qed.

Lemma batch_matches_nonempty m cs :
  matches true batchRegex m cs -> m <> [].
Proof.
  intros H. apply matches_one_inv in H.
  destruct H as (c & m' & -> & _). discriminate.
Qed.



(** The batch branch is never taken: no input is classified as a batch
    request. *)
Lemma detectTrigger_never_batch i l :
  detectTrigger i <> Some (Batch l).
Proof.
  unfold detectTrigger, detect_body.
  destruct (text_of i) as [f|e]; [|discriminate].
  destruct (negb (truthy f)); [discriminate|].
  destruct f as [ | | b | n | t | ]; try discriminate.
  unfold detect_text.
  destruct (matchAll false urlRegex t) eqn:Hm; [|discriminate].
  apply matchAll_nil_iff in Hm. apply no_issue_url_search in Hm.
  unfold batch_rule.
  assert (Hrepo : repo_rule t <> Some (Batch l)).
  { unfold repo_rule. destruct (search true repoRegex [] t); discriminate. }
  destruct (search true batchRegex [] t) as [f|] eqn:Hs; auto.
  now rewrite (batch_remainder_empty Hm Hs).
Qed.

(** What the repository phrase captures: a non-empty owner and a
    non-empty repository name. *)
Lemma repo_matches_inv m cs :
  matches true repoRegex m cs ->
  exists o r, cs = [o; r] /\ o <> [] /\ r <> [].
Proof.
  intros H.
  apply (@matches_lits_skip true (str "resolve")) in H.
  destruct H as (x1 & m1 & _ & H).
  apply matches_plus_inv in H. destruct H as (t1 & m2 & c2 & _ & -> & _ & _ & H).
  apply (@matches_lits_skip true (str "issue")) in H.
  destruct H as (x2 & m3 & _ & H).
  assert (Hrest : forall m4,
    matches true
      (Plus false (Cls is_space) :: lits (str "in")
       ++ [Plus false (Cls is_space); Plus true (Cls not_slash)]
       ++ lits (str "/") ++ [Plus true (Cls not_slash_space)]) m4 c2 ->
    exists o r, c2 = [o; r] /\ o <> [] /\ r <> []).
  { clear. intros m4 H.
    apply matches_plus_inv in H.
    destruct H as (t1 & m5 & c5 & _ & -> & _ & _ & H).
    apply (@matches_lits_skip true (str "in")) in H.
    destruct H as (x3 & m6 & _ & H).
    apply matches_plus_inv in H.
    destruct H as (t2 & m7 & c7 & _ & -> & _ & _ & H).
    apply matches_plus_inv in H.
    destruct H as (o & m8 & c8 & _ & -> & Ho & _ & H).
    apply (@matches_lits_skip true (str "/")) in H.
    destruct H as (x4 & m9 & _ & H).
    apply matches_plus_inv in H.
    destruct H as (r & m10 & c10 & _ & -> & Hr & _ & H).
    apply matches_nil_inv in H. destruct H as [_ ->].
    now exists o, r. }
  apply matches_opt_inv in H.
  destruct H as [(c & m4 & _ & _ & H) | H]; now apply Hrest in H.
Qed.

Lemma repo_rule_inv t tr :
  repo_rule t = Some tr ->
  exists o r, tr = RepoWide o r /\ o <> [] /\ r <> [].
Proof.
  unfold repo_rule.
  destruct (search true repoRegex [] t) as [f|] eqn:Hs; [|discriminate].
  intros H; inversion H; subst tr; clear H.
  apply search_sound in Hs. destruct Hs as (skipped & _ & _ & Hrun & _).
  apply run_sound in Hrun. destruct Hrun as [_ Hm].
  apply repo_matches_inv in Hm. destruct Hm as (o & r & -> & Ho & Hr).
  now exists o, r.
Qed.

(** A repository-wide request that the detector returns always passes
    [validateTrigger]. *)
Lemma repo_wide_valid i o r :
  detectTrigger i = Some (RepoWide o r) ->
  validateTrigger (Some (RepoWide o r)) = true.
Proof.
  unfold detectTrigger, detect_body.
  destruct (text_of i) as [f|e]; [|discriminate].
  destruct (negb (truthy f)); [discriminate|].
  destruct f as [ | | b | n | t | ]; try discriminate.
  unfold detect_text.
  destruct (matchAll false urlRegex t); [|discriminate].
  unfold batch_rule. intros H.
  assert (Hr : repo_rule t = Some (RepoWide o r)).
  { destruct (search true batchRegex [] t) as [f|]; auto.
    destruct (extractIssueList (group 0 (groups f))); [auto|discriminate]. }
  apply repo_rule_inv in Hr. destruct Hr as (o' & r' & Heq & Ho & Hr).
  inversion Heq; subst o' r'. simpl.
  destruct o; destruct r; simpl; congruence.
Qed.

End TriggerFacts.

(** ** The single-issue pipeline and the entry coordinator *)

Module ResolverFacts.
Import TriggerDetection Resolver.

Section Pipeline.
Variables (World Thrown Message : Type).
Variables (IssueData TaskConfig FileChange CodeChanges PrResult
           Ack Visualization Url Branch : Type).
Variable message : Thrown -> Message.
Variable number : IssueData -> JSNum.num.
Variable codeChanges : CodeChanges -> list FileChange.
Variable pullRequestUrl : PrResult -> Url.
Variable pullRequestNumber : PrResult -> JSNum.num.
Variable branch : PrResult -> Branch.
Variable fetchIssueData : option text -> effect World Thrown IssueData.
Variable setupTask : IssueData -> effect World Thrown TaskConfig.
Variable generateAndValidateCode :
  TaskConfig -> effect World Thrown CodeChanges.
Variable createPullRequest :
  CodeChanges -> IssueData -> effect World Thrown PrResult.
Variable provideFeedback : PrResult -> IssueData -> effect World Thrown Ack.
Variable createVisualization :
  PrResult -> IssueData -> CodeChanges -> effect World Thrown Visualization.
Variable configInitialize : effect World Thrown bool.
Variable githubInitialize : effect World Thrown unit.
Variable processBatch :
  list issue ->
  (issue -> R World Thrown IssueData TaskConfig CodeChanges PrResult
              (ResolutionResult Message Visualization Url Branch)) ->
  R World Thrown IssueData TaskConfig CodeChanges PrResult
    (list (ResolutionResult Message Visualization Url Branch)).

Local Abbreviation resolve :=
  (Resolver.resolve message number codeChanges pullRequestUrl
     pullRequestNumber branch fetchIssueData setupTask
     generateAndValidateCode createPullRequest provideFeedback
     createVisualization).
Local Abbreviation replay :=
  (Resolver.replay fetchIssueData setupTask generateAndValidateCode
     createPullRequest provideFeedback createVisualization).
Local Abbreviation all_return :=
  (Resolver.all_return fetchIssueData setupTask generateAndValidateCode
     createPullRequest provideFeedback createVisualization).
Local Abbreviation failure :=
  (Resolver.failure (Visualization := Visualization) (Url := Url)
     (Branch := Branch) message).

Ltac use_results :=
  cbn; repeat match goal with E : _ = (_, _) |- _ => rewrite E end.
Ltac threw := use_results; reflexivity.
Ltac returned :=
  cbn [Resolver.all_return];
  repeat (eexists; split; [threw|]);
  reflexivity.


Local Abbreviation initialize :=
  (Resolver.initialize (IssueData := IssueData) (TaskConfig := TaskConfig)
     (CodeChanges := CodeChanges) (PrResult := PrResult)
     configInitialize githubInitialize).
Local Abbreviation handleMcpInvocation :=
  (Resolver.handleMcpInvocation message number codeChanges pullRequestUrl
     pullRequestNumber branch fetchIssueData setupTask
     generateAndValidateCode createPullRequest provideFeedback
     createVisualization configInitialize githubInitialize processBatch).

(** The first thing a run of the pipeline does is to call the issue
    source with the URL it was given. *)
Lemma resolve_fetches_first (issueUrl : option text)
    (p : process World IssueData TaskConfig CodeChanges PrResult) :
  exists r p' rest,
    resolve issueUrl p = (inl r, p')
    /\ trace p' = trace p ++ CallFetchIssueData issueUrl :: rest.
Proof.
  unfold Resolver.resolve, pipeline, Resolver.bind, invoke.
  destruct p as [w0 init tr]. cbn [world isInitialized trace].
  destruct (fetchIssueData issueUrl w0) as [[d|e] w1];
    cbn [world isInitialized trace];
    [destruct (setupTask d w1) as [[t|e] w2];
     cbn [world isInitialized trace];
     [destruct (generateAndValidateCode t w2) as [[c|e] w3];
      cbn [world isInitialized trace];
      [destruct (createPullRequest c d w3) as [[pr|e] w4];
       cbn [world isInitialized trace];
       [destruct (provideFeedback pr d w4) as [[a|e] w5];
        cbn [world isInitialized trace];
        [destruct (createVisualization pr d c w5) as [[v|e] w6];
         cbn [world isInitialized trace]|]|]|]|]|];
    do 3 eexists; (split; [reflexivity|]);
    cbn [trace]; rewrite <- ?app_assoc; reflexivity.
Qed.

(** C10.  An input classified as a repository-wide request always
    passes validation and, once the process is initialised, is handed
    to the single-issue pipeline: the response is the result of
    [resolve] on an absent issue URL, and the first collaborator call
    is the issue source invoked with that absent URL. *)
Theorem repo_wide_dispatch (i : input) (o r : text)
    (p : process World IssueData TaskConfig CodeChanges PrResult) :
  detectTrigger i = Some (RepoWide o r) ->
  fst (initialize p) = inl true ->
  validateTrigger (detectTrigger i) = true
  /\ exists res p',
      resolve None (snd (initialize p)) = (inl res, p')
      /\ handleMcpInvocation i p = (IssueResult res, p')
      /\ exists rest,
           trace p' = trace (snd (initialize p))
                      ++ CallFetchIssueData None :: rest.
Proof.
  intros Hd Hinit.
  assert (Hv := TriggerFacts.repo_wide_valid _ Hd).
  split; [now rewrite Hd|].
  destruct (resolve_fetches_first None (snd (initialize p)))
    as (res & p' & rest & Hres & Htr).
  exists res, p'. split; [exact Hres|]. split; [|now exists rest].
  unfold Resolver.handleMcpInvocation, handle_body.
  rewrite Hd, Hv. cbn [negb].
  unfold resolveIssue, trigger_issueUrl.
  destruct (isInitialized p) eqn:Hi.
  - assert (Hp : initialize p = (inl true, p)).
    { unfold Resolver.initialize. now rewrite Hi. }
    rewrite Hp in Hres. cbn [snd] in Hres.
    unfold Resolver.bind. now rewrite Hres.
  - unfold Resolver.bind at 1.
    destruct (initialize p) as [[b|e] p0] eqn:Hp; cbn in Hinit;
      [|discriminate].
    inversion Hinit; subst b. cbn [snd] in Hres.
    unfold Resolver.bind. now rewrite Hres.
Qed.

End Pipeline.

(** A process that is not yet initialised, collaborators whose issue
    source rejects every request, and the input
    "resolve issues in foo/bar". *)
Lemma repo_wide_dispatch_witness :
  let fails : effect unit unit unit := fun w => (inr tt, w) in
  let ok : effect unit unit unit := fun w => (inl tt, w) in
  let handle :=
    Resolver.handleMcpInvocation (FileChange := unit)
      (fun e : unit => e) (fun _ : unit => JSNum.NaN)
      (fun _ : unit => []) (fun _ : unit => tt) (fun _ : unit => JSNum.NaN)
      (fun _ : unit => tt)
      (fun _ => fails) (fun _ => ok) (fun _ => ok) (fun _ _ => ok)
      (fun _ _ => ok) (fun _ _ _ => ok)
      (fun w => (inl true, w)) ok
      (fun _ _ p => (inl [], p)) in
  let p := Process tt false [] in
  validateTrigger
    (detectTrigger (InString (str "resolve issues in foo/bar"))) = true
  /\ fst (handle (InString (str "resolve issues in foo/bar")) p)
     = IssueResult (failure (fun e : unit => e) None tt)
  /\ trace (snd (handle (InString (str "resolve issues in foo/bar")) p))
     = [CallFetchIssueData None].
Proof.
  pose proof
    (@repo_wide_dispatch unit unit unit unit unit unit unit unit unit unit
       unit unit
       (fun e : unit => e) (fun _ : unit => JSNum.NaN)
       (fun _ : unit => []) (fun _ : unit => tt) (fun _ : unit => JSNum.NaN)
       (fun _ : unit => tt)
       (fun _ w => (inr tt, w)) (fun _ w => (inl tt, w))
       (fun _ w => (inl tt, w)) (fun _ _ w => (inl tt, w))
       (fun _ _ w => (inl tt, w)) (fun _ _ _ w => (inl tt, w))
       (fun w => (inl true, w)) (fun w => (inl tt, w))
       (fun _ _ p => (inl [], p))
       (InString (str "resolve issues in foo/bar")) (str "foo") (str "bar")
       (Process tt false []) eq_refl eq_refl) as [Hv (res & p' & Hres & Hh & _)].
  cbv zeta. split; [exact Hv|].
  vm_compute in Hres. inversion Hres; subst res p'.
  rewrite Hh. split; reflexivity.
Defined.

End ResolverFacts.

(** ** Lists updated by index *)

Module StoreFacts.

Lemma update_nth_length {A} (x : A) l : forall i,
  List.length (JS.update_nth i x l) = List.length l.
Proof.
  induction l as [|y l IH]; intros [|i]; simpl; auto.
Qed.

Lemma nth_error_update_same {A} (x : A) l : forall i,
  i < List.length l -> nth_error (JS.update_nth i x l) i = Some x.
Proof.
  induction l as [|y l IH]; intros [|i] H; simpl in *; try lia; auto.
  apply IH. lia.
Qed.

Lemma nth_error_update_other {A} (x : A) l : forall i j,
  i <> j -> nth_error (JS.update_nth i x l) j = nth_error l j.
Proof.
  induction l as [|y l IH]; intros [|i] [|j] H; simpl; auto; try congruence.
Qed.

End StoreFacts.

(** ** The batch scheduler *)

Module BatchFacts.
Import StoreFacts.
Import BatchProcessing.

Section Scheduler.
Variables (Issue Result : Type).
Variable exec : Issue -> Result.

Lemma fill_spec k (q : list (nat * Issue)) : forall a q' a',
  fill k q a = (q', a') ->
  (forall e, In e (q ++ a) <-> In e (q' ++ a'))
  /\ List.length (q' ++ a') = List.length (q ++ a)
  /\ (1 <= k -> q ++ a <> [] -> a' <> [])
  /\ (List.length a <= k -> List.length a' <= k).
Proof.
  induction q as [|x q IH]; intros a q' a' H; simpl in H.
  - inversion H; subst. repeat split; auto.
  - destruct (Nat.ltb_spec (List.length a) k) as [Hlt|Hge].
    + apply IH in H. destruct H as (Hin & Hlen & Hne & Hcap).
      repeat split.
      * intros He. apply Hin. simpl in He.
        rewrite in_app_iff in *. simpl. rewrite in_app_iff.
        simpl. tauto.
      * intros He. apply Hin in He.
        rewrite !in_app_iff in *. simpl in *. tauto.
      * rewrite Hlen. rewrite !length_app. simpl. lia.
      * intros Hk _. apply Hne; auto. destruct q; destruct a; discriminate.
      * intros _. apply Hcap. rewrite length_app. simpl. lia.
    + inversion H; subst. repeat split; auto.
      intros Hk _ ->. simpl in Hge. lia.
Qed.

Lemma take_spec {A} (l : list A) : forall j y r,
  take j l = Some (y, r) ->
  (forall e, In e l <-> e = y \/ In e r)
  /\ List.length l = S (List.length r).
Proof.
  induction l as [|x l IH]; intros [|j] y r H; simpl in H;
    try discriminate.
  - inversion H; subst. split; [|reflexivity].
    intros e. simpl. split; intros [He|He]; auto.
  - destruct (take j l) as [[y' r']|] eqn:Ht; [|discriminate].
    inversion H; subst. destruct (IH _ _ _ Ht) as [Hin Hlen].
    split; [|simpl; lia].
    intros e. simpl. rewrite Hin. tauto.
Qed.

Lemma take_some {A} (l : list A) : forall j,
  j < List.length l -> take j l <> None.
Proof.
  induction l as [|x l IH]; intros [|j] H; simpl in *; try lia;
    try discriminate.
  specialize (IH j ltac:(lia)). destruct (take j l) as [[y r]|];
    [discriminate | congruence].
Qed.

Lemma round_consistent issueList k pick p :
  1 <= k ->
  consistent exec issueList p ->
  consistent exec issueList (round exec k pick p)
  /\ pending (round exec k pick p) = pending p - 1.
Proof.
  intros Hk (Hlen & Hin & Hall). unfold round, pending.
  destruct (fill k (queue p) (active p)) as [q a] eqn:Hf.
  apply fill_spec in Hf. destruct Hf as (Hperm & Hfl & Hne & _).
  destruct (take (pick mod List.length a) a) as [[[i x] a']|] eqn:Ht.
  - destruct (take_spec _ _ Ht) as [Hta Htl]. simpl.
    assert (Hix : nth_error issueList i = Some x).
    { apply Hin, Hperm. rewrite in_app_iff. right. apply Hta. now left. }
    assert (Hi : i < List.length (results p)).
    { rewrite Hlen. apply nth_error_Some. congruence. }
    unfold consistent. cbn [results queue active].
    split; [split; [|split]|].
    + now rewrite update_nth_length.
    + intros j y Hj. apply Hin, Hperm.
      rewrite in_app_iff in *. destruct Hj as [Hj|Hj]; auto.
      right. apply Hta. now right.
    + intros j y Hj.
      destruct (Nat.eq_dec i j) as [<-|Hij].
      * right. rewrite nth_error_update_same; auto. congruence.
      * rewrite nth_error_update_other; auto.
        destruct (Hall j y Hj) as [Hp|Hr]; auto.
        apply Hperm in Hp. rewrite in_app_iff in Hp.
        destruct Hp as [Hp|Hp]; [left; rewrite in_app_iff; auto|].
        apply Hta in Hp. destruct Hp as [Hp|Hp].
        -- inversion Hp; congruence.
        -- left. rewrite in_app_iff. auto.
    + rewrite <- Hfl. rewrite !length_app. rewrite Htl. lia.
  - unfold consistent. cbn [results queue active].
    split; [split; [|split]|]; auto.
    + intros j y Hj. now apply Hin, Hperm.
    + intros j y Hj. destruct (Hall j y Hj) as [Hp|Hr]; auto.
      left. now apply Hperm.
    + assert (Ha : a = []).
      { destruct a as [|y a]; auto. exfalso.
        apply (@take_some _ (y :: a) (pick mod List.length (y :: a)));
          auto.
        apply Nat.mod_upper_bound. discriminate. }
      subst a.
      destruct (queue p ++ active p) as [|e l] eqn:Hq.
      * rewrite Hfl. reflexivity.
      * exfalso. apply Hne; auto. discriminate.
Qed.

Lemma rounds_consistent issueList k n : forall order p,
  1 <= k ->
  consistent exec issueList p ->
  consistent exec issueList (rounds exec n k order p)
  /\ pending (rounds exec n k order p) = pending p - n.
Proof.
  induction n as [|n IH]; intros order p Hk Hc; simpl.
  - split; auto. lia.
  - destruct (round_consistent (order 0) Hk Hc) as [Hc' Hp'].
    destruct (IH (fun t => order (S t)) _ Hk Hc') as [Hc'' Hp''].
    split; auto. rewrite Hp'', Hp'. lia.
Qed.

Lemma number_from_in (l : list Issue) : forall s i x,
  In (i, x) (number_from s l) <->
  s <= i /\ nth_error l (i - s) = Some x.
Proof.
  induction l as [|y l IH]; intros s i x; simpl.
  - split; [contradiction|]. intros [_ H].
    destruct (i - s); discriminate.
  - rewrite IH. split.
    + intros [H|[Hs Hn]].
      * inversion H; subst. split; auto. now rewrite Nat.sub_diag.
      * split; [lia|]. replace (i - s) with (S (i - S s)) by lia.
        exact Hn.
    + intros [Hs Hn]. destruct (Nat.eq_dec s i) as [->|Hne].
      * left. rewrite Nat.sub_diag in Hn. simpl in Hn. congruence.
      * right. split; [lia|].
        replace (i - s) with (S (i - S s)) in Hn by lia. exact Hn.
Qed.

Lemma number_from_length (l : list Issue) : forall s,
  List.length (number_from s l) = List.length l.
Proof. induction l; intros s; simpl; auto. Qed.

(** C3.  With at least one slot, a batch run over N issues fills all
    N slots of the output, slot [i] holding the result of the
    execution function on the [i]-th issue, whatever the completion
    order: the output is index-aligned with the input, and the outcome
    in a slot depends on that slot's issue alone. *)
Theorem processBatch_results (maxConcurrent : nat) (order : nat -> nat)
    (issueList : list Issue) :
  1 <= maxConcurrent ->
  processBatch exec maxConcurrent order issueList
  = map (fun x => Some (exec x)) issueList.
Proof.
  intros Hk. unfold processBatch.
  set (p0 := Pool (number_from 0 issueList) []
               (repeat (@None Result) (List.length issueList))).
  assert (Hc0 : consistent exec issueList p0).
  { unfold consistent, p0. simpl. rewrite app_nil_r.
    split; [apply repeat_length|]. split.
    - intros i x H. apply number_from_in in H.
      now rewrite Nat.sub_0_r in H.
    - intros i x H. left. apply number_from_in.
      rewrite Nat.sub_0_r. split; [lia | exact H]. }
  destruct (rounds_consistent (List.length issueList) order Hk Hc0)
    as [(Hlen & _ & Hall) Hp].
  assert (Hz : pending (rounds exec (List.length issueList)
                          maxConcurrent order p0) = 0).
  { rewrite Hp. unfold pending, p0. simpl.
    rewrite app_nil_r, number_from_length. lia. }
  apply nth_error_ext. intros i.
  rewrite nth_error_map.
  destruct (nth_error issueList i) as [x|] eqn:Hi; simpl.
  - destruct (Hall i x Hi) as [Hin|Hr]; auto.
    unfold pending in Hz. apply length_zero_iff_nil in Hz.
    rewrite Hz in Hin. contradiction.
  - apply nth_error_None. rewrite Hlen. now apply nth_error_None.
Qed.

End Scheduler.

(** A batch of three on two slots, completing out of order. *)
Lemma processBatch_results_witness :
  processBatch (fun n : nat => n * 2) 2 (fun t => t + 1) [10; 20; 30]
  = [Some 20; Some 40; Some 60].
Proof.
  exact (@processBatch_results nat nat (fun n => n * 2) 2 (fun t => t + 1)
           [10; 20; 30] (le_S _ _ (le_n 1))).
Defined.

End BatchFacts.

(** ** The configuration manager *)

Module ConfigFacts.
Import JSNum JS Configuration StoreFacts.
Local Open Scope string_scope.

(** *** Code that only reads the state *)

Lemma reader_ret {A} (a : A) : reader (ret a).
Proof. intros st; reflexivity. Qed.

Lemma reader_throw {A} e : reader (@throw A e).
Proof. intros st; reflexivity. Qed.

Lemma reader_beyond {A} : reader (@beyond A).
Proof. intros st; reflexivity. Qed.

Lemma reader_lift {A} (c : completion A) : reader (lift c).
Proof. intros st; reflexivity. Qed.

Lemma reader_bind {A B} (m : M A) (f : A -> M B) :
  reader m -> (forall a, reader (f a)) -> reader (bind m f).
Proof.
  intros Hm Hf st. unfold bind. specialize (Hm st).
  destruct (m st) as [[a|e|] st1]; simpl in *; subst; auto.
  apply Hf.
Qed.

Lemma reader_read_obj l : reader (read_obj l).
Proof.
  intros st. unfold read_obj. destruct (nth_error (store st) l); reflexivity.
Qed.

Lemma reader_get_member v k : reader (get_member v k).
Proof.
  destruct v; simpl;
    try apply reader_throw; try apply reader_beyond.
  apply reader_bind; [apply reader_read_obj|].
  intros o. destruct (lookup o k); [apply reader_ret|].
  destruct (inherited k); [apply reader_beyond | apply reader_ret].
Qed.

Lemma reader_member2 v s k : reader (member2 v s k).
Proof.
  apply reader_bind; [apply reader_get_member|].
  intros x. apply reader_get_member.
Qed.

Lemma reader_js_lt m b : reader m -> reader (js_lt m b).
Proof.
  intros H. apply reader_bind; auto. intros x.
  apply reader_bind; [apply reader_lift|]. intros a. apply reader_ret.
Qed.

Lemma reader_js_gt m b : reader m -> reader (js_gt m b).
Proof.
  intros H. apply reader_bind; auto. intros x.
  apply reader_bind; [apply reader_lift|]. intros a. apply reader_ret.
Qed.

Lemma reader_js_not m : reader m -> reader (js_not m).
Proof.
  intros H. apply reader_bind; auto. intros x. apply reader_ret.
Qed.

Lemma reader_or_else a b : reader a -> reader b -> reader (or_else a b).
Proof.
  intros Ha Hb. apply reader_bind; auto.
  intros [|]; [apply reader_ret | exact Hb].
Qed.

Lemma reader_checks config :
  Forall (fun c => reader (fst c)) (checks config).
Proof.
  unfold checks.
  repeat constructor; simpl;
    repeat first [ apply reader_or_else | apply reader_js_lt
                 | apply reader_js_gt | apply reader_js_not
                 | apply reader_member2 | apply reader_get_member ].
Qed.

(** A reader's whole result is its first component. *)
Lemma reader_run {A} (m : M A) st : reader m -> m st = (fst (m st), st).
Proof.
  intros H. specialize (H st). destruct (m st); simpl in *. now subst.
Qed.

Lemma run_checks_spec cs : forall errors st,
  Forall (fun c => reader (fst c)) cs ->
  snd (run_checks cs errors st) = st
  /\ forall out, fst (run_checks cs errors st) = Normal out ->
       incl errors out
       /\ forall cond msg, In (cond, msg) cs ->
            exists b, fst (cond st) = Normal b
                      /\ (b = true -> In msg out).
Proof.
  induction cs as [|[cond msg] cs IH]; intros errors st Hr; simpl.
  - split; auto. intros out H. inversion H; subst.
    split; [apply incl_refl | contradiction].
  - inversion Hr as [|? ? Hc Hcs]; subst. simpl in Hc.
    unfold bind, push_if. unfold bind.
    rewrite (reader_run st Hc).
    destruct (fst (cond st)) as [b| e |] eqn:Hb; simpl;
      [|split; [auto | discriminate] ..].
    destruct (IH (if b then (errors ++ [msg])%list else errors) st Hcs)
      as [Hst Hout].
    split; [exact Hst|].
    intros out H. destruct (Hout out H) as [Hincl Hall].
    split.
    + intros x Hx. apply Hincl. destruct b; auto.
      apply in_or_app. now left.
    + intros cond' msg' [Heq|Hin].
      * inversion Heq; subst cond' msg'. exists b. split; auto.
        intros ->. apply Hincl. apply in_or_app. right. now left.
      * now apply Hall.
Qed.

Lemma validateConfig_reader config : reader (validateConfig config).
Proof.
  intros st. unfold validateConfig.
  apply run_checks_spec. apply reader_checks.
Qed.

(** *** Validation reports every broken invariant *)

Lemma js_lt_value m b st x :
  reader m -> fst (m st) = Normal (VNum x) ->
  fst (js_lt m b st) = Normal (ltb x (of_Z b)).
Proof.
  intros Hr Hv. unfold js_lt, bind. rewrite (reader_run st Hr), Hv.
  reflexivity.
Qed.

Lemma js_gt_value m b st x :
  reader m -> fst (m st) = Normal (VNum x) ->
  fst (js_gt m b st) = Normal (gtb x (of_Z b)).
Proof.
  intros Hr Hv. unfold js_gt, bind. rewrite (reader_run st Hr), Hv.
  reflexivity.
Qed.

Lemma js_not_value m st v :
  reader m -> fst (m st) = Normal v ->
  fst (js_not m st) = Normal (negb (truthy v)).
Proof.
  intros Hr Hv. unfold js_not, bind. rewrite (reader_run st Hr), Hv.
  reflexivity.
Qed.

Lemma or_else_value a b st x y :
  reader a -> fst (a st) = Normal x -> fst (b st) = Normal y ->
  fst (or_else a b st) = Normal (x || y).
Proof.
  intros Hr Ha Hb. unfold or_else, bind. rewrite (reader_run st Hr), Ha.
  destruct x; simpl; auto.
Qed.

Ltac reads :=
  repeat first [ apply reader_or_else | apply reader_js_lt
               | apply reader_js_gt | apply reader_js_not
               | apply reader_member2 | apply reader_get_member ].

Lemma violation_reported st errors :
  violates_invariant st ->
  fst (validateConfig (VObj (currentConfig st)) st) = Normal errors ->
  errors <> [].
Proof.
  intros Hv Hn. unfold validateConfig in Hn.
  destruct (run_checks_spec [] st (reader_checks (VObj (currentConfig st))))
    as [_ Hspec].
  destruct (Hspec errors Hn) as [_ Hall]. clear Hspec Hn.
  set (cfg := VObj (currentConfig st)) in *.
  assert (Hin : forall cond msg b,
            In (cond, msg) (checks cfg) -> fst (cond st) = Normal b ->
            b = true -> errors <> []).
  { intros cond msg b Hc Hb Ht.
    destruct (Hall cond msg Hc) as (b' & Hb' & Himp).
    rewrite Hb in Hb'. inversion Hb'; subst b'.
    intros ->. exact (Himp Ht). }
  unfold violates_invariant, holds_number, current in Hv.
  fold cfg in Hv.
  destruct Hv as [(t & Ht & Hb) | [(m & Hm & Hb) | [(c & Hc & Hb)
                 | [(b & Hb1 & Hb) | (v & Hv & Hb)]]]].
  - eapply (Hin _ _ _ (or_intror (or_introl eq_refl))).
    + apply or_else_value; [reads | |].
      * apply js_lt_value; [reads | exact Ht].
      * apply js_gt_value; [reads | exact Ht].
    + destruct Hb as [-> | ->]; auto using orb_true_r.
  - eapply (Hin _ _ _ (or_intror (or_intror (or_introl eq_refl)))).
    + apply or_else_value; [reads | |].
      * apply js_lt_value; [reads | exact Hm].
      * apply js_gt_value; [reads | exact Hm].
    + destruct Hb as [-> | ->]; auto using orb_true_r.
  - eapply (Hin _ _ _
              (or_intror (or_intror (or_intror (or_introl eq_refl))))).
    + apply js_lt_value; [reads | exact Hc].
    + exact Hb.
  - eapply (Hin _ _ _
              (or_intror (or_intror (or_intror (or_intror
                 (or_introl eq_refl)))))).
    + apply js_lt_value; [reads | exact Hb1].
    + exact Hb.
  - eapply (Hin _ _ _
              (or_intror (or_intror (or_intror (or_intror (or_intror
                 (or_introl eq_refl))))))).
    + apply js_not_value; [reads | exact Hv].
    + now rewrite Hb.
Qed.




(** *** Assignments to [currentConfig.section.key] *)

Lemma lookup_set_prop_same o k v : lookup (set_prop o k v) k = Some v.
Proof.
  induction o as [|[k' v'] o IH]; simpl.
  - now rewrite String.eqb_refl.
  - destruct (String.eqb k' k) eqn:E; simpl; now rewrite E.
Qed.

Lemma lookup_set_prop_other o k v k' :
  k' <> k -> lookup (set_prop o k v) k' = lookup o k'.
Proof.
  intros Hne. induction o as [|[k0 v0] o IH]; simpl.
  - destruct (String.eqb_spec k k'); congruence.
  - destruct (String.eqb_spec k0 k) as [->|Hk]; simpl.
    + destruct (String.eqb_spec k k'); congruence.
    + now rewrite IH.
Qed.

Lemma get_member_written st l o k v x k' :
  nth_error (store st) l = Some o ->
  k' <> k ->
  fst (get_member x k' (written st l o k v)) = fst (get_member x k' st).
Proof.
  intros Hl Hne. destruct x as [ | | b | n | s | a | l']; try reflexivity.
  unfold get_member, bind, read_obj. simpl store.
  destruct (Nat.eq_dec l l') as [<-|Hll].
  - rewrite nth_error_update_same, Hl;
      [|apply nth_error_Some; congruence].
    rewrite lookup_set_prop_other; auto.
    destruct (lookup o k'); [reflexivity|].
    destruct (inherited k'); reflexivity.
  - rewrite nth_error_update_other; auto.
    destruct (nth_error (store st) l') as [o'|]; [|reflexivity].
    destruct (lookup o' k'); [reflexivity|].
    destruct (inherited k'); reflexivity.
Qed.

Lemma get_member_written_same st l o k v :
  nth_error (store st) l = Some o ->
  fst (get_member (VObj l) k (written st l o k v)) = Normal v.
Proof.
  intros Hl. unfold get_member, bind, read_obj. simpl store.
  rewrite nth_error_update_same; [|apply nth_error_Some; congruence].
  now rewrite lookup_set_prop_same.
Qed.

Lemma current_eq st s k :
  current st s k
  = match fst (get_member (VObj (currentConfig st)) s st) with
    | Normal x => fst (get_member x k st)
    | Abrupt e => Abrupt e
    | Beyond => Beyond
    end.
Proof.
  unfold current, member2, bind.
  rewrite (reader_run st (reader_get_member (VObj (currentConfig st)) s)).
  destruct (fst (get_member (VObj (currentConfig st)) s st)); reflexivity.
Qed.

Lemma current_written st l o k v s' k' :
  nth_error (store st) l = Some o ->
  s' <> k -> k' <> k ->
  current (written st l o k v) s' k' = current st s' k'.
Proof.
  intros Hl Hs Hk. rewrite !current_eq.
  change (currentConfig (written st l o k v)) with (currentConfig st).
  rewrite (@get_member_written st l o k v (VObj (currentConfig st)) s' Hl Hs).
  destruct (fst (get_member (VObj (currentConfig st)) s' st)); auto.
  now apply get_member_written.
Qed.

Lemma current_written_same st l o k v s :
  nth_error (store st) l = Some o ->
  s <> k ->
  fst (get_member (VObj (currentConfig st)) s st) = Normal (VObj l) ->
  current (written st l o k v) s k = Normal v.
Proof.
  intros Hl Hs Hg. rewrite current_eq.
  change (currentConfig (written st l o k v)) with (currentConfig st).
  rewrite (@get_member_written st l o k v (VObj (currentConfig st)) s Hl Hs), Hg.
  now apply get_member_written_same.
Qed.

Lemma assign_normal s k v st st' :
  assign s k v st = (Normal tt, st') ->
  exists l o,
    fst (get_member (VObj (currentConfig st)) s st) = Normal (VObj l)
    /\ nth_error (store st) l = Some o
    /\ st' = written st l o k v.
Proof.
  unfold assign, bind, get_currentConfig.
  rewrite (reader_run st (reader_get_member (VObj (currentConfig st)) s)).
  destruct (fst (get_member (VObj (currentConfig st)) s st))
    as [x | e |] eqn:Hg; try discriminate.
  destruct x as [ | | b | n | t | a | l]; simpl; try discriminate.
  destruct (String.eqb k "__proto__"); [discriminate|].
  unfold bind, read_obj, write_obj.
  destruct (nth_error (store st) l) as [o|] eqn:Hl; [|discriminate].
  intros H. inversion H. now exists l, o.
Qed.

(** One conditional assignment: the assigned setting takes the value
    when the condition holds, and every other setting keeps its own. *)
Lemma when_assign b s k v st st' :
  when b (assign s k v) st = (Normal tt, st') ->
  s <> k ->
  current st' s k = (if b then Normal v else current st s k)
  /\ forall s' k', s' <> k -> k' <> k ->
       current st' s' k' = current st s' k'.
Proof.
  intros H Hs. destruct b; simpl in H.
  - apply assign_normal in H. destruct H as (l & o & Hg & Hl & ->).
    split; [now apply current_written_same|].
    intros s' k' Hs' Hk'. now apply current_written.
  - inversion H; subst. auto.
Qed.

Lemma bind_normal {A B} (m : M A) (f : A -> M B) st b st' :
  bind m f st = (Normal b, st') ->
  exists a st1, m st = (Normal a, st1) /\ f a st1 = (Normal b, st').
Proof.
  unfold bind. destruct (m st) as [[a|e|] st1]; try discriminate.
  intros H. now exists a, st1.
Qed.

Lemma when_when a b (m : M unit) : when a (when b m) = when (a && b) m.
Proof. destruct a; reflexivity. Qed.

Lemma when_seq b (m1 m2 : M unit) st st' :
  when b (m1 ;;; m2) st = (Normal tt, st') ->
  exists st1, when b m1 st = (Normal tt, st1)
              /\ when b m2 st1 = (Normal tt, st').
Proof.
  destruct b; simpl.
  - intros H. apply bind_normal in H. destruct H as ([] & st1 & H1 & H2).
    now exists st1.
  - intros H. inversion H; subst. now exists st'.
Qed.

Lemma assign_parsed_when parse x s k :
  assign_parsed parse x s k
  = when (is_set x && negb (isNaN (parse (str (get_or_empty x)))))
      (assign s k (VNum (parse (str (get_or_empty x))))).
Proof. unfold assign_parsed. cbv zeta. apply when_when. Qed.

Ltac frame_back :=
  repeat match goal with
         | F : forall s' k', _ -> _ -> current ?x s' k' = _
           |- context [current ?x _ _] => rewrite F by discriminate
         end.

Lemma loadFromEnvironment_applied env st st' :
  loadFromEnvironment env st = (Normal tt, st') ->
  environment_applied env st st'.
Proof.
  unfold loadFromEnvironment. rewrite !assign_parsed_when. intros H.
  apply bind_normal in H. destruct H as ([] & s1 & H1 & H).
  apply bind_normal in H. destruct H as ([] & s2 & H2 & H).
  apply bind_normal in H. destruct H as ([] & s3 & H3 & H).
  apply bind_normal in H. destruct H as ([] & s5 & H4 & H).
  apply when_seq in H4. destruct H4 as (s4 & H4 & H5).
  apply bind_normal in H. destruct H as ([] & s6 & H6 & H7).
  apply when_assign in H1; [|discriminate]. destruct H1 as [V1 F1].
  apply when_assign in H2; [|discriminate]. destruct H2 as [V2 F2].
  apply when_assign in H3; [|discriminate]. destruct H3 as [V3 F3].
  apply when_assign in H4; [|discriminate]. destruct H4 as [V4 F4].
  apply when_assign in H5; [|discriminate]. destruct H5 as [V5 F5].
  apply when_assign in H6; [|discriminate]. destruct H6 as [V6 F6].
  apply when_assign in H7; [|discriminate]. destruct H7 as [V7 F7].
  unfold environment_applied, overridden.
  repeat split.
  - frame_back. rewrite V1. reflexivity.
  - frame_back. rewrite V2. frame_back. reflexivity.
  - frame_back. rewrite V3. frame_back. reflexivity.
  - frame_back. rewrite V4. frame_back. reflexivity.
  - frame_back. rewrite V5. frame_back. reflexivity.
  - frame_back. rewrite V6. frame_back. reflexivity.
  - rewrite V7. frame_back. reflexivity.
Qed.



(** [AI_TEMPERATURE=abc] does not parse and leaves the temperature as it
    was. *)
Lemma unparsable_temperature_ignored prior :
  overridden parseFloat (only "AI_TEMPERATURE" "abc" "AI_TEMPERATURE") prior
  = prior.
Proof. reflexivity. Qed.


(** *** Saving *)

(** C9 at a failing input.  After [updateConfig("security.tokens",
    "secret")] the live configuration holds the token; a successful
    [saveConfigToFile] writes a document whose [security] has neither
    [tokens] nor [credentials], and leaves the live configuration
    without the token as well: the deletion meant for the snapshot
    reaches the shared [security] object. *)
Theorem save_deletes_live_tokens :
  let st := snd (updateConfig "security.tokens" (VStr "secret")
                   load_module) in
  let r := saveConfigToFile None st in
  current st "security" "tokens" = Normal (VStr "secret")
  /\ (exists fields sec,
        fst r = Normal (true, Some (JObj fields))
        /\ jlookup fields "security" = Some (JObj sec)
        /\ jlookup sec "tokens" = None
        /\ jlookup sec "credentials" = None)
  /\ current (snd r) "security" "tokens" = Normal VUndefined.
Proof.
  cbv zeta. split; [vm_compute; reflexivity|].
  split; [|vm_compute; reflexivity].
  do 2 eexists. split; [vm_compute; reflexivity|].
  repeat split; vm_compute; reflexivity.
Qed.

End ConfigFacts.

(** ** The deep merge *)

Module MergeFacts.
Import JSNum JS Configuration StoreFacts ConfigFacts.

(** Induction on documents, through the fields of objects. *)
Lemma json_fields_ind (P : json -> Prop) :
  P JNull -> (forall b, P (JBool b)) -> (forall q, P (JNum q)) ->
  (forall s, P (JStr s)) -> (forall items, P (JArr items)) ->
  (forall fields, Forall (fun kv => P (snd kv)) fields -> P (JObj fields)) ->
  forall j, P j.
Proof.
  intros Hnull Hbool Hnum Hstr Harr Hobj.
  fix IH 1. intros [ | b | q | s | items | fields];
    [apply Hnull | apply Hbool | apply Hnum | apply Hstr | apply Harr |].
  apply Hobj. induction fields as [|[k v] fs IHfs];
    constructor; [apply IH | exact IHfs].
Qed.

(** *** Facts on [repr] *)

Lemma repr_valid h v j fp :
  repr h v j fp -> forall l, In l fp -> l < List.length h.
Proof.
  intros H.
  induction H using repr_mut
    with (P0 := fun o fs fp => forall l, In l fp -> l < List.length h);
    try (intros l' Hl'; contradiction).
  - intros l' [<-|Hl'].
    + apply nth_error_Some. congruence.
    + auto.
  - intros l' Hl'. apply in_app_or in Hl'. destruct Hl'; auto.
Qed.

Lemma repr_props_valid h o fs fp :
  repr_props h o fs fp -> forall l, In l fp -> l < List.length h.
Proof.
  intros H.
  induction H using repr_props_mut
    with (P := fun v j fp => forall l, In l fp -> l < List.length h);
    try (intros l' Hl'; contradiction).
  - intros l' [<-|Hl'].
    + apply nth_error_Some. congruence.
    + auto.
  - intros l' Hl'. apply in_app_or in Hl'. destruct Hl'; auto.
Qed.

(** A document in the store stays what it was as long as its own
    objects are not written. *)
Lemma repr_frame h v j fp :
  repr h v j fp ->
  forall h', (forall l, In l fp -> nth_error h' l = nth_error h l) ->
  repr h' v j fp.
Proof.
  intros H.
  induction H using repr_mut
    with (P0 := fun o fs fp =>
            forall h', (forall l, In l fp -> nth_error h' l = nth_error h l) ->
            repr_props h' o fs fp);
    intros h' Hsame; econstructor;
    try (rewrite Hsame by auto with datatypes);
    eauto 6 with datatypes.
Qed.

Lemma repr_props_frame h o fs fp :
  repr_props h o fs fp ->
  forall h', (forall l, In l fp -> nth_error h' l = nth_error h l) ->
  repr_props h' o fs fp.
Proof.
  intros H.
  induction H using repr_props_mut
    with (P := fun v j fp =>
            forall h', (forall l, In l fp -> nth_error h' l = nth_error h l) ->
            repr h' v j fp);
    intros h' Hsame; econstructor;
    try (rewrite Hsame by auto with datatypes);
    eauto 6 with datatypes.
Qed.

Lemma repr_truthy h v j fp : repr h v j fp -> truthy v = json_truthy j.
Proof. intros H. destruct H; reflexivity. Qed.

Lemma repr_value_of_json h j :
  is_object j = false -> repr h (value_of_json j) j [].
Proof. destruct j; simpl; try discriminate; constructor. Qed.

(** *** Replacing the value at one key of an object *)

(** The footprint of an object's properties splits into the tree under
    key [k] and the rest; a new tree can be put under [k] as long as the
    rest is left alone and is disjoint from it. *)
Lemma replace_prop h o T fp :
  repr_props h o T fp ->
  forall k,
  exists fpk fprest,
    (forall l, In l fp <-> In l fpk \/ In l fprest)
    /\ (forall l, In l fpk -> ~ In l fprest)
    /\ match lookup o k with
       | Some v => exists j, jlookup T k = Some j /\ repr h v j fpk
       | None => jlookup T k = None /\ fpk = []
       end
    /\ forall h' v' j' fpk',
         repr h' v' j' fpk' ->
         (forall l, In l fprest -> nth_error h' l = nth_error h l) ->
         (forall l, In l fpk' -> ~ In l fprest) ->
         exists fp',
           repr_props h' (set_prop o k v') (jset T k j') fp'
           /\ (forall l, In l fp' <-> In l fpk' \/ In l fprest).
Proof.
  induction 1 as [|k0 v j o fs fp1 fp2 Hv Ho IH Hd]; intros k.
  - exists [], []. split; [simpl; tauto|]. split; [auto|].
    split; [simpl; auto|].
    intros h' v' j' fpk' Hr _ _. exists (fpk' ++ []). split.
    + simpl. apply repr_props_cons; auto. constructor.
    + intros l. rewrite app_nil_r. simpl. tauto.
  - simpl. destruct (String.eqb k0 k) eqn:E.
    + exists fp1, fp2. split; [intros l; apply in_app_iff|].
      split; [exact Hd|]. split; [now exists j|].
      intros h' v' j' fpk' Hr Hsame Hdis. exists (fpk' ++ fp2). split.
      * apply repr_props_cons; auto.
        now apply (repr_props_frame Ho).
      * intros l. apply in_app_iff.
    + destruct (IH k) as (fpk & fprest & Hsplit & Hdk & Hlook & Hrep).
      exists fpk, (fp1 ++ fprest).
      split.
      { intros l. rewrite !in_app_iff, Hsplit. tauto. }
      split.
      { intros l Hl Hin. apply in_app_or in Hin. destruct Hin as [Hin|Hin].
        - apply (Hd l Hin). apply Hsplit. now left.
        - exact (Hdk l Hl Hin). }
      split; [exact Hlook|].
      intros h' v' j' fpk' Hr Hsame Hdis.
      destruct (Hrep h' v' j' fpk' Hr) as (fp' & Hp' & Hfp').
      { intros l Hl. apply Hsame. apply in_or_app. now right. }
      { intros l Hl Hin. apply (Hdis l Hl). apply in_or_app. now right. }
      exists (fp1 ++ fp'). split.
      * apply repr_props_cons; auto.
        -- apply (repr_frame Hv). intros l Hl. apply Hsame.
           apply in_or_app. now left.
        -- intros l Hl Hin. apply Hfp' in Hin. destruct Hin as [Hin|Hin].
           ++ apply (Hdis l Hin). apply in_or_app. now left.
           ++ apply (Hd l Hl). apply Hsplit. now right.
      * intros l. rewrite !in_app_iff, Hfp'. tauto.
Qed.

Lemma set_prop_same o k v : lookup o k = Some v -> set_prop o k v = o.
Proof.
  induction o as [|[k0 v0] o IH]; simpl; [discriminate|].
  destruct (String.eqb k0 k) eqn:E.
  - intros H; inversion H; now subst.
  - intros H. now rewrite IH.
Qed.

Lemma jset_same T k j : jlookup T k = Some j -> jset T k j = T.
Proof.
  induction T as [|[k0 j0] T IH]; simpl; [discriminate|].
  destruct (String.eqb k0 k) eqn:E.
  - intros H; inversion H; now subst.
  - intros H. now rewrite IH.
Qed.

(** *** Reads and writes on an object of the store *)

Lemma get_member_obj st l o k x st' :
  nth_error (store st) l = Some o ->
  get_member (VObj l) k st = (Normal x, st') ->
  st' = st
  /\ x = match lookup o k with Some y => y | None => VUndefined end.
Proof.
  intros Hl. unfold get_member, bind, read_obj. rewrite Hl.
  destruct (lookup o k) as [y|].
  - intros H; inversion H; auto.
  - destruct (inherited k); intros H; inversion H; auto.
Qed.

Lemma set_member_obj st l o k x st' :
  nth_error (store st) l = Some o ->
  set_member (VObj l) k x st = (Normal tt, st') ->
  st' = written st l o k x.
Proof.
  intros Hl. unfold set_member.
  destruct (String.eqb k "__proto__"); [discriminate|].
  unfold bind, read_obj, write_obj. rewrite Hl.
  intros H; inversion H; reflexivity.
Qed.

Lemma merge_key_nonobject target k sv :
  is_object sv = false ->
  merge_key target k sv = set_member target k (value_of_json sv).
Proof. destruct sv; simpl; try discriminate; reflexivity. Qed.

Lemma merge_key_object target k sub :
  merge_key target k (JObj sub)
  = bind (get_member target k) (fun tv =>
      bind (when (negb (truthy tv))
              (bind (alloc []) (fun fresh => set_member target k fresh)))
        (fun _ =>
           bind (get_member target k) (fun tv' => deepMerge tv' sub))).
Proof. reflexivity. Qed.

(** Merging into a truthy value that is not an object stays inside the
    embedding only when there is nothing to merge. *)
Lemma deepMerge_primitive tv sub st st' :
  (forall l, tv <> VObj l) -> truthy tv = true ->
  deepMerge tv sub st = (Normal tt, st') ->
  sub = [] /\ st' = st.
Proof.
  intros Hno Ht. destruct sub as [|[k sv] sub].
  - intros H; inversion H; auto.
  - unfold deepMerge. simpl for_in. intros H.
    apply bind_normal in H. destruct H as ([] & st1 & H & _).
    exfalso. destruct sv; destruct tv; simpl in Ht; try discriminate;
      try discriminate H; try (now apply (Hno l)).
Qed.

(** *** The merge, on the store *)

Lemma deepMerge_ok_fields S :
  Forall (fun kv => merge_key_ok (snd kv)) S -> deepMerge_ok S.
Proof.
  induction 1 as [|[k sv] S Hk _ IH]; intros st l T fp st' Hh Hm.
  - inversion Hm; subst st'. split; [|split; auto].
    exists fp. split; auto.
  - unfold deepMerge in Hm. simpl for_in in Hm.
    apply bind_normal in Hm. destruct Hm as ([] & st1 & Hm1 & Hm2).
    destruct (Hk st l T fp k st1 Hh Hm1)
      as ((fp1 & Hh1 & Hfresh1) & Hframe1 & Hlen1).
    destruct (IH st1 l _ fp1 st' Hh1 Hm2)
      as ((fp2 & Hh2 & Hfresh2) & Hframe2 & Hlen2).
    split; [|split].
    + exists fp2. split; [exact Hh2|].
      intros l' Hl'. destruct (Hfresh2 l' Hl') as [Hin|Hge].
      * apply Hfresh1, Hin.
      * right. lia.
    + intros l' Hlt Hne Hnin. rewrite Hframe2; auto; try lia.
      intros Hin. destruct (Hfresh1 l' Hin); [contradiction | lia].
    + lia.
Qed.

Lemma merge_key_ok_nonobject sv : is_object sv = false -> merge_key_ok sv.
Proof.
  intros Hno st l T fp k st' (o & Hl & Ho & Hnin) Hm.
  rewrite merge_key_nonobject in Hm by assumption.
  pose proof (@set_member_obj st l o k (value_of_json sv) st' Hl Hm).
  subst st'.
  assert (Hlt : l < List.length (store st)).
  { apply nth_error_Some. congruence. }
  destruct (replace_prop Ho k) as (fpk & fprest & Hsplit & _ & _ & Hrep).
  destruct (Hrep (update_nth l (set_prop o k (value_of_json sv)) (store st))
              (value_of_json sv) sv []
              (@repr_value_of_json _ sv Hno))
    as (fp' & Hp' & Hfp').
  { intros l' Hl'. apply nth_error_update_other.
    intros <-. apply Hnin, Hsplit. now right. }
  { intros l' []. }
  assert (Hmv : merged_value (jlookup T k) sv = sv).
  { destruct sv; try reflexivity; discriminate. }
  rewrite Hmv. split; [|split].
  - exists fp'. split.
    + exists (set_prop o k (value_of_json sv)). simpl store.
      split; [now apply nth_error_update_same|]. split; [exact Hp'|].
      intros Hin. apply Hfp' in Hin. destruct Hin as [[]|Hin].
      apply Hnin, Hsplit. now right.
    + intros l' Hin. apply Hfp' in Hin. destruct Hin as [[]|Hin].
      left. apply Hsplit. now right.
  - intros l' _ Hne _. simpl store. now apply nth_error_update_other.
  - simpl store. now rewrite update_nth_length.
Qed.

Lemma repr_nonobject h v j fp :
  repr h v j fp -> (forall l, v <> VObj l) ->
  is_object j = false /\ fp = [].
Proof. intros H Hno. destruct H; auto. now destruct (Hno l). Qed.

Lemma merged_value_empty j :
  is_object j = false -> json_truthy j = true ->
  merged_value (Some j) (JObj []) = j.
Proof. destruct j; simpl; try discriminate; intros _ H; now rewrite ?H. Qed.

Lemma merged_value_falsy j sub :
  json_truthy j = false ->
  merged_value (Some j) (JObj sub) = JObj (merged [] sub).
Proof. destruct j; simpl; try discriminate; intros H; now rewrite ?H. Qed.

Lemma merge_post_refl st l T fp :
  holds st l T fp -> merge_post st l fp T st.
Proof.
  intros H. split; [|split; auto]. exists fp. split; auto.
Qed.

Lemma merge_key_ok_object sub : deepMerge_ok sub -> merge_key_ok (JObj sub).
Proof.
  intros Hsub st l T fp k st' Hh Hm.
  assert (Hh0 := Hh). destruct Hh as (o & Hl & Ho & Hnin).
  rewrite merge_key_object in Hm.
  apply bind_normal in Hm. destruct Hm as (tv & st1 & Hg & Hm).
  destruct (@get_member_obj st l o k tv st1 Hl Hg) as [-> Htv].
  apply bind_normal in Hm. destruct Hm as ([] & st2 & Hw & Hm).
  apply bind_normal in Hm. destruct Hm as (tv' & st3 & Hg' & Hm).
  assert (Hlt : l < List.length (store st)).
  { apply nth_error_Some. congruence. }
  assert (Hvalid := repr_props_valid Ho).
  destruct (replace_prop Ho k) as (fpk & fprest & Hsplit & Hdk & Hlook & Hrep).
  destruct (truthy tv) eqn:Ht; simpl in Hw.
  - (* the target holds a truthy value at the key *)
    inversion Hw; subst st2; clear Hw.
    destruct (@get_member_obj st l o k tv' st3 Hl Hg') as [-> Htv'].
    assert (Heq : tv' = tv) by congruence. clear Htv' Hg'. subst tv'.
    destruct (lookup o k) as [y|] eqn:Hlk; [|subst tv; discriminate Ht].
    subst y. destruct Hlook as (j & Hj & Hr). rewrite Hj.
    destruct (match tv with VObj _ => true | _ => false end) eqn:Hobj.
    + (* an object: the merge recurses into it *)
      destruct tv as [ | | | | | | l1]; try discriminate. clear Hobj Ht.
      inversion Hr as [ | | | | | l1' o1 tsub fp1 Hl1 Ho1 Hn1]; subst.
      assert (Hin1 : forall l', In l' (l1 :: fp1) -> In l' fp).
      { intros l' Hl'. apply Hsplit. now left. }
      destruct (Hsub st l1 tsub fp1 st') as ((fp1' & Hh1 & Hfresh1) & Hframe1 & Hlen1);
        [now exists o1 | exact Hm |].
      destruct Hh1 as (o1' & Hl1' & Ho1' & Hn1').
      destruct (Hrep (store st') (VObj l1) (JObj (merged tsub sub))
                  (l1 :: fp1')) as (fp' & Hp' & Hfp').
      { now apply repr_obj with (o := o1'). }
      { intros l' Hl'. apply Hframe1.
        - apply Hvalid, Hsplit. now right.
        - intros ->. apply (Hdk l1); [now left | exact Hl'].
        - intros Hin. apply (Hdk l'); [now right | exact Hl']. }
      { intros l' [<-|Hin] Hrest.
        - apply (Hdk l1); [now left | exact Hrest].
        - destruct (Hfresh1 l' Hin) as [Hold|Hnew].
          + apply (Hdk l'); [now right | exact Hrest].
          + assert (l' < List.length (store st)); [|lia].
            apply Hvalid, Hsplit. now right. }
      rewrite (@set_prop_same o k (VObj l1) Hlk) in Hp'.
      simpl merged_value. fold (merged tsub sub).
      assert (Hne : l <> l1).
      { intros ->. apply Hnin, Hin1. now left. }
      split; [|split].
      * exists fp'. split.
        -- exists o. split; [|split; [exact Hp'|]].
           ++ rewrite Hframe1; auto.
              intros Hin. apply Hnin, Hin1. now right.
           ++ intros Hin. apply Hfp' in Hin.
              destruct Hin as [[Heq|Hin]|Hin].
              ** now apply Hne.
              ** destruct (Hfresh1 l Hin) as [Hold|Hnew]; [|lia].
                 apply Hnin, Hin1. now right.
              ** apply Hnin, Hsplit. now right.
        -- intros l' Hin. apply Hfp' in Hin.
           destruct Hin as [[<-|Hin]|Hin].
           ++ left. apply Hin1. now left.
           ++ destruct (Hfresh1 l' Hin) as [Hold|Hnew]; [|now right].
              left. apply Hin1. now right.
           ++ left. apply Hsplit. now right.
      * intros l' Hlt' Hne' Hnin'. apply Hframe1; auto.
        -- intros ->. apply Hnin', Hin1. now left.
        -- intros Hin. apply Hnin', Hin1. now right.
      * exact Hlen1.
    + (* not an object: nothing to merge *)
      assert (Hno : forall l1, tv <> VObj l1).
      { intros l1 ->. discriminate. }
      destruct (@deepMerge_primitive tv sub st st' Hno Ht Hm) as [-> ->].
      destruct (@repr_nonobject _ tv j fpk Hr Hno) as [Hj1 _].
      rewrite merged_value_empty; auto.
      * rewrite (@jset_same T k j Hj). now apply merge_post_refl.
      * now rewrite <- (@repr_truthy _ tv j fpk Hr).
  - (* nothing, or a falsy value: a fresh object is installed *)
    set (n := List.length (store st)) in *.
    apply bind_normal in Hw. destruct Hw as (fresh & sta & Ha & Hs).
    unfold alloc in Ha. inversion Ha; subst fresh sta; clear Ha.
    fold n in Hs.
    assert (Hla : nth_error (store (set_store st (store st ++ [[]]))) l
                  = Some o).
    { simpl store. rewrite nth_error_app1; auto. }
    pose proof (@set_member_obj _ l o k (VObj n) st2 Hla Hs). subst st2.
    clear Hs.
    set (hb := update_nth l (set_prop o k (VObj n)) (store st ++ [[]])) in *.
    assert (Hlb : nth_error hb l = Some (set_prop o k (VObj n))).
    { unfold hb. apply nth_error_update_same.
      rewrite length_app. simpl. lia. }
    assert (Hlenb : List.length hb = S n).
    { unfold hb. rewrite update_nth_length, length_app. simpl. lia. }
    assert (Hnb : nth_error hb n = Some []).
    { unfold hb. rewrite nth_error_update_other by lia.
      rewrite nth_error_app2 by lia. unfold n. now rewrite Nat.sub_diag. }
    destruct (@get_member_obj
                (written (set_store st (store st ++ [[]])) l o k (VObj n))
                l (set_prop o k (VObj n)) k tv' st3 Hlb Hg') as [-> Htv'].
    rewrite lookup_set_prop_same in Htv'. subst tv'.
    destruct (Hsub (written (set_store st (store st ++ [[]])) l o k (VObj n))
                n [] [] st')
      as ((fpn & Hhn & Hfreshn) & Hframen & Hlenn);
      [exists []; split; [exact Hnb | split; [constructor | auto]]
      | exact Hm |].
    simpl store in Hframen, Hlenn, Hfreshn. fold hb in Hframen, Hlenn, Hfreshn.
    rewrite Hlenb in Hframen, Hlenn, Hfreshn.
    destruct Hhn as (on' & Hln' & Hon' & Hnn').
    destruct (Hrep (store st') (VObj n) (JObj (merged [] sub)) (n :: fpn))
      as (fp' & Hp' & Hfp').
    { now apply repr_obj with (o := on'). }
    { intros l' Hl'.
      assert (Hl'lt : l' < n) by (apply Hvalid, Hsplit; now right).
      rewrite Hframen; auto; try lia.
      unfold hb. rewrite nth_error_update_other.
      - now apply nth_error_app1.
      - intros <-. apply Hnin, Hsplit. now right. }
    { intros l' Hin Hrest.
      assert (Hl'lt : l' < n) by (apply Hvalid, Hsplit; now right).
      destruct Hin as [<-|Hin]; [lia|].
      destruct (Hfreshn l' Hin) as [[]|Hge]. lia. }
    assert (Hmv : merged_value (jlookup T k) (JObj sub)
                  = JObj (merged [] sub)).
    { destruct (lookup o k) as [y|] eqn:Hlk.
      - subst y. destruct Hlook as (j & Hj & Hr). rewrite Hj.
        apply merged_value_falsy.
        now rewrite <- (@repr_truthy _ tv j fpk Hr).
      - destruct Hlook as [Hj _]. now rewrite Hj. }
    rewrite Hmv. split; [|split].
    + exists fp'. split.
      * exists (set_prop o k (VObj n)). split; [|split; [exact Hp'|]].
        -- rewrite Hframen; auto; lia.
        -- intros Hin. apply Hfp' in Hin.
           destruct Hin as [[Heq|Hin]|Hin].
           ++ lia.
           ++ destruct (Hfreshn l Hin) as [[]|Hge]. lia.
           ++ apply Hnin, Hsplit. now right.
      * intros l' Hin. apply Hfp' in Hin.
        destruct Hin as [[<-|Hin]|Hin].
        -- right. lia.
        -- destruct (Hfreshn l' Hin) as [[]|Hge]. right. lia.
        -- left. apply Hsplit. now right.
    + intros l' Hlt' Hne' Hnin'. rewrite Hframen; auto; try lia.
      unfold hb. rewrite nth_error_update_other by auto.
      now apply nth_error_app1.
    + lia.
Qed.

Theorem merge_key_always_ok sv : merge_key_ok sv.
Proof.
  induction sv as [ | b | q | s | items | fields IH] using json_fields_ind;
    try (apply merge_key_ok_nonobject; reflexivity).
  apply merge_key_ok_object. now apply deepMerge_ok_fields.
Qed.

Theorem deepMerge_always_ok S : deepMerge_ok S.
Proof.
  apply deepMerge_ok_fields. apply Forall_forall.
  intros kv _. apply merge_key_always_ok.
Qed.

(** *** What the pure merge gives at each key *)

Lemma jlookup_jset_same T k j : jlookup (jset T k j) k = Some j.
Proof.
  induction T as [|[k0 j0] T IH]; simpl.
  - now rewrite String.eqb_refl.
  - destruct (String.eqb k0 k) eqn:E; simpl; now rewrite E.
Qed.

Lemma jlookup_jset_other T k j k' :
  k' <> k -> jlookup (jset T k j) k' = jlookup T k'.
Proof.
  intros Hne. induction T as [|[k0 j0] T IH]; simpl.
  - destruct (String.eqb_spec k k'); congruence.
  - destruct (String.eqb_spec k0 k) as [->|Hk]; simpl.
    + destruct (String.eqb_spec k k'); congruence.
    + now rewrite IH.
Qed.

Lemma merged_untouched S : forall T k,
  ~ In k (map fst S) -> jlookup (merged T S) k = jlookup T k.
Proof.
  induction S as [|[k0 sv0] S IH]; intros T k Hk; [reflexivity|].
  unfold merged. simpl. fold (merged (jset T k0 (merged_value (jlookup T k0) sv0)) S).
  rewrite IH.
  - apply jlookup_jset_other. intros ->. apply Hk. now left.
  - intros Hin. apply Hk. now right.
Qed.

Lemma merged_at S : forall T k sv,
  NoDup (map fst S) -> In (k, sv) S ->
  jlookup (merged T S) k = Some (merged_value (jlookup T k) sv).
Proof.
  induction S as [|[k0 sv0] S IH]; intros T k sv Hnd Hin; [contradiction|].
  simpl in Hnd. inversion Hnd as [|? ? Hk0 Hnd']; subst.
  unfold merged. simpl.
  fold (merged (jset T k0 (merged_value (jlookup T k0) sv0)) S).
  destruct Hin as [Heq|Hin].
  - inversion Heq; subst k0 sv0.
    rewrite merged_untouched by assumption.
    apply jlookup_jset_same.
  - rewrite (IH _ k sv Hnd' Hin).
    rewrite jlookup_jset_other; [reflexivity|].
    intros ->. apply Hk0. apply (in_map fst) in Hin. exact Hin.
Qed.

(** The merge writes to the store only: the variable [currentConfig]
    keeps pointing to the same object. *)
Lemma set_member_currentConfig target k x st st' :
  set_member target k x st = (Normal tt, st') ->
  currentConfig st' = currentConfig st.
Proof.
  destruct target; simpl; try discriminate.
  destruct (String.eqb k "__proto__"); try discriminate.
  unfold bind, read_obj, write_obj.
  destruct (nth_error (store st) l); intros H; inversion H; reflexivity.
Qed.

Lemma get_member_same target k x st st' :
  get_member target k st = (Normal x, st') -> st' = st.
Proof.
  intros H. pose proof (reader_get_member target k st) as Hr.
  rewrite H in Hr. exact Hr.
Qed.

Lemma for_in_currentConfig body S :
  Forall (fun kv => forall st st',
            body (fst kv) (snd kv) st = (Normal tt, st') ->
            currentConfig st' = currentConfig st) S ->
  forall st st',
    for_in body S st = (Normal tt, st') ->
    currentConfig st' = currentConfig st.
Proof.
  induction 1 as [|[k sv] S Hx _ IH]; intros st st' H.
  - inversion H; reflexivity.
  - simpl for_in in H.
    apply bind_normal in H. destruct H as ([] & s & H1 & H2).
    rewrite (IH _ _ H2). exact (Hx _ _ H1).
Qed.

Lemma merge_key_currentConfig sv : forall target k st st',
  merge_key target k sv st = (Normal tt, st') ->
  currentConfig st' = currentConfig st.
Proof.
  induction sv as [ | b | q | s | items | fields IH] using json_fields_ind;
    intros target k st st' H;
    try (rewrite merge_key_nonobject in H by reflexivity;
         exact (set_member_currentConfig _ _ _ _ H)).
  rewrite merge_key_object in H.
  apply bind_normal in H. destruct H as (tv & s1 & Hg & H).
  apply get_member_same in Hg. subst s1.
  apply bind_normal in H. destruct H as ([] & s2 & Hw & H).
  apply bind_normal in H. destruct H as (tv' & s3 & Hg' & H).
  apply get_member_same in Hg'. subst s3.
  assert (H2 : currentConfig s2 = currentConfig st).
  { destruct (negb (truthy tv)); simpl in Hw.
    - apply bind_normal in Hw. destruct Hw as (fr & sa & Ha & Hs).
      inversion Ha; subst fr sa; clear Ha.
      exact (set_member_currentConfig _ _ _ _ Hs).
    - inversion Hw; reflexivity. }
  rewrite <- H2. unfold deepMerge in H.
  apply (@for_in_currentConfig (merge_key tv') fields); [|exact H].
  apply Forall_forall. intros [k1 sv1] Hin s s' Hs. simpl in Hs.
  rewrite Forall_forall in IH. exact (IH _ Hin _ _ _ _ Hs).
Qed.

Lemma deepMerge_currentConfig S target st st' :
  deepMerge target S st = (Normal tt, st') ->
  currentConfig st' = currentConfig st.
Proof.
  apply for_in_currentConfig. apply Forall_forall.
  intros [k sv] _ s s' Hs. exact (merge_key_currentConfig _ _ _ _ Hs).
Qed.



End MergeFacts.

(** ** Trigger detection: what the detector answers, and when *)

Module DetectionFacts.
Import Regex RegexFacts TriggerDetection TriggerFacts.

(** An input from which a trigger is detected carries a non-empty
    text. *)
Lemma detect_some_carries i tr :
  detectTrigger i = Some tr ->
  exists t, carries i t /\ t <> [] /\ detect_text t = Some tr.
Proof.
  unfold detectTrigger, detect_body.
  destruct i as [s | | | f]; simpl.
  - destruct s as [|c s]; [discriminate|].
    intros H. exists (c :: s). split; [now left|]. split; [discriminate|exact H].
  - discriminate.
  - discriminate.
  - destruct (truthy f) eqn:Hf; simpl; [|discriminate].
    rewrite Hf. simpl.
    destruct f as [ | | b | n | t | ]; try discriminate.
    intros H. exists t. split; [now right|].
    split; [destruct t; [discriminate|discriminate] | exact H].
Qed.

(** The leftmost match of the issue-URL pattern, read as an issue. *)
Lemma url_search_issue t f :
  search false urlRegex [] t = Some f ->
  exists o r d,
    t = before f ++ matched f ++ after f
    /\ issue_url (matched f) o r d
    /\ groups f = [o; r; d]
    /\ first_issue_url (before f) (matched f) (after f).
Proof.
  intros Hs. apply search_sound in Hs.
  destruct Hs as (skipped & Hb & Ht & Hrun & Hleft).
  simpl in Hb. subst skipped.
  assert (Hmax := @run_url_maximal _ _ _ _ Hrun).
  destruct (run_sound _ _ _ Hrun) as [_ Hm].
  apply url_matches_inv in Hm. destruct Hm as (o & r & d & Hu & Hg).
  exists o, r, d. repeat split; auto.
  intros p1 p2 Hp Hne Hat.
  apply issue_url_at_iff, run_some_iff in Hat.
  apply Hat. now apply (Hleft p1 p2).
Qed.

Lemma issue_of_url_match u o r d :
  issue_url u o r d ->
  issue_of_match (u, [o; r; d])
  = {| issueUrl := u; owner := o; repo := r;
       issueNumber := JSNum.of_Z (JSNum.digits_val d) |}.
Proof.
  intros Hu. unfold issue_of_match. simpl.
  destruct Hu. now rewrite parseInt10_digits.
Qed.



Lemma truthy_of_Z z :
  JSNum.truthy (JSNum.of_Z z) = negb (z =? 0)%Z.
Proof. destruct z; reflexivity. Qed.

(** X2.  A single-issue request passes [validateTrigger] exactly when
    the digits of its URL do not denote zero: issue number 0 is detected
    and then rejected, its number being falsy. *)
Theorem detect_single_valid i pre u o r d post :
  carries i (pre ++ u ++ post) ->
  issue_url u o r d ->
  first_issue_url pre u post ->
  validateTrigger (detectTrigger i) = negb (JSNum.digits_val d =? 0)%Z.
Proof.
  intros Hi Hu Hf.
  rewrite (@detect_at_first_issue_url i pre u o r d post Hi Hu Hf).
  unfold validateTrigger, issue_complete. cbn [owner repo issueNumber].
  rewrite truthy_of_Z. destruct Hu as [secure o r d Ho _ Hr _ _ _].
  destruct o; [congruence|]. destruct r; [congruence|]. reflexivity.
Qed.

Lemma detect_single_valid_witness :
  validateTrigger
    (detectTrigger (InString (str "fix https://github.com/foo/bar/issues/0")))
  = false.
Proof.
  apply (@detect_single_valid
           (InString (str "fix https://github.com/foo/bar/issues/0"))
           (str "fix ") (str "https://github.com/foo/bar/issues/0")
           (str "foo") (str "bar") (str "0") []).
  - now left.
  - apply (@issue_url_intro true (str "foo") (str "bar") (str "0"));
      (discriminate || reflexivity).
  - split; [|exact I].
    intros p1 p2 Hp Hne Hat.
    apply issue_url_at_iff, run_some_iff in Hat. apply Hat.
    assert (Hs : search false urlRegex []
                   (str "fix https://github.com/foo/bar/issues/0")
                 = Some (Found (str "fix ")
                           (str "https://github.com/foo/bar/issues/0")
                           [str "foo"; str "bar"; str "0"] []))
      by (vm_compute; reflexivity).
    apply search_sound in Hs. destruct Hs as (sk & Hb & _ & _ & Hleft).
    simpl in Hb. subst sk. exact (Hleft p1 p2 Hp Hne).
Defined.

(** X3.  Whatever the input, the detector never answers with a batch
    request: a text with an issue URL is taken by the single-issue rule,
    and in a text without one the batch phrase has nothing to list. *)
Theorem detect_never_batch i l : detectTrigger i <> Some (Batch l).
Proof. apply detectTrigger_never_batch. Qed.

(** *** The repository-wide rule *)

Lemma slash_icase c : atom_match true (Chr "/") c = true -> c = "/"%char.
Proof.
  destruct c as [[] [] [] [] [] [] [] []]; vm_compute; intros H;
    (discriminate H || reflexivity).
Qed.

Lemma repo_matches_shape m cs :
  matches true repoRegex m cs ->
  exists a o r,
    cs = [o; r] /\ m = a ++ o ++ str "/" ++ r
    /\ o <> [] /\ forallb not_slash o = true
    /\ r <> [] /\ forallb not_slash_space r = true.
Proof.
  intros H.
  apply (@matches_lits_skip true (str "resolve")) in H.
  destruct H as (x1 & m1 & -> & H).
  apply matches_plus_inv in H.
  destruct H as (t1 & m2 & c2 & -> & -> & _ & _ & H).
  apply (@matches_lits_skip true (str "issue")) in H.
  destruct H as (x2 & m3 & -> & H).
  assert (Hrest : forall m4,
    matches true
      (Plus false (Cls is_space) :: lits (str "in")
       ++ [Plus false (Cls is_space); Plus true (Cls not_slash)]
       ++ lits (str "/") ++ [Plus true (Cls not_slash_space)]) m4 c2 ->
    exists a o r,
      c2 = [o; r] /\ m4 = a ++ o ++ str "/" ++ r
      /\ o <> [] /\ forallb not_slash o = true
      /\ r <> [] /\ forallb not_slash_space r = true).
  { clear. intros m4 H.
    apply matches_plus_inv in H.
    destruct H as (t1 & m5 & c5 & -> & -> & _ & _ & H).
    apply (@matches_lits_skip true (str "in")) in H.
    destruct H as (x3 & m6 & -> & H).
    apply matches_plus_inv in H.
    destruct H as (t2 & m7 & c7 & -> & -> & _ & _ & H).
    apply matches_plus_inv in H.
    destruct H as (o & m8 & c8 & -> & -> & Ho & Hao & H).
    apply matches_one_inv in H.
    destruct H as (c & m9 & -> & Hc & H).
    apply slash_icase in Hc. subst c.
    apply matches_plus_inv in H.
    destruct H as (r & m10 & c10 & -> & -> & Hr & Har & H).
    apply matches_nil_inv in H. destruct H as [-> ->].
    exists (t1 ++ x3 ++ t2), o, r.
    rewrite app_nil_r. repeat rewrite <- app_assoc.
    repeat split; auto. }
  apply matches_opt_inv in H.
  destruct H as [(c & m4 & -> & _ & H) | H]; apply Hrest in H;
    destruct H as (a & o & r & Hc & -> & Hprops).
  - exists (x1 ++ t1 ++ x2 ++ c :: a), o, r.
    split; [exact Hc|]. split; [|exact Hprops].
    repeat rewrite <- app_assoc. reflexivity.
  - exists (x1 ++ t1 ++ x2 ++ a), o, r.
    split; [exact Hc|]. split; [|exact Hprops].
    repeat rewrite <- app_assoc. reflexivity.
Qed.

Lemma detect_text_repo_wide t o r :
  detect_text t = Some (RepoWide o r) ->
  ~ contains_issue_url t /\ repo_rule t = Some (RepoWide o r).
Proof.
  unfold detect_text.
  destruct (matchAll false urlRegex t) eqn:Hm; [|discriminate].
  apply matchAll_nil_iff, no_issue_url_search in Hm.
  intros H. split; [exact Hm|].
  unfold batch_rule in H.
  destruct (search true batchRegex [] t) as [f|]; auto.
  destruct (extractIssueList (group 0 (groups f))); [auto|discriminate].
Qed.

(** X4.  A repository-wide request comes from a text without issue URL
    in which the owner and the repository stand on either side of a
    slash; the owner is non-empty and free of slashes (white space may
    occur in it), the repository is non-empty and free of slashes and of
    white space, and the request passes [validateTrigger]. *)
Theorem detect_repo_wide_sound i o r :
  detectTrigger i = Some (RepoWide o r) ->
  validateTrigger (detectTrigger i) = true
  /\ o <> [] /\ forallb not_slash o = true
  /\ r <> [] /\ forallb not_slash_space r = true
  /\ exists t a b,
       carries i t /\ ~ contains_issue_url t
       /\ t = a ++ o ++ str "/" ++ r ++ b.
Proof.
  intros H. rewrite H.
  apply detect_some_carries in H. destruct H as (t & Hc & Hne & Hd).
  apply detect_text_repo_wide in Hd. destruct Hd as [Hno Hr].
  unfold repo_rule in Hr.
  destruct (search true repoRegex [] t) as [f|] eqn:Hs; [|discriminate].
  apply search_sound in Hs.
  destruct Hs as (skipped & _ & Ht & Hrun & _).
  apply run_sound in Hrun. destruct Hrun as [_ Hm].
  apply repo_matches_shape in Hm.
  destruct Hm as (a & o' & r' & Hg & Hmm & Ho' & Hao & Hr' & Har).
  rewrite Hg in Hr. unfold group in Hr. simpl in Hr.
  assert (o' = o) by congruence. assert (r' = r) by congruence.
  subst o' r'. clear Hr.
  split.
  { simpl. destruct o; [congruence|]. destruct r; [congruence|]. reflexivity. }
  repeat (split; [assumption|]).
  exists t, (skipped ++ a), (after f).
  split; [exact Hc|]. split; [exact Hno|].
  rewrite Ht, Hmm. repeat rewrite <- app_assoc. reflexivity.
Qed.

Lemma detect_repo_wide_sound_witness :
  validateTrigger
    (detectTrigger (InString (str "Resolve Issue in my org/repo now"))) = true
  /\ str "my org" <> [] /\ forallb not_slash (str "my org") = true
  /\ str "repo" <> [] /\ forallb not_slash_space (str "repo") = true
  /\ exists t a b,
       carries (InString (str "Resolve Issue in my org/repo now")) t
       /\ ~ contains_issue_url t
       /\ t = a ++ str "my org" ++ str "/" ++ str "repo" ++ b.
Proof.
  apply (@detect_repo_wide_sound
           (InString (str "Resolve Issue in my org/repo now"))
           (str "my org") (str "repo")).
  vm_compute. reflexivity.
Defined.

(** X5.  What yields no trigger: an input that carries a text is left
    without trigger exactly when the text holds neither an issue URL nor
    the repository-wide phrase; the batch phrase alone never makes a
    trigger. *)
Theorem detect_none_iff i t :
  carries i t ->
  (detectTrigger i = None
   <-> ~ contains_issue_url t /\ ~ occurs true repoRegex t).
Proof.
  intros Hc.
  destruct t as [|c t'].
  { assert (Hd : detectTrigger i = None) by (destruct Hc as [-> | ->]; reflexivity).
    split; [intros _|auto]. split.
    - rewrite no_issue_url_search. reflexivity.
    - apply (search_none_iff true repoRegex [] []). reflexivity. }
  set (t := c :: t') in *.
  rewrite (@carries_detect i t Hc) by discriminate.
  unfold detect_text. split.
  - intros H.
    destruct (matchAll false urlRegex t) eqn:Hm; [|discriminate].
    apply matchAll_nil_iff, no_issue_url_search in Hm.
    split; [exact Hm|].
    apply (search_none_iff true repoRegex t []).
    unfold batch_rule in H.
    assert (Hr : repo_rule t = None).
    { destruct (search true batchRegex [] t) as [f|]; auto.
      destruct (extractIssueList (group 0 (groups f))); [auto|discriminate]. }
    unfold repo_rule in Hr.
    destruct (search true repoRegex [] t); [discriminate|reflexivity].
  - intros [Hno Hrepo].
    assert (Hno' := Hno).
    apply no_issue_url_search, matchAll_nil_iff in Hno. rewrite Hno.
    apply (search_none_iff true repoRegex t []) in Hrepo.
    unfold batch_rule, repo_rule. rewrite Hrepo.
    destruct (search true batchRegex [] t) as [f|] eqn:Hs; [|reflexivity].
    now rewrite (@batch_remainder_empty t f Hno' Hs).
Qed.

Lemma detect_none_iff_witness :
  detectTrigger (InString (str "please resolve issues from the tracker"))
  = None
  <-> ~ contains_issue_url (str "please resolve issues from the tracker")
      /\ ~ occurs true repoRegex (str "please resolve issues from the tracker").
Proof.
  apply (@detect_none_iff
           (InString (str "please resolve issues from the tracker"))
           (str "please resolve issues from the tracker")).
  now left.
Defined.

(** *** The list of issues of a text *)

Lemma matchAll_from_fuel icase ps : forall n m s,
  List.length s < n -> List.length s < m ->
  matchAll_from n icase ps s = matchAll_from m icase ps s.
Proof.
  induction n as [|n IH]; intros m s Hn Hm; [lia|].
  destruct m as [|m]; [lia|]. simpl.
  destruct (search icase ps [] s) as [f|] eqn:Hs; [|reflexivity].
  f_equal. apply search_sound in Hs.
  destruct Hs as (sk & _ & Ht & _ & _).
  apply (f_equal (@List.length ascii)) in Ht.
  repeat rewrite length_app in Ht.
  destruct (matched f) as [|c mt]; destruct (after f) as [|c' rest];
    try reflexivity; apply IH; simpl in *; lia.
Qed.

Lemma matchAll_step icase ps s f :
  search icase ps [] s = Some f ->
  matched f <> [] ->
  matchAll icase ps s = (matched f, groups f) :: matchAll icase ps (after f).
Proof.
  intros Hs Hne. unfold matchAll.
  change (matchAll_from (S (List.length s)) icase ps s)
    with (match search icase ps [] s with
          | None => []
          | Some f =>
              (matched f, groups f) ::
              match matched f, after f with
              | [], [] => []
              | [], _ :: rest => matchAll_from (List.length s) icase ps rest
              | _ :: _, rest => matchAll_from (List.length s) icase ps rest
              end
          end).
  rewrite Hs. f_equal.
  assert (Hlen : List.length (after f) < List.length s).
  { apply search_sound in Hs. destruct Hs as (sk & _ & Ht & _ & _).
    apply (f_equal (@List.length ascii)) in Ht.
    repeat rewrite length_app in Ht.
    destruct (matched f); [congruence | simpl in Ht; lia]. }
  destruct (matched f) as [|c mt]; [congruence|].
  apply matchAll_from_fuel; lia.
Qed.

Lemma first_issue_url_search pre u o r d post :
  issue_url u o r d ->
  first_issue_url pre u post ->
  search false urlRegex [] (pre ++ u ++ post)
  = Some (Found pre u [o; r; d] post).
Proof.
  intros Hu [Hleft Hpost].
  apply (@search_leftmost false urlRegex pre [] (u ++ post) u
           [o; r; d] post).
  - intros p1 p2 Hp Hp2.
    destruct (run false urlRegex (p2 ++ u ++ post)) eqn:Hr; auto.
    exfalso. apply (Hleft p1 p2 Hp Hp2).
    apply issue_url_at_iff, run_some_iff. congruence.
  - now apply url_run_exact.
Qed.



(** *** The repository-wide phrase *)

Lemma atom_match_icase_refl c : atom_match true (Chr c) c = true.
Proof. simpl. apply Ascii.eqb_refl. Qed.

Lemma run_lits_icase l : forall ps s,
  run true (lits l ++ ps) (l ++ s) = extend l false (run true ps s).
Proof.
  induction l as [|c l IH]; intros ps s.
  - simpl. destruct (run true ps s) as [[[m cs] r]|]; reflexivity.
  - change (run true (lits (c :: l) ++ ps) ((c :: l) ++ s))
      with (if atom_match true (Chr c) c
            then extend [c] false (run true (lits l ++ ps) (l ++ s))
            else None).
    rewrite atom_match_icase_refl, IH.
    destruct (run true ps s) as [[[m cs] r]|]; reflexivity.
Qed.

Lemma repo_phrase_run o r post :
  o <> [] -> forallb not_slash o = true ->
  match o with c :: _ => is_space c = false | [] => True end ->
  r <> [] -> forallb not_slash_space r = true ->
  match post with c :: _ => not_slash_space c = false | [] => True end ->
  run true repoRegex
    (str "resolve issues in " ++ o ++ str "/" ++ r ++ post)
  = Some (str "resolve issues in " ++ o ++ str "/" ++ r, [o; r], post).
Proof.
  intros Ho Hao Hso Hr Har Hpost.
  assert (H1 : run true [Plus true (Cls not_slash_space)] (r ++ post)
               = Some (r ++ [], [r], post)).
  { apply (@run_group_longest true (Cls not_slash_space) [] r post
             [] [] post); auto. }
  rewrite app_nil_r in H1.
  assert (H2 : run true (lits (str "/") ++ [Plus true (Cls not_slash_space)])
                 (str "/" ++ r ++ post)
               = Some (str "/" ++ r, [r], post)).
  { rewrite run_lits_icase, H1. reflexivity. }
  assert (H3 : run true
                 (Plus true (Cls not_slash)
                  :: lits (str "/") ++ [Plus true (Cls not_slash_space)])
                 (o ++ str "/" ++ r ++ post)
               = Some (o ++ str "/" ++ r, [o; r], post)).
  { apply (@run_group_longest true (Cls not_slash) _ o
             (str "/" ++ r ++ post) (str "/" ++ r) [r] post); auto.
    reflexivity. }
  assert (H4 : run true
                 (Plus false (Cls is_space) :: Plus true (Cls not_slash)
                  :: lits (str "/") ++ [Plus true (Cls not_slash_space)])
                 (str " " ++ o ++ str "/" ++ r ++ post)
               = Some (str " " ++ o ++ str "/" ++ r, [o; r], post)).
  { apply (@run_plus_longest true false (Cls is_space) _ (str " ")
             (o ++ str "/" ++ r ++ post) (o ++ str "/" ++ r) [o; r] post);
      auto; try discriminate.
    destruct o as [|c o']; [congruence|]. exact Hso. }
  assert (H5 : run true
                 (lits (str "in")
                  ++ Plus false (Cls is_space) :: Plus true (Cls not_slash)
                  :: lits (str "/") ++ [Plus true (Cls not_slash_space)])
                 (str "in" ++ str " " ++ o ++ str "/" ++ r ++ post)
               = Some (str "in " ++ o ++ str "/" ++ r, [o; r], post)).
  { rewrite run_lits_icase, H4. reflexivity. }
  assert (H6 : run true
                 (Plus false (Cls is_space) :: lits (str "in")
                  ++ Plus false (Cls is_space) :: Plus true (Cls not_slash)
                  :: lits (str "/") ++ [Plus true (Cls not_slash_space)])
                 (str " " ++ str "in " ++ o ++ str "/" ++ r ++ post)
               = Some (str " in " ++ o ++ str "/" ++ r, [o; r], post)).
  { apply (@run_plus_longest true false (Cls is_space) _ (str " ")
             (str "in " ++ o ++ str "/" ++ r ++ post)
             (str "in " ++ o ++ str "/" ++ r) [o; r] post);
      auto; try discriminate; reflexivity. }
  assert (H7 : run true
                 (Opt (Chr "s") :: Plus false (Cls is_space) :: lits (str "in")
                  ++ Plus false (Cls is_space) :: Plus true (Cls not_slash)
                  :: lits (str "/") ++ [Plus true (Cls not_slash_space)])
                 (str "s in " ++ o ++ str "/" ++ r ++ post)
               = Some (str "s in " ++ o ++ str "/" ++ r, [o; r], post)).
  { apply (@run_opt_take true (Chr "s") _ "s"%char
             (str " in " ++ o ++ str "/" ++ r ++ post)
             (str " in " ++ o ++ str "/" ++ r) [o; r] post);
      [reflexivity | exact H6]. }
  assert (H8 : run true
                 (lits (str "issue")
                  ++ Opt (Chr "s") :: Plus false (Cls is_space)
                  :: lits (str "in")
                  ++ Plus false (Cls is_space) :: Plus true (Cls not_slash)
                  :: lits (str "/") ++ [Plus true (Cls not_slash_space)])
                 (str "issue" ++ str "s in " ++ o ++ str "/" ++ r ++ post)
               = Some (str "issues in " ++ o ++ str "/" ++ r, [o; r], post)).
  { rewrite run_lits_icase, H7. reflexivity. }
  assert (H9 : run true
                 (Plus false (Cls is_space) :: lits (str "issue")
                  ++ Opt (Chr "s") :: Plus false (Cls is_space)
                  :: lits (str "in")
                  ++ Plus false (Cls is_space) :: Plus true (Cls not_slash)
                  :: lits (str "/") ++ [Plus true (Cls not_slash_space)])
                 (str " " ++ str "issues in " ++ o ++ str "/" ++ r ++ post)
               = Some (str " issues in " ++ o ++ str "/" ++ r, [o; r], post)).
  { apply (@run_plus_longest true false (Cls is_space) _ (str " ")
             (str "issues in " ++ o ++ str "/" ++ r ++ post)
             (str "issues in " ++ o ++ str "/" ++ r) [o; r] post);
      auto; try discriminate; reflexivity. }
  change (run true repoRegex
            (str "resolve issues in " ++ o ++ str "/" ++ r ++ post))
    with (run true
            (lits (str "resolve")
             ++ Plus false (Cls is_space) :: lits (str "issue")
             ++ Opt (Chr "s") :: Plus false (Cls is_space)
             :: lits (str "in")
             ++ Plus false (Cls is_space) :: Plus true (Cls not_slash)
             :: lits (str "/") ++ [Plus true (Cls not_slash_space)])
            (str "resolve"
             ++ str " " ++ str "issues in " ++ o ++ str "/" ++ r ++ post)).
  rewrite run_lits_icase, H9. reflexivity.
Qed.

(** X7.  The repository-wide phrase at work: a text that reads
    "resolve issues in <owner>/<repo>", holds no issue URL, and in which
    the repository ends at white space, at a slash or at the end of the
    text, is a repository-wide request for that owner and repository.
    The owner is everything between the phrase and the slash, white
    space inside it included. *)
Theorem detect_repo_wide_phrase o r post :
  o <> [] -> forallb not_slash o = true ->
  match o with c :: _ => is_space c = false | [] => True end ->
  r <> [] -> forallb not_slash_space r = true ->
  match post with c :: _ => not_slash_space c = false | [] => True end ->
  ~ contains_issue_url
      (str "resolve issues in " ++ o ++ str "/" ++ r ++ post) ->
  detectTrigger
    (InString (str "resolve issues in " ++ o ++ str "/" ++ r ++ post))
  = Some (RepoWide o r).
Proof.
  intros Ho Hao Hso Hr Har Hpost Hno.
  set (t := str "resolve issues in " ++ o ++ str "/" ++ r ++ post) in *.
  rewrite (@carries_detect (InString t) t) by (now left || discriminate).
  unfold detect_text.
  assert (Hno' := Hno).
  apply no_issue_url_search, matchAll_nil_iff in Hno'. rewrite Hno'.
  assert (Hrepo : repo_rule t = Some (RepoWide o r)).
  { unfold repo_rule.
    assert (Hs : search true repoRegex [] t
                 = Some (Found [] (str "resolve issues in " ++ o ++ str "/" ++ r)
                           [o; r] post)).
    { unfold t.
      change (str "resolve issues in " ++ o ++ str "/" ++ r ++ post)
        with ("r"%char :: str "esolve issues in " ++ o ++ str "/" ++ r ++ post).
      cbn [search].
      change ("r"%char :: str "esolve issues in " ++ o ++ str "/" ++ r ++ post)
        with (str "resolve issues in " ++ o ++ str "/" ++ r ++ post).
      now rewrite (@repo_phrase_run o r post Ho Hao Hso Hr Har Hpost). }
    rewrite Hs. reflexivity. }
  unfold batch_rule.
  destruct (search true batchRegex [] t) as [f|] eqn:Hs; [|exact Hrepo].
  now rewrite (@batch_remainder_empty t f Hno Hs).
Qed.

Lemma detect_repo_wide_phrase_witness :
  detectTrigger
    (InString (str "resolve issues in " ++ str "acme corp" ++ str "/"
               ++ str "tools" ++ str " please"))
  = Some (RepoWide (str "acme corp") (str "tools")).
Proof.
  apply (@detect_repo_wide_phrase (str "acme corp") (str "tools")
           (str " please")); try (discriminate || reflexivity).
  apply no_issue_url_search. vm_compute. reflexivity.
Defined.

End DetectionFacts.

(** ** The entry coordinator: initialisation and dispatch *)

Module EntryFacts.
Import TriggerDetection Resolver.

Section Entry.
Variables (World Thrown Message : Type).
Variables (IssueData TaskConfig FileChange CodeChanges PrResult
           Ack Visualization Url Branch : Type).
Variable message : Thrown -> Message.
Variable number : IssueData -> JSNum.num.
Variable codeChanges : CodeChanges -> list FileChange.
Variable pullRequestUrl : PrResult -> Url.
Variable pullRequestNumber : PrResult -> JSNum.num.
Variable branch : PrResult -> Branch.
Variable fetchIssueData : option text -> effect World Thrown IssueData.
Variable setupTask : IssueData -> effect World Thrown TaskConfig.
Variable generateAndValidateCode :
  TaskConfig -> effect World Thrown CodeChanges.
Variable createPullRequest :
  CodeChanges -> IssueData -> effect World Thrown PrResult.
Variable provideFeedback : PrResult -> IssueData -> effect World Thrown Ack.
Variable createVisualization :
  PrResult -> IssueData -> CodeChanges -> effect World Thrown Visualization.

Local Abbreviation proc :=
  (process World IssueData TaskConfig CodeChanges PrResult).
Local Abbreviation result :=
  (ResolutionResult Message Visualization Url Branch).
Local Abbreviation batch_fn :=
  (list issue ->
   (issue -> R World Thrown IssueData TaskConfig CodeChanges PrResult result) ->
   R World Thrown IssueData TaskConfig CodeChanges PrResult (list result)).

Local Abbreviation resolve :=
  (Resolver.resolve message number codeChanges pullRequestUrl
     pullRequestNumber branch fetchIssueData setupTask
     generateAndValidateCode createPullRequest provideFeedback
     createVisualization).
Local Abbreviation initialize :=
  (Resolver.initialize (IssueData := IssueData) (TaskConfig := TaskConfig)
     (CodeChanges := CodeChanges) (PrResult := PrResult)).
Local Abbreviation handleMcpInvocation :=
  (Resolver.handleMcpInvocation message number codeChanges pullRequestUrl
     pullRequestNumber branch fetchIssueData setupTask
     generateAndValidateCode createPullRequest provideFeedback
     createVisualization).

(** A run of the pipeline keeps the initialisation flag. *)
Lemma resolve_keeps_flag (issueUrl : option text) (p : proc) :
  exists r p',
    resolve issueUrl p = (inl r, p')
    /\ isInitialized p' = isInitialized p
    /\ res_issueUrl r = issueUrl.
Proof.
  unfold Resolver.resolve, Resolver.pipeline, Resolver.bind, Resolver.invoke,
    Resolver.ret.
  destruct (fetchIssueData issueUrl (world p)) as [[a1|e] w1];
    cbn; [|eauto 6].
  destruct (setupTask a1 w1) as [[a2|e] w2]; cbn; [|eauto 6].
  destruct (generateAndValidateCode a2 w2) as [[a3|e] w3]; cbn; [|eauto 6].
  destruct (createPullRequest a3 a1 w3) as [[a4|e] w4]; cbn; [|eauto 6].
  destruct (provideFeedback a4 a1 w4) as [[a5|e] w5]; cbn; [|eauto 6].
  destruct (createVisualization a4 a1 a3 w5) as [[a6|e] w6]; cbn; eauto 6.
Qed.

(** What [initialize] leaves behind: the trace as it was, and the flag
    set exactly when it answers [true]. *)
Lemma initialize_outcome (ci : effect World Thrown bool)
    (gi : effect World Thrown unit) (p : proc) :
  exists b p',
    initialize ci gi p = (inl b, p')
    /\ trace p' = trace p
    /\ isInitialized p' = b.
Proof.
  unfold Resolver.initialize.
  destruct (isInitialized p) eqn:Hi; [eauto|].
  unfold Resolver.bind, Resolver.perform, Resolver.set_initialized,
    Resolver.ret.
  destruct (ci (world p)) as [[b|e] w1]; cbn; [|rewrite Hi; eauto].
  destruct (gi w1) as [[[]|e] w2]; cbn; [eauto | rewrite Hi; eauto].
Qed.

(** X8.  [initialize] of the entry point does not look at what the
    configuration's [initialize] answers: when the configuration reports
    a failure ([false]) without throwing and the GitHub module
    initialises, the resolver is marked initialised and answers [true]. *)
Theorem initialize_ignores_config_status (ci : effect World Thrown bool)
    (gi : effect World Thrown unit) (p : proc) b w1 w2 :
  isInitialized p = false ->
  ci (world p) = (inl b, w1) ->
  gi w1 = (inl tt, w2) ->
  initialize ci gi p = (inl true, Process w2 true (trace p)).
Proof.
  intros Hi Hc Hg.
  unfold Resolver.initialize, Resolver.bind, Resolver.perform,
    Resolver.set_initialized, Resolver.ret.
  rewrite Hi, Hc. cbn. rewrite Hg. reflexivity.
Qed.

Lemma bind_inl {A B : Type}
    (m : R World Thrown IssueData TaskConfig CodeChanges PrResult A)
    (f : A -> R World Thrown IssueData TaskConfig CodeChanges PrResult B)
    (p p' : proc) (a : A) :
  m p = (inl a, p') -> Resolver.bind m f p = f a p'.
Proof. intros H. unfold Resolver.bind. now rewrite H. Qed.

(** The answers of [handleMcpInvocation], by cases on the
    initialisation and on the trigger; [q] is the process after the
    initialisation step. *)
Lemma handle_cases (ci : effect World Thrown bool)
    (gi : effect World Thrown unit) (pb : batch_fn) (i : input) (p : proc) :
  exists b q,
    initialize ci gi p = (inl b, q)
    /\ trace q = trace p
    /\ isInitialized q = b
    /\ (b = false -> handleMcpInvocation ci gi pb i p = (InitFailed, q))
    /\ (b = true -> detectTrigger i = None ->
        handleMcpInvocation ci gi pb i p = (NothingDetected, q))
    /\ (b = true -> detectTrigger i <> None ->
        validateTrigger (detectTrigger i) = false ->
        handleMcpInvocation ci gi pb i p = (InvalidTrigger, q))
    /\ (b = true -> validateTrigger (detectTrigger i) = true ->
        exists tr res p',
          detectTrigger i = Some tr
          /\ resolve (trigger_issueUrl tr) q = (inl res, p')
          /\ handleMcpInvocation ci gi pb i p = (IssueResult res, p')
          /\ isInitialized p' = true
          /\ res_issueUrl res = trigger_issueUrl tr).
Proof.
  destruct (initialize_outcome ci gi p) as (b & q & Hinit & Htr & Hfl).
  exists b, q. split; [exact Hinit|]. split; [exact Htr|].
  split; [exact Hfl|].
  assert (Hq : isInitialized p = true -> b = true /\ q = p).
  { intros Hi. unfold Resolver.initialize in Hinit. rewrite Hi in Hinit.
    inversion Hinit; auto. }
  unfold Resolver.handleMcpInvocation, Resolver.handle_body. cbv zeta.
  split.
  { intros ->. destruct (isInitialized p) eqn:Hi.
    - destruct (Hq eq_refl); discriminate.
    - rewrite (@bind_inl _ _ _ _ _ _ _ Hinit). reflexivity. }
  split.
  { intros -> Hd. rewrite Hd. destruct (isInitialized p) eqn:Hi.
    - destruct (Hq eq_refl) as [_ ->]. reflexivity.
    - rewrite (@bind_inl _ _ _ _ _ _ _ Hinit). reflexivity. }
  split.
  { intros -> Hd Hv.
    destruct (detectTrigger i) as [tr|]; [|congruence].
    rewrite Hv. cbn [negb]. destruct (isInitialized p) eqn:Hi.
    - destruct (Hq eq_refl) as [_ ->]. reflexivity.
    - rewrite (@bind_inl _ _ _ _ _ _ _ Hinit). reflexivity. }
  intros -> Hv.
  destruct (detectTrigger i) as [tr|] eqn:Hd; [|discriminate].
  destruct (resolve_keeps_flag (trigger_issueUrl tr) q)
    as (res & p' & Hres & Hfl' & Hurl).
  exists tr, res, p'. split; [reflexivity|]. split; [exact Hres|].
  split; [|split; [congruence | exact Hurl]].
  rewrite Hv. cbn [negb].
  assert (Hnb : forall l, tr <> Batch l).
  { intros l ->. exact (@TriggerFacts.detectTrigger_never_batch i l Hd). }
  destruct (isInitialized p) eqn:Hi.
  - destruct (Hq eq_refl) as [_ ->].
    destruct tr as [x | l | o r]; [| exfalso; now apply (Hnb l) |];
      unfold Resolver.resolveIssue; rewrite (@bind_inl _ _ _ _ _ _ _ Hres);
      reflexivity.
  - rewrite (@bind_inl _ _ _ _ _ _ _ Hinit).
    destruct tr as [x | l | o r]; [| exfalso; now apply (Hnb l) |];
      unfold Resolver.resolveIssue; rewrite (@bind_inl _ _ _ _ _ _ _ Hres);
      reflexivity.
Qed.

(** X9.  The entry point never reaches the batch scheduler: whatever
    [processBatch] is, the answer and the process after
    [handleMcpInvocation] are the same, and the answer is never a batch
    envelope. *)
Theorem handle_never_reaches_batch (ci : effect World Thrown bool)
    (gi : effect World Thrown unit) (pb pb' : batch_fn) (i : input)
    (p : proc) :
  handleMcpInvocation ci gi pb i p = handleMcpInvocation ci gi pb' i p
  /\ forall results,
       fst (handleMcpInvocation ci gi pb i p) <> BatchResults results.
Proof.
  destruct (handle_cases ci gi pb i p)
    as (b & q & Hinit & _ & _ & Hf & Hn & Hi & Hv).
  destruct (handle_cases ci gi pb' i p)
    as (b' & q' & Hinit' & _ & _ & Hf' & Hn' & Hi' & Hv').
  rewrite Hinit in Hinit'. inversion Hinit'; subst b' q'; clear Hinit'.
  destruct b.
  2:{ rewrite (Hf eq_refl), (Hf' eq_refl). split; [reflexivity|].
      intros results; discriminate. }
  destruct (detectTrigger i) as [tr|] eqn:Hd.
  2:{ rewrite (Hn eq_refl eq_refl), (Hn' eq_refl eq_refl).
      split; [reflexivity|]. intros results; discriminate. }
  destruct (validateTrigger (Some tr)) eqn:Hval.
  - destruct (Hv eq_refl eq_refl) as (tr1 & res & p1 & Ht1 & Hr1 & -> & _).
    destruct (Hv' eq_refl eq_refl) as (tr2 & res2 & p2 & Ht2 & Hr2 & -> & _).
    inversion Ht1; subst tr1. inversion Ht2; subst tr2.
    rewrite Hr1 in Hr2. inversion Hr2; subst.
    split; [reflexivity|]. intros results; discriminate.
  - assert (Hne : Some tr <> None) by discriminate.
    rewrite (Hi eq_refl Hne eq_refl), (Hi' eq_refl Hne eq_refl).
    split; [reflexivity|]. intros results; discriminate.
Qed.

(** X10.  When the initialisation fails (the configuration module or the
    GitHub module throws), every input is answered with the
    initialisation failure: nothing is detected, no stage of the pipeline
    is called, and the resolver stays uninitialised, so that the next
    invocation tries again. *)
Theorem handle_init_failure (ci : effect World Thrown bool)
    (gi : effect World Thrown unit) (pb : batch_fn) (i : input) (p : proc) :
  isInitialized p = false ->
  (exists e w, ci (world p) = (inr e, w))
  \/ (exists b w1 e w2, ci (world p) = (inl b, w1) /\ gi w1 = (inr e, w2)) ->
  exists q,
    handleMcpInvocation ci gi pb i p = (InitFailed, q)
    /\ trace q = trace p
    /\ isInitialized q = false.
Proof.
  intros Hi Hfail.
  destruct (handle_cases ci gi pb i p)
    as (b & q & Hinit & Htr & Hfl & Hf & _).
  assert (Hb : b = false).
  { unfold Resolver.initialize, Resolver.bind, Resolver.perform,
      Resolver.set_initialized, Resolver.ret in Hinit.
    rewrite Hi in Hinit.
    destruct Hfail as [(e & w & Hc) | (b0 & w1 & e & w2 & Hc & Hg)].
    - rewrite Hc in Hinit. cbn in Hinit. congruence.
    - rewrite Hc in Hinit. cbn in Hinit. rewrite Hg in Hinit.
      cbn in Hinit. congruence. }
  subst b. exists q. auto.
Qed.

(** X11.  An input without a valid trigger costs no collaborator call of
    the pipeline: the trace is left as it was.  Once the initialisation
    has succeeded, the answer tells the two cases apart: nothing
    detected, or a trigger that [validateTrigger] rejects. *)
Theorem handle_without_valid_trigger (ci : effect World Thrown bool)
    (gi : effect World Thrown unit) (pb : batch_fn) (i : input) (p : proc) :
  validateTrigger (detectTrigger i) = false ->
  trace (snd (handleMcpInvocation ci gi pb i p)) = trace p
  /\ (fst (initialize ci gi p) = inl true ->
      fst (handleMcpInvocation ci gi pb i p)
      = match detectTrigger i with
        | None => NothingDetected
        | Some _ => InvalidTrigger
        end).
Proof.
  intros Hv.
  destruct (handle_cases ci gi pb i p)
    as (b & q & Hinit & Htr & _ & Hf & Hn & Hi & _).
  rewrite Hinit. cbn [fst].
  destruct b.
  - destruct (detectTrigger i) as [tr|] eqn:Hd.
    + assert (Hne : Some tr <> None) by discriminate.
      rewrite (Hi eq_refl Hne Hv). auto.
    + rewrite (Hn eq_refl eq_refl). auto.
  - rewrite (Hf eq_refl). split; [exact Htr | discriminate].
Qed.

(** X12.  A text whose first issue URL has a non-zero number goes to the
    single-issue pipeline with that URL: the answer of
    [handleMcpInvocation] is the result of [resolveIssue], and the
    result names the URL. *)
Theorem handle_single_issue (ci : effect World Thrown bool)
    (gi : effect World Thrown unit) (pb : batch_fn) (i : input) (p : proc)
    pre u o r d post :
  carries i (pre ++ u ++ post) ->
  issue_url u o r d ->
  first_issue_url pre u post ->
  JSNum.digits_val d <> 0%Z ->
  fst (initialize ci gi p) = inl true ->
  exists res p',
    resolve (Some u) (snd (initialize ci gi p)) = (inl res, p')
    /\ handleMcpInvocation ci gi pb i p = (IssueResult res, p')
    /\ res_issueUrl res = Some u.
Proof.
  intros Hc Hu Hf Hd Hinit0.
  assert (Hdet := @TriggerFacts.detect_at_first_issue_url i pre u o r d post
                    Hc Hu Hf).
  assert (Hval : validateTrigger (detectTrigger i) = true).
  { rewrite Hdet. unfold validateTrigger, issue_complete.
    cbn [owner repo issueNumber]. rewrite DetectionFacts.truthy_of_Z.
    destruct Hu as [secure o r d Ho _ Hr _ _ _].
    destruct o; [congruence|]. destruct r; [congruence|].
    apply Z.eqb_neq in Hd. rewrite Hd. reflexivity. }
  destruct (handle_cases ci gi pb i p)
    as (b & q & Hinit & _ & _ & _ & _ & _ & Hv).
  rewrite Hinit in Hinit0 |- *. cbn [fst snd] in *.
  assert (Hb : b = true) by congruence.
  destruct (Hv Hb Hval) as (tr & res & p' & Ht & Hr & Hh & _ & Hurl).
  rewrite Hdet in Ht. inversion Ht; subst tr. cbn in Hr, Hurl.
  exists res, p'. auto.
Qed.

(** X13.  Initialisation happens once: for a resolver that is
    initialised, [handleMcpInvocation] does not depend on the two
    initialisers (it calls neither), and leaves the resolver
    initialised. *)
Theorem handle_initializes_once (ci ci' : effect World Thrown bool)
    (gi gi' : effect World Thrown unit) (pb : batch_fn) (i : input)
    (p : proc) :
  isInitialized p = true ->
  handleMcpInvocation ci gi pb i p = handleMcpInvocation ci' gi' pb i p
  /\ isInitialized (snd (handleMcpInvocation ci gi pb i p)) = true.
Proof.
  intros Hi.
  split.
  - unfold Resolver.handleMcpInvocation, Resolver.handle_body.
    rewrite Hi. reflexivity.
  - destruct (handle_cases ci gi pb i p)
      as (b & q & Hinit & _ & Hfl & Hf & Hn & Hinv & Hv).
    assert (Hbq : b = true /\ q = p).
    { unfold Resolver.initialize in Hinit. rewrite Hi in Hinit.
      inversion Hinit; auto. }
    destruct Hbq as [-> ->]. clear Hinit.
    destruct (detectTrigger i) as [tr|] eqn:Hd.
    + destruct (validateTrigger (Some tr)) eqn:Hval.
      * destruct (Hv eq_refl eq_refl) as (tr1 & res & p1 & _ & _ & -> & Hp & _).
        exact Hp.
      * assert (Hne : Some tr <> None) by discriminate.
        rewrite (Hinv eq_refl Hne eq_refl). exact Hi.
    + rewrite (Hn eq_refl eq_refl). exact Hi.
Qed.

(** X14.  [getMcpInfo] reports the resolver as initialised after every
    invocation that was not answered with the initialisation failure. *)
Theorem info_after_invocation (ci : effect World Thrown bool)
    (gi : effect World Thrown unit) (pb : batch_fn) (i : input) (p : proc) :
  fst (handleMcpInvocation ci gi pb i p) <> InitFailed ->
  initialized (getMcpInfo (snd (handleMcpInvocation ci gi pb i p))) = true.
Proof.
  intros Hne. unfold getMcpInfo. cbn [initialized].
  destruct (handle_cases ci gi pb i p)
    as (b & q & Hinit & _ & Hfl & Hf & Hn & Hinv & Hv).
  destruct b.
  2:{ exfalso. apply Hne. now rewrite (Hf eq_refl). }
  destruct (detectTrigger i) as [tr|] eqn:Hd.
  - destruct (validateTrigger (Some tr)) eqn:Hval.
    + destruct (Hv eq_refl eq_refl) as (tr1 & res & p1 & _ & _ & -> & Hp & _).
      exact Hp.
    + assert (Hne' : Some tr <> None) by discriminate.
      rewrite (Hinv eq_refl Hne' eq_refl). exact Hfl.
  - rewrite (Hn eq_refl eq_refl). exact Hfl.
Qed.

End Entry.

Lemma initialize_ignores_config_status_witness :
  Resolver.initialize (World := nat) (Thrown := unit) (IssueData := unit)
    (TaskConfig := unit) (CodeChanges := unit) (PrResult := unit)
    (fun w => (inl false, S w)) (fun w => (inl tt, S w))
    (Process 0 false [])
  = (inl true, Process 2 true []).
Proof.
  apply (@initialize_ignores_config_status nat unit unit unit unit unit
           (fun w => (inl false, S w)) (fun w => (inl tt, S w))
           (Process 0 false []) false 1 2); reflexivity.
Defined.

(** A GitHub module that fails to initialise: the issue URL in the input
    is not looked at. *)
Lemma handle_init_failure_witness :
  let ok : effect nat unit unit := fun w => (inl tt, S w) in
  let handle :=
    Resolver.handleMcpInvocation (FileChange := unit)
      (fun e : unit => e) (fun _ : unit => JSNum.NaN)
      (fun _ : unit => []) (fun _ : unit => tt) (fun _ : unit => JSNum.NaN)
      (fun _ : unit => tt)
      (fun _ => ok) (fun _ => ok) (fun _ => ok) (fun _ _ => ok)
      (fun _ _ => ok) (fun _ _ _ => ok)
      (fun w => (inl true, S w)) (fun w => (inr tt, S w))
      (fun _ _ p => (inl [], p)) in
  exists q,
    handle (InString (str "https://github.com/foo/bar/issues/42"))
      (Process 0 false [])
    = (InitFailed, q)
    /\ trace q = [] /\ isInitialized q = false.
Proof.
  cbv zeta.
  apply (@handle_init_failure nat unit unit unit unit unit unit unit unit
           unit unit unit).
  - reflexivity.
  - right. exists true, 1, tt, 2. split; reflexivity.
Defined.

(** Issue number 0: detected, rejected by [validateTrigger], and no
    collaborator of the pipeline is called. *)
Lemma handle_without_valid_trigger_witness :
  let ok : effect nat unit unit := fun w => (inl tt, S w) in
  let init_ok : effect nat unit bool := fun w => (inl true, S w) in
  let handle :=
    Resolver.handleMcpInvocation (FileChange := unit)
      (fun e : unit => e) (fun _ : unit => JSNum.NaN)
      (fun _ : unit => []) (fun _ : unit => tt) (fun _ : unit => JSNum.NaN)
      (fun _ : unit => tt)
      (fun _ => ok) (fun _ => ok) (fun _ => ok) (fun _ _ => ok)
      (fun _ _ => ok) (fun _ _ _ => ok)
      init_ok ok (fun _ _ p => (inl [], p)) in
  let i := InString (str "https://github.com/foo/bar/issues/0") in
  let p := Process (IssueData := unit) (TaskConfig := unit)
             (CodeChanges := unit) (PrResult := unit) 0 false [] in
  trace (snd (handle i p)) = trace p
  /\ (fst (Resolver.initialize init_ok ok p) = inl true ->
      fst (handle i p)
      = match detectTrigger i with
        | None => NothingDetected
        | Some _ => InvalidTrigger
        end).
Proof.
  cbv zeta.
  apply (@handle_without_valid_trigger nat unit unit unit unit unit unit
           unit unit unit unit unit).
  vm_compute. reflexivity.
Defined.

(** An initialised resolver whose issue source rejects the request: the
    answer is the failure result of the pipeline for the URL of the
    text. *)
Lemma handle_single_issue_witness :
  let ok : effect nat unit unit := fun w => (inl tt, S w) in
  let fails : effect nat unit unit := fun w => (inr tt, S w) in
  let init_ok : effect nat unit bool := fun w => (inl true, S w) in
  let resolve :=
    Resolver.resolve (FileChange := unit)
      (fun e : unit => e) (fun _ : unit => JSNum.NaN)
      (fun _ : unit => []) (fun _ : unit => tt) (fun _ : unit => JSNum.NaN)
      (fun _ : unit => tt)
      (fun _ => fails) (fun _ => ok) (fun _ => ok) (fun _ _ => ok)
      (fun _ _ => ok) (fun _ _ _ => ok) in
  let handle :=
    Resolver.handleMcpInvocation (FileChange := unit)
      (fun e : unit => e) (fun _ : unit => JSNum.NaN)
      (fun _ : unit => []) (fun _ : unit => tt) (fun _ : unit => JSNum.NaN)
      (fun _ : unit => tt)
      (fun _ => fails) (fun _ => ok) (fun _ => ok) (fun _ _ => ok)
      (fun _ _ => ok) (fun _ _ _ => ok)
      init_ok ok (fun _ _ p => (inl [], p)) in
  let u := str "https://github.com/foo/bar/issues/42" in
  let p := Process (IssueData := unit) (TaskConfig := unit)
             (CodeChanges := unit) (PrResult := unit) 0 true [] in
  exists res p',
    resolve (Some u) (snd (Resolver.initialize init_ok ok p)) = (inl res, p')
    /\ handle (InRecord (FStr ([] ++ u ++ []))) p = (IssueResult res, p')
    /\ res_issueUrl res = Some u.
Proof.
  cbv zeta.
  apply (@handle_single_issue nat unit unit unit unit unit unit unit unit
           unit unit unit) with (pre := []) (post := [])
                                (o := str "foo") (r := str "bar")
                                (d := str "42").
  - now right.
  - apply (@issue_url_intro true (str "foo") (str "bar") (str "42"));
      (discriminate || reflexivity).
  - split; [|exact I].
    intros p1 p2 Hp Hne. destruct p1; destruct p2; simpl in Hp; congruence.
  - vm_compute. discriminate.
  - reflexivity.
Defined.

Lemma handle_initializes_once_witness :
  let ok : effect nat unit unit := fun w => (inl tt, S w) in
  let handle ci gi :=
    Resolver.handleMcpInvocation (FileChange := unit)
      (fun e : unit => e) (fun _ : unit => JSNum.NaN)
      (fun _ : unit => []) (fun _ : unit => tt) (fun _ : unit => JSNum.NaN)
      (fun _ : unit => tt)
      (fun _ => ok) (fun _ => ok) (fun _ => ok) (fun _ _ => ok)
      (fun _ _ => ok) (fun _ _ _ => ok)
      ci gi (fun _ _ p => (inl [], p)) in
  let i := InString (str "resolve issues in foo/bar") in
  let p := Process (IssueData := unit) (TaskConfig := unit)
             (CodeChanges := unit) (PrResult := unit) 0 true [] in
  handle (fun w => (inl true, S w)) ok i p
  = handle (fun w => (inr tt, w)) (fun w => (inr tt, w)) i p
  /\ isInitialized (snd (handle (fun w => (inl true, S w)) ok i p)) = true.
Proof.
  cbv zeta.
  apply (@handle_initializes_once nat unit unit unit unit unit unit unit
           unit unit unit unit).
  reflexivity.
Defined.

Lemma info_after_invocation_witness :
  let ok : effect nat unit unit := fun w => (inl tt, S w) in
  let handle :=
    Resolver.handleMcpInvocation (FileChange := unit)
      (fun e : unit => e) (fun _ : unit => JSNum.NaN)
      (fun _ : unit => []) (fun _ : unit => tt) (fun _ : unit => JSNum.NaN)
      (fun _ : unit => tt)
      (fun _ => ok) (fun _ => ok) (fun _ => ok) (fun _ _ => ok)
      (fun _ _ => ok) (fun _ _ _ => ok)
      (fun w => (inl false, S w)) ok (fun _ _ p => (inl [], p)) in
  let p := Process (IssueData := unit) (TaskConfig := unit)
             (CodeChanges := unit) (PrResult := unit) 0 false [] in
  initialized (getMcpInfo (snd (handle (InString (str "hello")) p))) = true.
Proof.
  cbv zeta.
  apply (@info_after_invocation nat unit unit unit unit unit unit unit
           unit unit unit unit).
  vm_compute. discriminate.
Defined.

End EntryFacts.

(** ** The configuration manager: accessors, updates and copies *)

Module AccessFacts.
Import JSNum JS Configuration StoreFacts ConfigFacts.
Local Open Scope string_scope.

(** *** Reading and writing members *)

Lemma get_member_normal v k st x st' :
  get_member v k st = (Normal x, st') ->
  st' = st
  /\ exists l o,
       v = VObj l /\ nth_error (store st) l = Some o
       /\ x = match lookup o k with Some y => y | None => VUndefined end.
Proof.
  destruct v as [ | | b | n | s | a | l]; try discriminate.
  unfold get_member, bind, read_obj.
  destruct (nth_error (store st) l) as [o|] eqn:Hl; [|discriminate].
  destruct (lookup o k) as [y|] eqn:Hk.
  - intros H; inversion H; subst. split; [reflexivity|].
    exists l, o. rewrite Hk. auto.
  - destruct (inherited k); intros H; inversion H; subst.
    split; [reflexivity|]. exists l, o. rewrite Hk. auto.
Qed.

Lemma get_member_not_abrupt l k st e st' :
  get_member (VObj l) k st <> (Abrupt e, st').
Proof.
  unfold get_member, bind, read_obj.
  destruct (nth_error (store st) l) as [o|]; [|discriminate].
  destruct (lookup o k); [discriminate|].
  destruct (inherited k); discriminate.
Qed.

Lemma set_member_normal v k x st st' :
  set_member v k x st = (Normal tt, st') ->
  exists l o,
    v = VObj l /\ nth_error (store st) l = Some o
    /\ st' = written st l o k x.
Proof.
  destruct v as [ | | b | n | s | a | l]; try discriminate.
  unfold set_member.
  destruct (String.eqb k "__proto__"); [discriminate|].
  unfold bind, read_obj, write_obj.
  destruct (nth_error (store st) l) as [o|] eqn:Hl; [|discriminate].
  intros H; inversion H. exists l, o. auto.
Qed.

Lemma set_member_obj_not_abrupt l k x st e st' :
  set_member (VObj l) k x st <> (Abrupt e, st').
Proof.
  unfold set_member.
  destruct (String.eqb k "__proto__"); [discriminate|].
  unfold bind, read_obj, write_obj.
  destruct (nth_error (store st) l); discriminate.
Qed.

Lemma nth_error_snoc {A} (l : list A) x :
  nth_error (l ++ [x]) (List.length l) = Some x.
Proof. rewrite nth_error_app2, Nat.sub_diag by lia. reflexivity. Qed.

Lemma nth_error_snoc_old {A} (l : list A) x i y :
  nth_error l i = Some y -> nth_error (l ++ [x]) i = Some y.
Proof.
  intros H. rewrite nth_error_app1; [exact H|].
  apply nth_error_Some. congruence.
Qed.

(** *** updateConfig on a key of two parts *)

Lemma bind_abrupt {A B} (m : M A) (f : A -> M B) st e st' :
  bind m f st = (Abrupt e, st') ->
  m st = (Abrupt e, st')
  \/ exists a st1, m st = (Normal a, st1) /\ f a st1 = (Abrupt e, st').
Proof.
  unfold bind. destruct (m st) as [[a | e1 |] st1]; intros H.
  - right. exists a, st1. auto.
  - left. inversion H. reflexivity.
  - discriminate.
Qed.

Lemma bind_eq {A B} (m : M A) (f : A -> M B) st a st1 :
  m st = (Normal a, st1) -> bind m f st = f a st1.
Proof. intros H. unfold bind. now rewrite H. Qed.

Lemma when_normal b (m : M unit) st st' :
  when b m st = (Normal tt, st') ->
  (b = true /\ m st = (Normal tt, st')) \/ (b = false /\ st' = st).
Proof.
  destruct b; simpl; intros H; [left; auto|].
  right. inversion H. auto.
Qed.

(** What [navigate] does on [section.key]: it writes the key into the
    object the section holds, or into a fresh object when the section
    is missing or falsy. *)
Lemma navigate_two lc section key v st st2 :
  navigate (VObj lc) [section; key] v st = (Normal tt, st2) ->
  exists oc,
    nth_error (store st) lc = Some oc
    /\ ((exists ls os,
           fst (get_member (VObj lc) section st) = Normal (VObj ls)
           /\ nth_error (store st) ls = Some os
           /\ st2 = written st ls os key v)
        \/ (exists c,
              fst (get_member (VObj lc) section st) = Normal c
              /\ truthy c = false
              /\ st2 = created st lc oc section key v)).
Proof.
  unfold navigate. intros H.
  apply bind_normal in H. destruct H as (c & st1 & Hg & H).
  destruct (get_member_normal _ _ _ Hg) as (-> & l0 & oc & Hl0 & Hoc & Hc).
  inversion Hl0; subst l0; clear Hl0.
  exists oc. split; [exact Hoc|]. rewrite Hg. cbn [fst].
  apply bind_normal in H. destruct H as ([] & st1 & Hw & H).
  apply bind_normal in H. destruct H as (c' & st3 & Hg' & Hs).
  apply when_normal in Hw. destruct Hw as [[Htc Hw] | [Htc ->]].
  - (* the section is created *)
    right. exists c. split; [reflexivity|].
    split; [now destruct (truthy c)|].
    apply bind_normal in Hw. destruct Hw as (fresh & st0 & Ha & Hw).
    unfold alloc in Ha. inversion Ha; subst fresh st0; clear Ha.
    destruct (set_member_normal _ _ _ _ Hw) as (l1 & o1 & Hl1 & Ho1 & ->).
    inversion Hl1; subst l1; clear Hl1.
    assert (Ho1' : o1 = oc).
    { pose proof (@nth_error_snoc_old object (store st) [] lc oc Hoc) as Hx.
      simpl in Ho1. congruence. }
    subst o1.
    assert (Hlc : lc < List.length (store st))
      by (apply nth_error_Some; congruence).
    destruct (get_member_normal _ _ _ Hg') as (-> & l2 & o2 & Hl2 & Ho2 & Hc').
    inversion Hl2; subst l2; clear Hl2.
    simpl in Ho2.
    rewrite nth_error_update_same in Ho2
      by (rewrite length_app; simpl; lia).
    inversion Ho2; subst o2; clear Ho2.
    rewrite lookup_set_prop_same in Hc'. subst c'.
    destruct (set_member_normal _ _ _ _ Hs) as (l3 & o3 & Hl3 & Ho3 & ->).
    inversion Hl3; subst l3; clear Hl3.
    simpl in Ho3.
    rewrite nth_error_update_other in Ho3 by lia.
    rewrite nth_error_snoc in Ho3.
    inversion Ho3; subst o3; clear Ho3.
    reflexivity.
  - (* the section holds a truthy value *)
    rewrite Hg in Hg'. inversion Hg'; subst c' st3; clear Hg'.
    destruct (set_member_normal _ _ _ _ Hs) as (ls & os & -> & Hos & ->).
    left. exists ls, os. auto.
Qed.

Lemma navigate_two_not_abrupt lc section key v st e st' :
  navigate (VObj lc) [section; key] v st <> (Abrupt e, st').
Proof.
  unfold navigate. intros H.
  apply bind_abrupt in H.
  destruct H as [H | (c & st1 & Hg & H)];
    [exact (get_member_not_abrupt _ _ _ H)|].
  destruct (get_member_normal _ _ _ Hg) as (-> & l0 & oc & Hl0 & Hoc & Hc).
  apply bind_abrupt in H.
  destruct H as [H | ([] & st2 & Hw & H)].
  - destruct (truthy c); simpl in H; [discriminate|].
    apply bind_abrupt in H.
    destruct H as [H | (fresh & st0 & Ha & H)]; [discriminate|].
    exact (set_member_obj_not_abrupt _ _ _ _ H).
  - apply bind_abrupt in H.
    destruct H as [H | (c' & st3 & Hg' & H)];
      [exact (get_member_not_abrupt _ _ _ H)|].
    destruct (get_member_normal _ _ _ Hg') as (-> & l2 & o2 & Hl2 & Ho2 & Hc').
    inversion Hl2; subst l2; clear Hl2.
    apply when_normal in Hw. destruct Hw as [[Htc Hw] | [Htc ->]].
    + apply bind_normal in Hw. destruct Hw as (fresh & st0 & Ha & Hw).
      unfold alloc in Ha. inversion Ha; subst fresh st0; clear Ha.
      destruct (set_member_normal _ _ _ _ Hw) as (l1 & o1 & Hl1 & Ho1 & ->).
      inversion Hl1; subst l1; clear Hl1.
      simpl in Ho2.
      rewrite nth_error_update_same in Ho2
        by (apply nth_error_Some; simpl in Ho1; congruence).
      inversion Ho2; subst o2; clear Ho2.
      rewrite lookup_set_prop_same in Hc'. subst c'.
      exact (set_member_obj_not_abrupt _ _ _ _ H).
    + assert (Hcc : c' = c) by (rewrite Hg in Hg'; congruence).
      rewrite Hcc in H. clear Hc' Hc.
      destruct c as [ | | b | n | s | a | ls];
        try (simpl in Htc; discriminate Htc);
        try (unfold set_member, beyond in H; discriminate H).
      exact (set_member_obj_not_abrupt _ _ _ _ H).
Qed.

(** [updateConfig] on a key of two parts: the assignment always takes
    place, also when the answer is [false]. *)
Lemma updateConfig_two key section k v b st st2 :
  split_dots "" key = [section; k] ->
  updateConfig key v st = (Normal b, st2) ->
  navigate (VObj (currentConfig st)) [section; k] v st = (Normal tt, st2).
Proof.
  intros Hk. unfold updateConfig, try_catch. rewrite Hk.
  unfold bind at 1. unfold get_currentConfig at 1.
  unfold bind at 1.
  destruct (navigate (VObj (currentConfig st)) [section; k] v st)
    as [[[] | e |] st1] eqn:Hn.
  - unfold bind, stringify, ret.
    destruct (serialize _ _ _ v); intros H; inversion H; reflexivity.
  - exfalso. exact (@navigate_two_not_abrupt _ _ _ _ _ _ _ Hn).
  - discriminate.
Qed.

Lemma member2_eq v s k st :
  fst (member2 v s k st)
  = match fst (get_member v s st) with
    | Normal x => fst (get_member x k st)
    | Abrupt e => Abrupt e
    | Beyond => Beyond
    end.
Proof.
  unfold member2, bind.
  rewrite (reader_run st (reader_get_member v s)).
  destruct (fst (get_member v s st)); reflexivity.
Qed.

Lemma get_member_lookup st l o k x :
  nth_error (store st) l = Some o ->
  lookup o k = Some x ->
  get_member (VObj l) k st = (Normal x, st).
Proof.
  intros Hl Hk. unfold get_member, bind, read_obj. now rewrite Hl, Hk.
Qed.

(** Reading [section.key] through any object that holds the section,
    after the key was written into the section's object. *)
Lemma member2_written st root oroot section ls os key v :
  nth_error (store st) root = Some oroot ->
  root <> ls ->
  fst (get_member (VObj root) section st) = Normal (VObj ls) ->
  nth_error (store st) ls = Some os ->
  fst (member2 (VObj root) section key (written st ls os key v)) = Normal v.
Proof.
  intros Hroot Hne Hsec Hos.
  rewrite member2_eq.
  assert (Hsec' : fst (get_member (VObj root) section (written st ls os key v))
                  = Normal (VObj ls)).
  { unfold get_member, bind, read_obj in *. simpl store.
    rewrite nth_error_update_other by congruence.
    rewrite Hroot in *.
    destruct (lookup oroot section); [exact Hsec|].
    destruct (inherited section); exact Hsec. }
  rewrite Hsec'. now apply get_member_written_same.
Qed.

Lemma member2_created st lc oc section key v :
  nth_error (store st) lc = Some oc ->
  fst (member2 (VObj lc) section key (created st lc oc section key v))
  = Normal v.
Proof.
  intros Hoc.
  assert (Hlc : lc < List.length (store st))
    by (apply nth_error_Some; congruence).
  rewrite member2_eq.
  assert (H1 : nth_error (store (created st lc oc section key v)) lc
               = Some (set_prop oc section (VObj (List.length (store st))))).
  { simpl. rewrite nth_error_update_other by lia.
    apply nth_error_update_same. rewrite length_app. simpl. lia. }
  assert (H2 : nth_error (store (created st lc oc section key v))
                 (List.length (store st))
               = Some [(key, v)]).
  { simpl. apply nth_error_update_same.
    rewrite update_nth_length, length_app. simpl. lia. }
  rewrite (@get_member_lookup _ _ _ section _ H1
             (lookup_set_prop_same oc section _)).
  cbn [fst].
  rewrite (@get_member_lookup _ _ [(key, v)] key v H2).
  - reflexivity.
  - simpl. now rewrite String.eqb_refl.
Qed.

Lemma update_read_back key section k v b st st2 :
  split_dots "" key = [section; k] ->
  fst (get_member (VObj (currentConfig st)) section st)
  <> Normal (VObj (currentConfig st)) ->
  updateConfig key v st = (Normal b, st2) ->
  current st2 section k = Normal v.
Proof.
  intros Hk Hself Hu.
  apply (@updateConfig_two key section k v b st st2 Hk) in Hu.
  apply navigate_two in Hu.
  destruct Hu as (oc & Hoc & [(ls & os & Hsec & Hos & ->)
                             | (c & Hsec & Htc & ->)]).
  - unfold current. simpl currentConfig.
    apply (@member2_written st (currentConfig st) oc section ls os k v);
      auto.
    intros Heq. apply Hself. rewrite Hsec. now rewrite Heq.
  - unfold current. simpl currentConfig.
    now apply member2_created.
Qed.



(** *** The defaults are shared *)

(** [{ ...defaultConfig }] copies one level: the state after
    [resetToDefaults]. *)
Lemma resetToDefaults_normal st od :
  nth_error (store st) (defaultConfig st) = Some od ->
  resetToDefaults st
  = (Normal tt,
     State (store st ++ [od])%list (defaultConfig st)
       (List.length (store st))).
Proof.
  intros Hd. unfold resetToDefaults, start_from_defaults, bind,
    get_defaultConfig, spread, bind, read_obj, alloc, set_currentConfig.
  rewrite Hd. reflexivity.
Qed.

Lemma get_member_snoc st l k o x :
  fst (get_member (VObj l) k st) = Normal x ->
  fst (get_member (VObj l) k (set_store st (store st ++ [o])%list))
  = Normal x.
Proof.
  unfold get_member, bind, read_obj. simpl store.
  destruct (nth_error (store st) l) as [ol|] eqn:Hl; [|discriminate].
  rewrite (@nth_error_snoc_old _ _ o _ _ Hl).
  destruct (lookup ol k); [auto|]. destruct (inherited k); auto.
Qed.

(** X16.  The sections of the defaults are shared with the current
    configuration, which copies the defaults one level deep: when a
    section is the same object in both, as it is after the module is
    loaded, after [initialize] and after [resetToDefaults], an
    [updateConfig] on a key of that section changes the defaults too,
    and [resetToDefaults] does not bring the former value back. *)
Theorem updateConfig_changes_defaults key section k v b st st2 ls od :
  split_dots "" key = [section; k] ->
  nth_error (store st) (defaultConfig st) = Some od ->
  fst (get_member (VObj (defaultConfig st)) section st) = Normal (VObj ls) ->
  fst (get_member (VObj (currentConfig st)) section st) = Normal (VObj ls) ->
  ls <> defaultConfig st ->
  updateConfig key v st = (Normal b, st2) ->
  default st2 section k = Normal v
  /\ current (snd (resetToDefaults st2)) section k = Normal v.
Proof.
  intros Hk Hod Hdsec Hcsec Hne Hu.
  apply (@updateConfig_two key section k v b st st2 Hk) in Hu.
  apply navigate_two in Hu.
  destruct Hu as (oc & Hoc & [(ls' & os & Hsec & Hos & ->)
                             | (c & Hsec & Htc & ->)]).
  2:{ rewrite Hcsec in Hsec. inversion Hsec; subst c. discriminate. }
  rewrite Hcsec in Hsec. inversion Hsec; subst ls'; clear Hsec.
  assert (Hdef : default (written st ls os k v) section k = Normal v).
  { unfold default. simpl defaultConfig.
    apply (@member2_written st (defaultConfig st) od section ls os k v);
      auto. }
  split; [exact Hdef|].
  assert (Hod' : nth_error (store (written st ls os k v))
                   (defaultConfig (written st ls os k v)) = Some od).
  { simpl. rewrite nth_error_update_other by congruence. exact Hod. }
  rewrite (@resetToDefaults_normal _ od Hod'). cbn [snd].
  unfold current. cbn [currentConfig].
  set (st3 := written st ls os k v) in *.
  rewrite member2_eq.
  assert (Hlk : lookup od section = Some (VObj ls)).
  { unfold get_member, bind, read_obj in Hdsec. rewrite Hod in Hdsec.
    destruct (lookup od section) as [x|]; [simpl in Hdsec; congruence|].
    destruct (inherited section); simpl in Hdsec; discriminate. }
  rewrite (@get_member_lookup
             (State (store st3 ++ [od])%list (defaultConfig st3)
                (List.length (store st3)))
             (List.length (store st3)) od section (VObj ls)
             (nth_error_snoc _ _) Hlk).
  cbn [fst].
  assert (Hls : nth_error (store st3) ls = Some (set_prop os k v)).
  { unfold st3. simpl. apply nth_error_update_same.
    apply nth_error_Some. congruence. }
  rewrite (@get_member_lookup
             (State (store st3 ++ [od])%list (defaultConfig st3)
                (List.length (store st3)))
             ls (set_prop os k v) k v
             (@nth_error_snoc_old _ _ od _ _ Hls)
             (lookup_set_prop_same os k v)).
  reflexivity.
Qed.

Lemma updateConfig_changes_defaults_witness :
  default (snd (updateConfig "ai.temperature" (VNum (Fin (9 # 10)%Q))
                  load_module))
    "ai" "temperature"
  = Normal (VNum (Fin (9 # 10)%Q))
  /\ current
       (snd (resetToDefaults
               (snd (updateConfig "ai.temperature" (VNum (Fin (9 # 10)%Q))
                       load_module))))
       "ai" "temperature"
     = Normal (VNum (Fin (9 # 10)%Q)).
Proof.
  apply (@updateConfig_changes_defaults "ai.temperature" "ai" "temperature"
           (VNum (Fin (9 # 10)%Q)) true load_module
           (snd (updateConfig "ai.temperature" (VNum (Fin (9 # 10)%Q))
                   load_module))
           1
           (match nth_error (store load_module) (defaultConfig load_module)
            with Some o => o | None => [] end));
    vm_compute; (reflexivity || discriminate).
Defined.

(** *** Copies handed out *)

Lemma get_member_frame st st' l k :
  nth_error (store st') l = nth_error (store st) l ->
  fst (get_member (VObj l) k st') = fst (get_member (VObj l) k st).
Proof.
  intros H. unfold get_member, bind, read_obj. rewrite H.
  destruct (nth_error (store st) l) as [o|]; [|reflexivity].
  destruct (lookup o k); [reflexivity|].
  destruct (inherited k); reflexivity.
Qed.

Lemma get_member_section st l k ls :
  fst (get_member (VObj l) k st) = Normal (VObj ls) ->
  exists o, nth_error (store st) l = Some o /\ lookup o k = Some (VObj ls).
Proof.
  unfold get_member, bind, read_obj.
  destruct (nth_error (store st) l) as [o|]; [|discriminate].
  intros H. exists o. split; [reflexivity|].
  destruct (lookup o k) as [x|]; [simpl in H; congruence|].
  destruct (inherited k); simpl in H; discriminate.
Qed.

Lemma getConfig_normal st c st1 :
  getConfig st = (Normal c, st1) ->
  exists oc,
    nth_error (store st) (currentConfig st) = Some oc
    /\ c = VObj (List.length (store st))
    /\ st1 = set_store st (store st ++ [oc])%list.
Proof.
  unfold getConfig, bind, get_currentConfig, spread, bind, read_obj, alloc.
  destruct (nth_error (store st) (currentConfig st)) as [oc|];
    [|discriminate].
  intros H; inversion H. exists oc. auto.
Qed.

Lemma updateConfig_one key k v b st st2 :
  split_dots "" key = [k] ->
  updateConfig key v st = (Normal b, st2) ->
  exists oc,
    nth_error (store st) (currentConfig st) = Some oc
    /\ st2 = written st (currentConfig st) oc k v.
Proof.
  intros Hk. unfold updateConfig, try_catch. rewrite Hk.
  unfold bind at 1. unfold get_currentConfig at 1.
  unfold bind at 1. cbn [navigate].
  destruct (set_member (VObj (currentConfig st)) k v st)
    as [[[] | e |] st1] eqn:Hs.
  - destruct (set_member_normal _ _ _ _ Hs) as (l & oc & Hl & Hoc & ->).
    inversion Hl; subst l.
    unfold bind, stringify, ret.
    destruct (serialize _ _ _ v); intros H; inversion H;
      exists oc; auto.
  - exfalso. exact (@set_member_obj_not_abrupt _ _ _ _ _ _ Hs).
  - discriminate.
Qed.

(** X17.  [getConfig] hands out a copy that is one level deep.  A later
    [updateConfig] on a top-level key does not show in the object handed
    out; a later [updateConfig] on a key of a section does, the section
    being the same object in the copy and in the live configuration. *)
Theorem getConfig_one_level_copy st c st1 section ls os :
  getConfig st = (Normal c, st1) ->
  fst (get_member (VObj (currentConfig st)) section st) = Normal (VObj ls) ->
  nth_error (store st) ls = Some os ->
  (forall key k v b st2 k',
     split_dots "" key = [k] ->
     updateConfig key v st1 = (Normal b, st2) ->
     fst (get_member c k' st2) = fst (get_member c k' st1))
  /\ (forall key k v b st2,
        split_dots "" key = [section; k] ->
        updateConfig key v st1 = (Normal b, st2) ->
        fst (member2 c section k st2) = Normal v).
Proof.
  intros Hg Hsec Hos.
  destruct (@getConfig_normal _ _ _ Hg) as (oc & Hoc & -> & ->).
  assert (Hlc : currentConfig st < List.length (store st))
    by (apply nth_error_Some; congruence).
  assert (Hls : ls < List.length (store st))
    by (apply nth_error_Some; congruence).
  destruct (@get_member_section _ _ _ _ Hsec) as (oc' & Hoc' & Hlk).
  assert (oc' = oc) by congruence. subst oc'.
  split.
  - intros key k v b st2 k' Hk Hu.
    destruct (@updateConfig_one _ _ _ _ _ _ Hk Hu) as (oc1 & Hoc1 & ->).
    apply get_member_frame. simpl.
    apply nth_error_update_other. lia.
  - intros key k v b st2 Hk Hu.
    apply (@updateConfig_two key section k v b _ st2 Hk) in Hu.
    apply navigate_two in Hu.
    destruct Hu as (oc1 & Hoc1 & [(ls' & os' & Hsec' & Hos' & ->)
                                 | (x & Hsec' & Htx & ->)]).
    + simpl currentConfig in Hsec'.
      rewrite (@get_member_snoc st _ section oc (VObj ls) Hsec) in Hsec'.
      inversion Hsec'; subst ls'; clear Hsec'.
      apply (@member2_written _ (List.length (store st)) oc section ls os'
               k v); auto.
      * simpl. apply nth_error_snoc.
      * lia.
      * rewrite (@get_member_lookup _ (List.length (store st)) oc section
                   (VObj ls)); auto.
        simpl. apply nth_error_snoc.
    + simpl currentConfig in Hsec'.
      rewrite (@get_member_snoc st _ section oc (VObj ls) Hsec) in Hsec'.
      inversion Hsec'; subst x. discriminate.
Qed.

Lemma getConfig_one_level_copy_witness :
  let c := VObj (List.length (store load_module)) in
  let st1 := snd (getConfig load_module) in
  (forall key k v b st2 k',
     split_dots "" key = [k] ->
     updateConfig key v st1 = (Normal b, st2) ->
     fst (get_member c k' st2) = fst (get_member c k' st1))
  /\ (forall key k v b st2,
        split_dots "" key = ["batch"; k] ->
        updateConfig key v st1 = (Normal b, st2) ->
        fst (member2 c "batch" k st2) = Normal v).
Proof.
  cbv zeta.
  apply (@getConfig_one_level_copy load_module
           (VObj (List.length (store load_module)))
           (snd (getConfig load_module)) "batch" 5
           [("maxConcurrent", VNum (of_Z 3));
            ("maxIssuesPerBatch", VNum (of_Z 10))]);
    vm_compute; reflexivity.
Defined.



(** *** getClaudeConfig *)

Lemma member2_normal v s k st x st' :
  member2 v s k st = (Normal x, st') ->
  st' = st
  /\ exists ls os,
       fst (get_member v s st) = Normal (VObj ls)
       /\ nth_error (store st) ls = Some os
       /\ fst (get_member (VObj ls) k st) = Normal x.
Proof.
  unfold member2. intros H.
  apply bind_normal in H. destruct H as (sec & st0 & Hg & H).
  destruct (get_member_normal _ _ _ Hg) as (-> & l0 & o0 & -> & Ho0 & Hsec).
  destruct (get_member_normal _ _ _ H) as (-> & ls & os & -> & Hos & Hx).
  split; [reflexivity|]. exists ls, os.
  rewrite Hg, H. auto.
Qed.

(** X19.  [getClaudeConfig] hands out a snapshot of the four AI settings:
    a fresh object that holds the values the settings have at the time
    of the call, and in which a later [updateConfig] on an AI setting
    does not show. *)
Theorem getClaudeConfig_snapshot st c st1 :
  getClaudeConfig st = (Normal c, st1) ->
  fst (get_member c "model" st1) = current st "ai" "model"
  /\ fst (get_member c "temperature" st1) = current st "ai" "temperature"
  /\ fst (get_member c "maxTokens" st1) = current st "ai" "maxTokens"
  /\ fst (get_member c "systemMessage" st1)
     = current st "ai" "systemMessage"
  /\ forall key k v b st2 k',
       split_dots "" key = ["ai"; k] ->
       updateConfig key v st1 = (Normal b, st2) ->
       fst (get_member c k' st2) = fst (get_member c k' st1).
Proof.
  unfold getClaudeConfig. intros H.
  apply bind_normal in H. destruct H as (cfg & st0 & Hc & H).
  unfold get_currentConfig in Hc. inversion Hc; subst cfg st0; clear Hc.
  apply bind_normal in H. destruct H as (x1 & st0 & H1 & H).
  assert (E1 : current st "ai" "model" = Normal x1)
    by (unfold current; now rewrite H1).
  destruct (member2_normal _ _ _ _ H1) as (-> & ls & os & Hsec & Hos & _).
  apply bind_normal in H. destruct H as (x2 & st0 & H2 & H).
  assert (E2 : current st "ai" "temperature" = Normal x2)
    by (unfold current; now rewrite H2).
  destruct (member2_normal _ _ _ _ H2) as (-> & _).
  apply bind_normal in H. destruct H as (x3 & st0 & H3 & H).
  assert (E3 : current st "ai" "maxTokens" = Normal x3)
    by (unfold current; now rewrite H3).
  destruct (member2_normal _ _ _ _ H3) as (-> & _).
  apply bind_normal in H. destruct H as (x4 & st0 & H4 & H).
  assert (E4 : current st "ai" "systemMessage" = Normal x4)
    by (unfold current; now rewrite H4).
  destruct (member2_normal _ _ _ _ H4) as (-> & _).
  unfold alloc in H. inversion H; subst c st1; clear H.
  rewrite E1, E2, E3, E4.
  set (o := [("model", x1); ("temperature", x2); ("maxTokens", x3);
             ("systemMessage", x4)]).
  assert (Hnew : nth_error (store (set_store st (store st ++ [o])%list))
                   (List.length (store st)) = Some o)
    by (simpl; apply nth_error_snoc).
  split; [exact (f_equal fst (@get_member_lookup _ _ o "model" x1 Hnew eq_refl))|].
  split;
    [exact (f_equal fst (@get_member_lookup _ _ o "temperature" x2 Hnew eq_refl))|].
  split;
    [exact (f_equal fst (@get_member_lookup _ _ o "maxTokens" x3 Hnew eq_refl))|].
  split;
    [exact (f_equal fst (@get_member_lookup _ _ o "systemMessage" x4 Hnew eq_refl))|].
  intros key k v b st2 k' Hk Hu.
  assert (Hls : ls < List.length (store st))
    by (apply nth_error_Some; congruence).
  apply (@updateConfig_two key "ai" k v b _ st2 Hk) in Hu.
  apply navigate_two in Hu.
  destruct Hu as (oc1 & Hoc1 & [(ls' & os' & Hsec' & Hos' & ->)
                               | (x & Hsec' & Htx & ->)]).
  - simpl currentConfig in Hsec'.
    rewrite (@get_member_snoc st _ "ai" o (VObj ls) Hsec) in Hsec'.
    inversion Hsec'; subst ls'; clear Hsec'.
    apply get_member_frame. simpl.
    apply nth_error_update_other. lia.
  - simpl currentConfig in Hsec'.
    rewrite (@get_member_snoc st _ "ai" o (VObj ls) Hsec) in Hsec'.
    inversion Hsec'; subst x. discriminate.
Qed.

Lemma getClaudeConfig_snapshot_witness :
  let c := VObj (List.length (store load_module)) in
  let st1 := snd (getClaudeConfig load_module) in
  fst (get_member c "model" st1) = current load_module "ai" "model"
  /\ fst (get_member c "temperature" st1)
     = current load_module "ai" "temperature"
  /\ fst (get_member c "maxTokens" st1)
     = current load_module "ai" "maxTokens"
  /\ fst (get_member c "systemMessage" st1)
     = current load_module "ai" "systemMessage"
  /\ forall key k v b st2 k',
       split_dots "" key = ["ai"; k] ->
       updateConfig key v st1 = (Normal b, st2) ->
       fst (get_member c k' st2) = fst (get_member c k' st1).
Proof.
  cbv zeta.
  apply (@getClaudeConfig_snapshot load_module
           (VObj (List.length (store load_module)))
           (snd (getClaudeConfig load_module))).
  vm_compute. reflexivity.
Defined.

(** *** getGitHubToken *)

Lemma member2_current st s k x :
  current st s k = Normal x ->
  member2 (VObj (currentConfig st)) s k st = (Normal x, st).
Proof.
  unfold current. intros H.
  rewrite (reader_run st (reader_member2 (VObj (currentConfig st)) s k)).
  now rewrite H.
Qed.

(** X20.  A token that [getGitHubToken] returns is never empty, and it is
    the value of an environment variable: the one the configuration
    names, or [GITHUB_TOKEN] when the configured name is falsy.  The
    configuration is left as it was. *)
Theorem getGitHubToken_sound env st token st' :
  getGitHubToken env st = (Normal (Some token), st') ->
  st' = st
  /\ token <> ""
  /\ exists name,
       env name = Some token
       /\ ((name <> ""
            /\ current st "security" "tokenEnvName" = Normal (VStr name))
           \/ (name = "GITHUB_TOKEN"
               /\ exists x,
                    current st "security" "tokenEnvName" = Normal x
                    /\ truthy x = false)).
Proof.
  unfold getGitHubToken. intros H.
  apply bind_normal in H. destruct H as (cfg & st0 & Hc & H).
  unfold get_currentConfig in Hc. inversion Hc; subst cfg st0; clear Hc.
  apply bind_normal in H. destruct H as (x & st0 & Hm & H).
  assert (Hcur : current st "security" "tokenEnvName" = Normal x)
    by (unfold current; now rewrite Hm).
  destruct (member2_normal _ _ _ _ Hm) as (-> & _).
  apply bind_normal in H. destruct H as (name & st0 & Hn & H).
  assert (Hname : st0 = st
                  /\ ((truthy x = true /\ x = VStr name)
                      \/ (truthy x = false /\ name = "GITHUB_TOKEN"))).
  { destruct (truthy x) eqn:Htx.
    - destruct x; try discriminate. inversion Hn. auto.
    - inversion Hn. auto. }
  destruct Hname as [-> Hname]. clear Hn.
  destruct (env name) as [t|] eqn:He.
  2:{ destruct (inherited name); discriminate. }
  destruct (String.eqb_spec t "") as [->|Hne]; [discriminate|].
  inversion H; subst t st'. split; [reflexivity|]. split; [exact Hne|].
  exists name. split; [exact He|].
  destruct Hname as [[Htx ->] | [Htx ->]].
  - left. split; [|exact Hcur].
    intros ->. discriminate.
  - right. split; [reflexivity|]. exists x. auto.
Qed.

Lemma getGitHubToken_sound_witness :
  snd (getGitHubToken (only "GITHUB_TOKEN" "ghp_x") load_module)
  = load_module
  /\ "ghp_x" <> ""
  /\ exists name,
       only "GITHUB_TOKEN" "ghp_x" name = Some "ghp_x"
       /\ ((name <> ""
            /\ current load_module "security" "tokenEnvName"
               = Normal (VStr name))
           \/ (name = "GITHUB_TOKEN"
               /\ exists x,
                    current load_module "security" "tokenEnvName" = Normal x
                    /\ truthy x = false)).
Proof.
  apply (@getGitHubToken_sound (only "GITHUB_TOKEN" "ghp_x") load_module
           "ghp_x"
           (snd (getGitHubToken (only "GITHUB_TOKEN" "ghp_x") load_module))).
  vm_compute. reflexivity.
Defined.



(** *** Loading the configuration file *)

(** X22.  A configuration path that is a directory, or whose name ends
    neither in [.json] nor in [.js], makes [initialize] answer [false],
    whatever the file holds.  The configuration is then a fresh copy of
    the defaults: the overrides of the environment are not applied. *)
Theorem initialize_rejects_file fs env path st od :
  path <> "" ->
  stat_isFile fs path = Normal false
  \/ (endsWith path ".json" = false /\ endsWith path ".js" = false
      /\ stat_isFile fs path <> Beyond /\ readFile fs path <> Beyond) ->
  nth_error (store st) (defaultConfig st) = Some od ->
  initialize_path fs env (Some path) st
  = (Normal false, snd (resetToDefaults st)).
Proof.
  intros Hpath Hwhy Hod.
  assert (Hload : exists e, loadConfigFromFile fs path = Abrupt e).
  { unfold loadConfigFromFile.
    destruct Hwhy as [Hdir | (Hj & Hjs & Hstat & Hread)].
    - rewrite Hdir. cbn. eauto.
    - destruct (stat_isFile fs path) as [[] | e |]; cbn; eauto;
        [|congruence].
      destruct (readFile fs path) as [content | e |]; cbn; eauto;
        [|congruence].
      rewrite Hj, Hjs. eauto. }
  destruct Hload as (e & Hload).
  unfold initialize_path.
  apply String.eqb_neq in Hpath. rewrite Hpath, Hload.
  rewrite (resetToDefaults_normal _ Hod). cbn [snd].
  unfold initialize, try_catch, load_all, load_file.
  unfold bind at 1. unfold bind at 1. unfold bind at 1.
  change start_from_defaults with resetToDefaults.
  rewrite (resetToDefaults_normal _ Hod). reflexivity.
Qed.

Lemma initialize_rejects_file_witness :
  let fs := {| stat_isFile := fun _ => Normal true;
               readFile := fun _ => Normal "ai: {model: x}";
               JSON_parse := fun _ => Normal JNull;
               require := fun _ => Normal JNull |} in
  initialize_path fs (only "AI_MODEL" "m") (Some "config.yaml") load_module
  = (Normal false, snd (resetToDefaults load_module)).
Proof.
  cbv zeta.
  apply (@initialize_rejects_file _ (only "AI_MODEL" "m") "config.yaml"
           load_module
           (match nth_error (store load_module) (defaultConfig load_module)
            with Some o => o | None => [] end)).
  - discriminate.
  - right. repeat split; (reflexivity || discriminate).
  - vm_compute. reflexivity.
Defined.

(** X23.  A configuration file whose document is falsy ([null], [false],
    zero, the empty text) or has nothing to enumerate (a boolean, a
    number, an empty object or list) is accepted and changes nothing:
    [initialize] behaves as it does without file. *)
Theorem initialize_scalar_document j env st :
  json_truthy j = false \/ entries j = [] ->
  initialize (Loaded j) env st = initialize NoPath env st.
Proof.
  intros Hj.
  assert (Hm : forall st0, mergeConfig j st0 = (Normal tt, st0)).
  { intros st0. unfold mergeConfig.
    destruct (json_truthy j) eqn:Ht; [|reflexivity].
    destruct Hj as [Hj | Hj]; [discriminate|].
    cbn [negb]. unfold bind, get_currentConfig, deepMerge.
    rewrite Hj. reflexivity. }
  unfold initialize, try_catch, load_all, load_file.
  unfold bind at 1 4. unfold bind at 1 3. unfold bind at 1 2.
  destruct (start_from_defaults st) as [[[] | e |] st0]; try reflexivity.
  rewrite Hm. reflexivity.
Qed.

Lemma initialize_scalar_document_witness :
  initialize (Loaded (JNum 42%Q)) (only "AI_MODEL" "m") load_module
  = initialize NoPath (only "AI_MODEL" "m") load_module.
Proof.
  apply (@initialize_scalar_document (JNum 42%Q)). right. reflexivity.
Defined.

End AccessFacts.

(** ** The configuration manager: saving *)

Module SaveFacts.
Import JSNum JS Configuration StoreFacts ConfigFacts AccessFacts.
Local Open Scope string_scope.

(** *** Deleting a property *)

Lemma lookup_none_iff o k : lookup o k = None <-> ~ In k (map fst o).
Proof.
  induction o as [|[k' x] o IH]; simpl.
  - tauto.
  - destruct (String.eqb_spec k' k) as [->|Hne].
    + split; [discriminate | intros H; exfalso; apply H; now left].
    + rewrite IH. split.
      * intros H [Heq|Hin]; [congruence | now apply H].
      * intros H Hin. apply H. now right.
Qed.

Lemma lookup_delete_same o k :
  distinct_keys o -> lookup (delete_prop o k) k = None.
Proof.
  unfold distinct_keys.
  induction o as [|[k' x] o IH]; simpl; intros Hnd; [reflexivity|].
  inversion Hnd as [|? ? Hnotin Hnd']; subst.
  destruct (String.eqb_spec k' k) as [->|Hne].
  - now apply lookup_none_iff.
  - simpl. destruct (String.eqb_spec k' k); [congruence|]. now apply IH.
Qed.

Lemma lookup_delete_other o k k' :
  k' <> k -> lookup (delete_prop o k) k' = lookup o k'.
Proof.
  intros Hne. induction o as [|[k0 x] o IH]; simpl; [reflexivity|].
  destruct (String.eqb_spec k0 k) as [->|Hk0].
  - destruct (String.eqb_spec k k'); [congruence | reflexivity].
  - simpl. now rewrite IH.
Qed.

Lemma delete_keys o k x :
  In x (map fst (delete_prop o k)) -> In x (map fst o).
Proof.
  induction o as [|[k0 y] o IH]; simpl; [tauto|].
  destruct (String.eqb k0 k); simpl; [tauto|].
  intros [H|H]; [now left | right; now apply IH].
Qed.

Lemma distinct_delete o k :
  distinct_keys o -> distinct_keys (delete_prop o k).
Proof.
  unfold distinct_keys.
  induction o as [|[k0 y] o IH]; simpl; intros Hnd; [constructor|].
  inversion Hnd as [|? ? Hnotin Hnd']; subst.
  destruct (String.eqb k0 k); [exact Hnd'|].
  simpl. constructor; [|now apply IH].
  intros Hin. apply Hnotin. now apply delete_keys in Hin.
Qed.

Lemma delete_member_obj st l o k :
  nth_error (store st) l = Some o ->
  delete_member (VObj l) k st
  = (Normal tt, set_store st (update_nth l (delete_prop o k) (store st))).
Proof.
  intros Hl. unfold delete_member, bind, read_obj, write_obj.
  now rewrite Hl.
Qed.

Lemma save_reaches st oc ls os :
  nth_error (store st) (currentConfig st) = Some oc ->
  lookup oc "security" = Some (VObj ls) ->
  nth_error (store st) ls = Some os ->
  forall w,
    saveConfigToFile w st
    = match serialize (S (List.length (store (saving st oc ls os))))
              (store (saving st oc ls os)) []
              (VObj (List.length (store st))) with
      | Normal (Some doc) =>
          match w with
          | Some _ => (Normal (false, None), saving st oc ls os)
          | None => (Normal (true, Some doc), saving st oc ls os)
          end
      | Normal None => (Normal (false, None), saving st oc ls os)
      | Abrupt _ => (Normal (false, None), saving st oc ls os)
      | Beyond => (Beyond, saving st oc ls os)
      end.
Proof.
  intros Hoc Hsec Hos w.
  assert (Hls : ls < List.length (store st))
    by (apply nth_error_Some; congruence).
  set (lnew := List.length (store st)).
  set (st1 := set_store st (store st ++ [oc])%list).
  assert (Hspread : spread (VObj (currentConfig st)) st
                    = (Normal (VObj lnew), st1)).
  { unfold spread, bind, read_obj, alloc. now rewrite Hoc. }
  assert (Hnew1 : nth_error (store st1) lnew = Some oc)
    by (simpl; apply nth_error_snoc).
  assert (Hg1 : get_member (VObj lnew) "security" st1
                = (Normal (VObj ls), st1))
    by (now apply (@get_member_lookup st1 lnew oc)).
  assert (Hos1 : nth_error (store st1) ls = Some os)
    by (simpl; now apply nth_error_snoc_old).
  set (st2 := set_store st1
                (update_nth ls (delete_prop os "tokens") (store st1))).
  assert (Hd1 : delete_member (VObj ls) "tokens" st1 = (Normal tt, st2))
    by (now apply delete_member_obj).
  assert (Hnew2 : nth_error (store st2) lnew = Some oc).
  { simpl. rewrite nth_error_update_other by (unfold lnew; lia).
    apply nth_error_snoc. }
  assert (Hg2 : get_member (VObj lnew) "security" st2
                = (Normal (VObj ls), st2))
    by (now apply (@get_member_lookup st2 lnew oc)).
  assert (Hos2 : nth_error (store st2) ls
                 = Some (delete_prop os "tokens")).
  { simpl. apply nth_error_update_same. rewrite length_app. simpl. lia. }
  assert (Hd2 : delete_member (VObj ls) "credentials" st2
                = (Normal tt, saving st oc ls os)).
  { rewrite (@delete_member_obj st2 ls _ "credentials" Hos2).
    reflexivity. }
  unfold saveConfigToFile, try_catch.
  rewrite (@bind_eq _ _ get_currentConfig _ st (VObj (currentConfig st)) st
             eq_refl).
  rewrite (@bind_eq _ _ _ _ st _ _ Hspread).
  rewrite (@bind_eq _ _ _ _ st1 _ _ Hg1).
  cbn [truthy when].
  assert (Hwhen :
    (s1 <- get_member (VObj lnew) "security" ;;
     delete_member s1 "tokens" ;;;
     s2 <- get_member (VObj lnew) "security" ;;
     delete_member s2 "credentials") st1
    = (Normal tt, saving st oc ls os)).
  { rewrite (@bind_eq _ _ _ _ st1 _ _ Hg1).
    rewrite (@bind_eq _ _ _ _ st1 _ _ Hd1).
    rewrite (@bind_eq _ _ _ _ st2 _ _ Hg2).
    exact Hd2. }
  rewrite (@bind_eq _ _ _ _ st1 _ _ Hwhen).
  unfold bind, stringify.
  destruct (serialize _ _ _ _) as [[doc|] | e |]; destruct w; reflexivity.
Qed.

(** *** What is serialised *)

Lemma serialize_obj fuel h path l r :
  serialize fuel h path (VObj l) = Normal r ->
  exists fuel' o fs,
    fuel = S fuel'
    /\ nth_error h l = Some o
    /\ serialize_props fuel' h (l :: path) o = Normal fs
    /\ r = Some (JObj fs).
Proof.
  destruct fuel as [|fuel']; simpl.
  - destruct (existsb (Nat.eqb l) path); discriminate.
  - destruct (existsb (Nat.eqb l) path); [discriminate|].
    destruct (nth_error h l) as [o|]; [|discriminate].
    change ((fix props (o0 : object) : completion (list (string * json)) :=
               match o0 with
               | [] => Normal []
               | (k, x) :: o' =>
                   match serialize fuel' h (l :: path) x with
                   | Normal None => props o'
                   | Normal (Some j) =>
                       match props o' with
                       | Normal fs => Normal ((k, j) :: fs)
                       | r => r
                       end
                   | Abrupt e => Abrupt e
                   | Beyond => Beyond
                   end
               end) o)
      with (serialize_props fuel' h (l :: path) o).
    destruct (serialize_props fuel' h (l :: path) o) as [fs | e |] eqn:Hp;
      try discriminate.
    intros H; inversion H. exists fuel', o, fs. auto.
Qed.

Lemma props_first fuel h path o k l fs :
  lookup o k = Some (VObj l) ->
  serialize_props fuel h path o = Normal fs ->
  exists j,
    serialize fuel h path (VObj l) = Normal (Some j)
    /\ jlookup fs k = Some j.
Proof.
  revert fs. induction o as [|[k' x] o IH]; intros fs Hl Hp;
    [discriminate|].
  simpl in Hl. cbn [serialize_props] in Hp.
  change ((fix props (o0 : object) : completion (list (string * json)) :=
             match o0 with
             | [] => Normal []
             | (k, x) :: o' =>
                 match serialize fuel h path x with
                 | Normal None => props o'
                 | Normal (Some j) =>
                     match props o' with
                     | Normal fs => Normal ((k, j) :: fs)
                     | r => r
                     end
                 | Abrupt e => Abrupt e
                 | Beyond => Beyond
                 end
             end) o)
    with (serialize_props fuel h path o) in Hp.
  destruct (String.eqb_spec k' k) as [->|Hne].
  - inversion Hl; subst x; clear Hl.
    destruct (serialize fuel h path (VObj l)) as [[j|] | e |] eqn:Hs;
      try discriminate.
    + destruct (serialize_props fuel h path o) as [fs' | e |];
        try discriminate.
      inversion Hp; subst fs. exists j. split; [reflexivity|].
      simpl. now rewrite String.eqb_refl.
    + apply serialize_obj in Hs.
      destruct Hs as (? & ? & ? & _ & _ & _ & Hr). discriminate.
  - destruct (serialize fuel h path x) as [[j|] | e |]; try discriminate.
    + destruct (serialize_props fuel h path o) as [fs' | e |] eqn:Hp';
        try discriminate.
      inversion Hp; subst fs.
      destruct (IH fs' Hl eq_refl) as (j' & Hj' & Hlk).
      exists j'. split; [exact Hj'|].
      simpl. destruct (String.eqb_spec k' k); [congruence | exact Hlk].
    + now apply IH.
Qed.

Lemma props_absent fuel h path o k fs :
  lookup o k = None ->
  serialize_props fuel h path o = Normal fs ->
  jlookup fs k = None.
Proof.
  revert fs. induction o as [|[k' x] o IH]; intros fs Hl Hp.
  - simpl in Hp. inversion Hp. reflexivity.
  - simpl in Hl. cbn [serialize_props] in Hp.
    change ((fix props (o0 : object) : completion (list (string * json)) :=
               match o0 with
               | [] => Normal []
               | (k, x) :: o' =>
                   match serialize fuel h path x with
                   | Normal None => props o'
                   | Normal (Some j) =>
                       match props o' with
                       | Normal fs => Normal ((k, j) :: fs)
                       | r => r
                       end
                   | Abrupt e => Abrupt e
                   | Beyond => Beyond
                   end
               end) o)
      with (serialize_props fuel h path o) in Hp.
    destruct (String.eqb_spec k' k) as [->|Hne]; [discriminate|].
    destruct (serialize fuel h path x) as [[j|] | e |]; try discriminate.
    + destruct (serialize_props fuel h path o) as [fs' | e |] eqn:Hp';
        try discriminate.
      inversion Hp; subst fs. simpl.
      destruct (String.eqb_spec k' k); [congruence|]. now apply IH.
    + now apply IH.
Qed.

(** X24.  [saveConfigToFile] strips the secrets, and strips them from the
    live configuration: whenever the security section is an object,
    after the call (whether the write succeeded or not) the section of
    the current configuration has neither [tokens] nor [credentials],
    and a document that was written has neither under [security]. *)
Theorem save_strips_secrets w st r st' ls os :
  fst (get_member (VObj (currentConfig st)) "security" st)
  = Normal (VObj ls) ->
  nth_error (store st) ls = Some os ->
  distinct_keys os ->
  saveConfigToFile w st = (Normal r, st') ->
  current st' "security" "tokens" = Normal VUndefined
  /\ current st' "security" "credentials" = Normal VUndefined
  /\ forall doc,
       snd r = Some doc ->
       exists fields sec,
         doc = JObj fields
         /\ jlookup fields "security" = Some (JObj sec)
         /\ jlookup sec "tokens" = None
         /\ jlookup sec "credentials" = None.
Proof.
  intros Hsec Hos Hnd Hsave.
  destruct (@get_member_section _ _ _ _ Hsec) as (oc & Hoc & Hlk).
  rewrite (@save_reaches st oc ls os Hoc Hlk Hos w) in Hsave.
  assert (Hls : ls < List.length (store st))
    by (apply nth_error_Some; congruence).
  assert (Hlc : currentConfig st < List.length (store st))
    by (apply nth_error_Some; congruence).
  set (st3 := saving st oc ls os) in *.
  assert (Hls3 : nth_error (store st3) ls = Some (stripped os)).
  { unfold st3, saving. simpl. apply nth_error_update_same.
    rewrite update_nth_length, length_app. simpl. lia. }
  assert (Hnew3 : nth_error (store st3) (List.length (store st)) = Some oc).
  { unfold st3, saving. simpl.
    rewrite !nth_error_update_other by lia. apply nth_error_snoc. }
  assert (Htok : lookup (stripped os) "tokens" = None).
  { unfold stripped. rewrite lookup_delete_other by discriminate.
    now apply lookup_delete_same. }
  assert (Hcred : lookup (stripped os) "credentials" = None).
  { unfold stripped. apply lookup_delete_same. now apply distinct_delete. }
  assert (Hcfg3 : exists oc3,
            nth_error (store st3) (currentConfig st) = Some oc3
            /\ lookup oc3 "security" = Some (VObj ls)).
  { destruct (Nat.eq_dec (currentConfig st) ls) as [Heq|Hne].
    - exists (stripped os). rewrite Heq. split; [exact Hls3|].
      assert (os = oc) by congruence. subst oc.
      unfold stripped. now rewrite !lookup_delete_other by discriminate.
    - exists oc. split; [|exact Hlk].
      unfold st3, saving. simpl.
      rewrite !nth_error_update_other by congruence.
      now apply nth_error_snoc_old. }
  destruct Hcfg3 as (oc3 & Hoc3 & Hlk3).
  assert (Hst' : st' = st3).
  { destruct (serialize _ _ _ _) as [[doc|] | e |]; [destruct w| | |];
      inversion Hsave; reflexivity. }
  subst st'.
  assert (Hread : forall k, lookup (stripped os) k = None ->
                            inherited k = false ->
                            current st3 "security" k = Normal VUndefined).
  { intros k Hk Hin. unfold current. rewrite member2_eq.
    change (currentConfig st3) with (currentConfig st).
    rewrite (@get_member_lookup st3 _ oc3 "security" (VObj ls) Hoc3 Hlk3).
    cbn [fst]. unfold get_member, bind, read_obj.
    rewrite Hls3, Hk, Hin. reflexivity. }
  split; [now apply Hread|]. split; [now apply Hread|].
  intros doc Hdoc.
  destruct (serialize (S (List.length (store st3))) (store st3) []
              (VObj (List.length (store st)))) as [[doc'|] | e |] eqn:Hser;
    [| inversion Hsave; subst r; discriminate
     | inversion Hsave; subst r; discriminate
     | discriminate].
  assert (doc' = doc).
  { destruct w; inversion Hsave; subst r; simpl in Hdoc; congruence. }
  subst doc'.
  apply serialize_obj in Hser.
  destruct Hser as (fuel' & o & fields & Hfuel & Ho & Hprops & Hr).
  inversion Hfuel; subst fuel'; clear Hfuel.
  rewrite Hnew3 in Ho. inversion Ho; subst o; clear Ho.
  inversion Hr; subst doc; clear Hr.
  destruct (@props_first _ _ _ oc "security" ls fields Hlk Hprops)
    as (j & Hj & Hjl).
  apply serialize_obj in Hj.
  destruct Hj as (fuel'' & o & sec & _ & Ho & Hsp & Hr).
  rewrite Hls3 in Ho. inversion Ho; subst o; clear Ho.
  inversion Hr; subst j; clear Hr.
  exists fields, sec. split; [reflexivity|]. split; [exact Hjl|].
  split; [exact (props_absent _ _ _ _ _ Htok Hsp)
         | exact (props_absent _ _ _ _ _ Hcred Hsp)].
Qed.

(** A failing write: the status is [false], nothing is written, and
    the token is gone from the live configuration all the same. *)
Lemma save_strips_secrets_witness :
  let st := snd (updateConfig "security.tokens" (VStr "secret")
                   load_module) in
  let r := saveConfigToFile (Some "EACCES") st in
  fst r = Normal (false, None)
  /\ current st "security" "tokens" = Normal (VStr "secret")
  /\ current (snd r) "security" "tokens" = Normal VUndefined
  /\ current (snd r) "security" "credentials" = Normal VUndefined.
Proof.
  cbv zeta.
  split; [vm_compute; reflexivity|].
  split; [vm_compute; reflexivity|].
  destruct (@save_strips_secrets (Some "EACCES")
              (snd (updateConfig "security.tokens" (VStr "secret")
                      load_module))
              (false, None)
              (snd (saveConfigToFile (Some "EACCES")
                      (snd (updateConfig "security.tokens" (VStr "secret")
                              load_module))))
              4
              [("tokenEnvName", VStr "GITHUB_TOKEN");
               ("validateCodeBeforeCommit", VBool true);
               ("allowedFileTypes",
                VArr (map JStr
                        [".js"; ".jsx"; ".ts"; ".tsx"; ".py"; ".rb";
                         ".java"; ".go"; ".php"; ".c"; ".cpp"; ".h";
                         ".cs"; ".md"; ".txt"; ".json"; ".yml";
                         ".yaml"]));
               ("tokens", VStr "secret")])
    as (H1 & H2 & _).
  - vm_compute. reflexivity.
  - vm_compute. reflexivity.
  - unfold distinct_keys. simpl.
    repeat (constructor; [simpl; intuition discriminate|]). constructor.
  - vm_compute. reflexivity.
  - split; assumption.
Defined.

End SaveFacts.

(** ** The configuration manager: validation and the environment *)

Module ValidationFacts.
Import JSNum JS Configuration StoreFacts ConfigFacts AccessFacts.
Local Open Scope string_scope.

Lemma push_if_false cond msg errors st :
  reader cond -> fst (cond st) = Normal false ->
  push_if cond msg errors st = (Normal errors, st).
Proof.
  intros Hr Hc. unfold push_if, bind.
  rewrite (reader_run st Hr), Hc. reflexivity.
Qed.

Lemma validateConfig_valid st :
  settings_valid st ->
  validateConfig (VObj (currentConfig st)) st = (Normal [], st).
Proof.
  intros ((vm & Hvm & Htm) & (t & Ht & Ht0 & Ht1) & (m & Hm & Hm0 & Hm1)
          & (c & Hc & Hc0) & (b & Hb & Hb0) & (vt & Hvt & Htt)).
  unfold holds_number, current in *.
  set (cfg := VObj (currentConfig st)) in *.
  assert (Hai : exists sec, fst (get_member cfg "ai" st) = Normal sec
                            /\ truthy sec = true).
  { rewrite member2_eq in Hvm.
    destruct (fst (get_member cfg "ai" st)) as [sec | e |]; try discriminate.
    exists sec. split; [reflexivity|].
    destruct sec; try discriminate; reflexivity. }
  destruct Hai as (sec & Hsec & Htsec).
  unfold validateConfig, checks. cbn [run_checks].
  rewrite (@bind_eq _ _ _ _ st [] st).
  2:{ apply push_if_false; [reads|].
      rewrite (@or_else_value _ _ st (negb (truthy sec)) (negb (truthy vm)));
        [now rewrite Htsec, Htm | reads | |].
      - apply js_not_value; [reads | exact Hsec].
      - apply js_not_value; [reads | exact Hvm]. }
  rewrite (@bind_eq _ _ _ _ st [] st).
  2:{ apply push_if_false; [reads|].
      rewrite (@or_else_value _ _ st (ltb t (of_Z 0)) (gtb t (of_Z 1)));
        [now rewrite Ht0, Ht1 | reads | |].
      - apply js_lt_value; [reads | exact Ht].
      - apply js_gt_value; [reads | exact Ht]. }
  rewrite (@bind_eq _ _ _ _ st [] st).
  2:{ apply push_if_false; [reads|].
      rewrite (@or_else_value _ _ st (ltb m (of_Z 100))
                 (gtb m (of_Z 10000)));
        [now rewrite Hm0, Hm1 | reads | |].
      - apply js_lt_value; [reads | exact Hm].
      - apply js_gt_value; [reads | exact Hm]. }
  rewrite (@bind_eq _ _ _ _ st [] st).
  2:{ apply push_if_false; [reads|].
      rewrite (@js_lt_value _ 1 st c); [now rewrite Hc0 | reads | exact Hc]. }
  rewrite (@bind_eq _ _ _ _ st [] st).
  2:{ apply push_if_false; [reads|].
      rewrite (@js_lt_value _ 1 st b); [now rewrite Hb0 | reads | exact Hb]. }
  rewrite (@bind_eq _ _ _ _ st [] st).
  2:{ apply push_if_false; [reads|].
      rewrite (@js_not_value _ st vt); [now rewrite Htt | reads | exact Hvt]. }
  reflexivity.
Qed.

(** X25.  [initialize] answers [true] when the three loading steps
    complete and every validated setting passes its test; the
    configuration is then the merged one.  A setting that is not a
    number at all (NaN) passes the range tests. *)
Theorem initialize_accepts file env st st1 :
  load_all file env st = (Normal tt, st1) ->
  settings_valid st1 ->
  initialize file env st = (Normal true, st1).
Proof.
  intros Hload Hvalid.
  unfold initialize, try_catch.
  rewrite (@bind_eq _ _ _ _ st tt st1 Hload).
  unfold validate_or_throw.
  rewrite (@bind_eq _ _ get_currentConfig _ st1 (VObj (currentConfig st1))
             st1 eq_refl).
  rewrite (@bind_eq _ _ _ _ st1 [] st1 (validateConfig_valid Hvalid)).
  reflexivity.
Qed.

Lemma initialize_accepts_witness :
  initialize NoPath (only "AI_TEMPERATURE" "0.7") load_module
  = (Normal true,
     snd (load_all NoPath (only "AI_TEMPERATURE" "0.7") load_module)).
Proof.
  apply initialize_accepts.
  - vm_compute. reflexivity.
  - unfold settings_valid, holds_number.
    split; [eexists; split; vm_compute; reflexivity|].
    split; [eexists; split; [vm_compute; reflexivity|]; split; reflexivity|].
    split; [eexists; split; [vm_compute; reflexivity|]; split; reflexivity|].
    split; [eexists; split; [vm_compute; reflexivity|]; reflexivity|].
    split; [eexists; split; [vm_compute; reflexivity|]; reflexivity|].
    eexists; split; vm_compute; reflexivity.
Defined.

(** *** Integers from the environment *)

Lemma take_while_prefix p d rest :
  forallb p d = true ->
  match rest with c :: _ => p c = false | [] => True end ->
  take_while p (d ++ rest)%list = d.
Proof.
  intros Hd Hrest. induction d as [|c d IH]; simpl.
  - destruct rest as [|c rest]; [reflexivity|]. simpl. now rewrite Hrest.
  - simpl in Hd. apply andb_true_iff in Hd. destruct Hd as [-> Hd].
    now rewrite IH.
Qed.

Lemma parseInt10_prefix d rest :
  d <> [] -> forallb Regex.is_digit d = true ->
  match rest with c :: _ => Regex.is_digit c = false | [] => True end ->
  parseInt10 (d ++ rest)%list = of_Z (digits_val d).
Proof.
  intros Hd Hall Hrest. destruct d as [|c d]; [congruence|].
  assert (Hc : Regex.is_digit c = true).
  { simpl in Hall. now apply andb_true_iff in Hall. }
  unfold parseInt10.
  change ((c :: d) ++ rest)%list with (c :: (d ++ rest))%list.
  cbn [drop_while]. rewrite (TriggerFacts.digit_not_space _ Hc).
  destruct (TriggerFacts.digit_not_sign _ Hc) as [_ Hs]. rewrite Hs.
  change (c :: (d ++ rest))%list with ((c :: d) ++ rest)%list.
  rewrite (take_while_prefix _ _ _ Hall Hrest).
  reflexivity.
Qed.

Lemma str_nonempty s d rest :
  str s = (d ++ rest)%list -> d <> [] -> s <> "".
Proof.
  intros H Hd ->. simpl in H. destruct d; [congruence | discriminate].
Qed.



End ValidationFacts.

(** ** The configuration manager: a missing section, a top-level key *)

Module EdgeFacts.
Import JSNum JS Configuration StoreFacts ConfigFacts AccessFacts.
Local Open Scope string_scope.

(** X27.  A configuration without AI section cannot be validated: when
    the loading steps leave [currentConfig.ai] null or undefined,
    [validateConfig] throws while reading the temperature, and
    [initialize] answers [false], the configuration staying as
    loaded. *)
Theorem initialize_missing_section file env st st1 x :
  load_all file env st = (Normal tt, st1) ->
  fst (get_member (VObj (currentConfig st1)) "ai" st1) = Normal x ->
  x = VNull \/ x = VUndefined ->
  (exists e, fst (validateConfig (VObj (currentConfig st1)) st1) = Abrupt e)
  /\ initialize file env st = (Normal false, st1).
Proof.
  intros Hload Hai Hx.
  set (cfg := VObj (currentConfig st1)) in *.
  assert (Hg : get_member cfg "ai" st1 = (Normal x, st1)).
  { rewrite (reader_run st1 (reader_get_member cfg "ai")). now rewrite Hai. }
  assert (Hfalsy : truthy x = false) by (destruct Hx as [-> | ->]; reflexivity).
  assert (Hthrow : exists e, get_member x "temperature" st1 = (Abrupt e, st1)).
  { destruct Hx as [-> | ->]; eexists; reflexivity. }
  destruct Hthrow as (e & Hthrow).
  assert (Hv : validateConfig cfg st1 = (Abrupt e, st1)).
  { unfold validateConfig, checks. cbn [run_checks].
    unfold push_if at 1. unfold or_else at 1. unfold js_not at 1.
    unfold bind at 1. unfold bind at 1. unfold bind at 1. unfold bind at 1.
    rewrite Hg. unfold ret at 1. rewrite Hfalsy. cbn [negb].
    unfold ret at 1. unfold ret at 1.
    unfold bind at 1. unfold push_if at 1. unfold bind at 1.
    unfold or_else at 1. unfold bind at 1. unfold js_lt at 1.
    unfold bind at 1. unfold member2 at 1. unfold bind at 1.
    rewrite Hg, Hthrow. reflexivity. }
  split; [exists e; now rewrite Hv|].
  unfold initialize, try_catch.
  rewrite (@bind_eq _ _ _ _ st tt st1 Hload).
  unfold validate_or_throw.
  rewrite (@bind_eq _ _ get_currentConfig _ st1 cfg st1 eq_refl).
  unfold bind. rewrite Hv. reflexivity.
Qed.

Lemma initialize_missing_section_witness :
  let file := Loaded (JObj [("ai", JNull)]) in
  (exists e,
     fst (validateConfig
            (VObj (currentConfig
                     (snd (load_all file (fun _ => None) load_module))))
            (snd (load_all file (fun _ => None) load_module)))
     = Abrupt e)
  /\ initialize file (fun _ => None) load_module
     = (Normal false, snd (load_all file (fun _ => None) load_module)).
Proof.
  cbv zeta.
  apply (@initialize_missing_section (Loaded (JObj [("ai", JNull)]))
           (fun _ => None) load_module
           (snd (load_all (Loaded (JObj [("ai", JNull)])) (fun _ => None)
                   load_module))
           VNull).
  - vm_compute. reflexivity.
  - vm_compute. reflexivity.
  - now left.
Defined.

(** X28.  A top-level key is the current configuration's own:
    [updateConfig('key', v)] makes [currentConfig.key] read [v] and
    leaves every property of [defaultConfig] as it was, provided the
    current configuration is not the defaults object itself (it is a
    copy from the moment the module is loaded); [resetToDefaults] then
    gives the key the value the defaults have for it. *)
Theorem updateConfig_top_level key k v b st st2 od :
  split_dots "" key = [k] ->
  nth_error (store st) (defaultConfig st) = Some od ->
  currentConfig st <> defaultConfig st ->
  updateConfig key v st = (Normal b, st2) ->
  fst (get_member (VObj (currentConfig st2)) k st2) = Normal v
  /\ (forall k',
        fst (get_member (VObj (defaultConfig st2)) k' st2)
        = fst (get_member (VObj (defaultConfig st)) k' st))
  /\ (forall k',
        fst (get_member
               (VObj (currentConfig (snd (resetToDefaults st2)))) k'
               (snd (resetToDefaults st2)))
        = fst (get_member (VObj (defaultConfig st)) k' st)).
Proof.
  intros Hk Hod Hne Hu.
  destruct (@updateConfig_one _ _ _ _ _ _ Hk Hu) as (oc & Hoc & ->).
  assert (Hod2 : nth_error (store (written st (currentConfig st) oc k v))
                   (defaultConfig st) = Some od).
  { simpl. rewrite nth_error_update_other by congruence. exact Hod. }
  split; [|split].
  - simpl currentConfig. now apply get_member_written_same.
  - intros k'. simpl defaultConfig. apply get_member_frame.
    simpl. apply nth_error_update_other. congruence.
  - intros k'.
    rewrite (@resetToDefaults_normal _ od Hod2). cbn [snd currentConfig].
    unfold get_member, bind, read_obj. cbn [store].
    rewrite nth_error_snoc, Hod.
    destruct (lookup od k'); [reflexivity|].
    destruct (inherited k'); reflexivity.
Qed.

Lemma updateConfig_top_level_witness :
  let st2 := snd (updateConfig "ai" (VStr "off") load_module) in
  fst (get_member (VObj (currentConfig st2)) "ai" st2) = Normal (VStr "off")
  /\ (forall k',
        fst (get_member (VObj (defaultConfig st2)) k' st2)
        = fst (get_member (VObj (defaultConfig load_module)) k' load_module))
  /\ (forall k',
        fst (get_member
               (VObj (currentConfig (snd (resetToDefaults st2)))) k'
               (snd (resetToDefaults st2)))
        = fst (get_member (VObj (defaultConfig load_module)) k'
                 load_module)).
Proof.
  cbv zeta.
  apply (@updateConfig_top_level "ai" "ai" (VStr "off") true load_module
           (snd (updateConfig "ai" (VStr "off") load_module))
           (match nth_error (store load_module) (defaultConfig load_module)
            with Some o => o | None => [] end));
    vm_compute; (reflexivity || discriminate).
Defined.

End EdgeFacts.
